(** * Muser embedding-viz pipeline: clustering labels and phylogeny construction

    A shallow embedding of [pipeline/cluster.py] and [pipeline/phylogeny.py]
    together with the properties stated about them.

    Conventions of the embedding.
    - numpy [float64] values are modelled by exact rationals [Q]; the value
      [np.inf] is a separate constructor of [xfloat].
    - numpy [int64] values are integers [Z] with the wrap-around written out.
    - Python [str] values are strings of 8-bit characters; the case and
      classification functions are Python's on the ASCII range.
    - Library routines the pipeline calls but does not define (HDBSCAN,
      scipy's [minimum_spanning_tree], CLIP, PIL, [datetime] formatting, file
      reads) are variables of the section that uses them; a routine that can
      raise returns a [result]. *)

From Stdlib Require Import ZArith QArith Lia Lqa Bool Ascii String DecimalString.
From stdpp Require Import base option list gmap strings sorting.

Set Default Proof Using "Type".

Local Open Scope Z_scope.

(** ** Exceptions *)

Inductive exn : Type :=
  | ValueError
  | TypeError
  | IndexError
  | AttributeError
  | RuntimeError.

(** Outcome of a call: a value, a Python exception, or [OutOfFuel] when the
    bound on the iterations of a [while] loop was reached. *)
Inductive result (A : Type) : Type :=
  | Ok (a : A)
  | Raise (e : exn)
  | OutOfFuel.
Arguments Ok {A} a.
Arguments Raise {A} e.
Arguments OutOfFuel {A}.

Definition rbind {A B} (m : result A) (k : A → result B) : result B :=
  match m with
  | Ok a => k a
  | Raise e => Raise e
  | OutOfFuel => OutOfFuel
  end.

Fixpoint result_mapM {A B} (f : A → result B) (l : list A) : result (list B) :=
  match l with
  | [] => Ok []
  | x :: l' =>
      rbind (f x) (λ y, rbind (result_mapM f l') (λ ys, Ok (y :: ys)))
  end.

(** How a call failed, if it did: [Some (Some e)] for the exception [e],
    [Some None] for an exhausted loop bound. *)
Definition failure {A} (r : result A) : option (option exn) :=
  match r with
  | Ok _ => None
  | Raise e => Some (Some e)
  | OutOfFuel => Some None
  end.

Notation "x ←r m ; k" := (rbind m (λ x, k))
  (at level 20, m at level 100, k at level 200, right associativity,
   only parsing).

(** ** Numbers *)

(** [float64] entries of a distance array. *)
Inductive xfloat : Type :=
  | Finite (q : Q)
  | PosInf.

Definition Qlt_bool (x y : Q) : bool := negb (Qle_bool y x).

(** [x > 0] on an array entry. *)
Definition xfloat_pos (x : xfloat) : bool :=
  match x with
  | Finite q => Qlt_bool 0 q
  | PosInf => true
  end.

Definition int64_wrap (z : Z) : Z := (z + 2 ^ 63) `mod` 2 ^ 64 - 2 ^ 63.

Definition int64_sub (a b : Z) : Z := int64_wrap (a - b).
Definition int64_abs (a : Z) : Z := int64_wrap (Z.abs a).

(** ** Two-dimensional arrays *)

Abbreviation matrix A := (list (list A)).

Definition mat_full {A} (n : nat) (x : A) : matrix A :=
  replicate n (replicate n x).

Definition mat_get {A} (M : matrix A) (i j : nat) : option A :=
  M !! i ≫= λ row, row !! j.

(** [M[i, j] = x] *)
Definition mat_set {A} (M : matrix A) (i j : nat) (x : A) : matrix A :=
  alter (λ row, <[j:=x]> row) i M.

(** ** phylogeny.py: the constrained distance graph *)

Definition TEMPORAL_THRESHOLD : Z := 30 * 24 * 60 * 60.
Definition SIMILARITY_THRESHOLD : Q := 85 # 100.

Section constrained_graph.
(** [similarity[i, j]], read at indices below [len(timestamps)]. *)
Variable similarity : nat → nat → Q.
Variable timestamps : list Z.

Definition time_diff (i j : nat) : Z :=
  int64_abs (int64_sub (timestamps !!! i) (timestamps !!! j)).

Definition temporally_close (i j : nat) : bool :=
  time_diff i j <? TEMPORAL_THRESHOLD.

Definition highly_similar (i j : nat) : bool :=
  Qlt_bool SIMILARITY_THRESHOLD (similarity i j).

Definition edge_weight (i j : nat) : Q :=
  ((1 - similarity i j)
   + (inject_Z (time_diff i j) / inject_Z TEMPORAL_THRESHOLD) * (1 # 100))%Q.

(** Body of the inner loop. *)
Definition graph_inner (i : nat) (distances : matrix xfloat) (j : nat)
    : matrix xfloat :=
  if temporally_close i j || highly_similar i j then
    let dist := Finite (edge_weight i j) in
    mat_set (mat_set distances i j dist) j i dist
  else distances.

(** Body of the outer loop: [for j in range(i + 1, n)]. *)
Definition graph_outer (n : nat) (distances : matrix xfloat) (i : nat)
    : matrix xfloat :=
  foldl (graph_inner i) distances (seq (S i) (n - S i)).

Definition build_constrained_graph : matrix xfloat :=
  let n := length timestamps in
  foldl (graph_outer n) (mat_full n PosInf) (seq 0 n).

(** The entry written for the pair [i < j], if any. *)
Definition pair_entry (i j : nat) : xfloat :=
  if temporally_close i j || highly_similar i j then Finite (edge_weight i j)
  else PosInf.

(** Pairs already handled when the outer loop is at row [i] and the inner
    loop has run [m] times. *)
Definition handled (i m a b : nat) : Prop :=
  a ≠ b ∧ ((a `min` b < i)%nat
           ∨ (a `min` b = i ∧ a `max` b < S i + m)%nat).

(** Loop invariant of the graph construction. *)
Definition graph_inv (i m : nat) (distances : matrix xfloat) : Prop :=
  ∀ a b, (a < length timestamps)%nat → (b < length timestamps)%nat →
    mat_get distances a b
    = Some (if decide (handled i m a b)
            then pair_entry (a `min` b) (a `max` b)
            else PosInf).
End constrained_graph.

(** ** phylogeny.py: the similarity matrix *)

(** The product of two rows of an array; a numpy array has rows of one
    length. *)
Definition dot (u v : list Q) : Q := foldl Qplus 0%Q (zip_with Qmult u v).

(** [compute_similarity_matrix]: [embeddings @ embeddings.T] *)
Definition compute_similarity_matrix (embeddings : matrix Q) : matrix Q :=
  (λ u : list Q, dot u <$> embeddings) <$> embeddings.

(** ** Records of the JSON documents *)

(** One corpus element; [item_preview] is [item.get("preview")] with the
    empty string standing for a missing key. *)
Record item : Type := {
  item_id : string;
  item_content : string;
  item_preview : string;
  item_timestamp : Z;
  item_cluster : Z
}.

Record cluster : Type := {
  cluster_id : Z;
  cluster_label : string;
  cluster_centroid : Q * Q;
  cluster_size : nat
}.

Record species : Type := {
  species_id : string;
  species_cluster_id : Z;
  species_name : string;
  species_date_range : string;
  species_min_timestamp : Z;
  species_max_timestamp : Z;
  species_centroid : Q * Q;
  species_count : nat;
  species_item_ids : list string
}.

Record node : Type := {
  node_id : string;
  node_parent : option string;
  node_timestamp : Z;
  node_date : string;
  node_cluster : Z
}.

Record phylogeny : Type := {
  phylogeny_nodes : list node;
  phylogeny_root_id : string;
  phylogeny_root_date : string;
  phylogeny_date_min : string;
  phylogeny_date_max : string
}.

(** ** Python built-ins *)

(** [min(l)] and [max(l)]: [ValueError] on an empty sequence. *)
Definition py_min (l : list Z) : result Z :=
  match l with
  | [] => Raise ValueError
  | x :: l' => Ok (foldl Z.min x l')
  end.

Definition py_max (l : list Z) : result Z :=
  match l with
  | [] => Raise ValueError
  | x :: l' => Ok (foldl Z.max x l')
  end.

(** [str(z)] for an [int]. *)
Definition py_str_int (z : Z) : string :=
  NilZero.string_of_int (Z.to_int z).

(** Stable sort by an integer key: the result of [list.sort(key=...)]. *)
Fixpoint insert_by {A} (key : A → Z) (x : A) (l : list A) : list A :=
  match l with
  | [] => [x]
  | y :: l' =>
      if key x <=? key y then x :: y :: l' else y :: insert_by key x l'
  end.

Fixpoint sort_by {A} (key : A → Z) (l : list A) : list A :=
  match l with
  | [] => []
  | x :: l' => insert_by key x (sort_by key l')
  end.

(** [np.argmin]: the first index holding the minimum. *)
Fixpoint argmin_from (best : nat) (best_val : Z) (i : nat) (l : list Z) : nat :=
  match l with
  | [] => best
  | x :: l' =>
      if x <? best_val then argmin_from i x (S i) l'
      else argmin_from best best_val (S i) l'
  end.

Definition argmin (l : list Z) : result nat :=
  match l with
  | [] => Raise ValueError
  | x :: l' => Ok (argmin_from 0%nat x 1%nat l')
  end.

(** ** phylogeny.py: species *)

(** [cluster_items[k].append(it)] on a [defaultdict(list)]; the association
    list keeps the insertion order of the keys, as the dict does. *)
Fixpoint group_append (k : Z) (it : item) (groups : list (Z * list item))
    : list (Z * list item) :=
  match groups with
  | [] => [(k, [it])]
  | (k', its) :: rest =>
      if decide (k = k') then (k', its ++ [it]) :: rest
      else (k', its) :: group_append k it rest
  end.

Definition group_step (groups : list (Z * list item)) (it : item)
    : list (Z * list item) :=
  if 0 <=? item_cluster it then group_append (item_cluster it) it groups
  else groups.

Definition cluster_items_of (items : list item) : list (Z * list item) :=
  foldl group_step [] items.

(** [{c["id"]: c for c in clusters}] *)
Definition cluster_map_of (clusters : list cluster) : gmap Z cluster :=
  foldl (λ m c, <[cluster_id c := c]> m) ∅ clusters.

Section species.
(** [datetime.fromtimestamp(ts).strftime(fmt)]; [fromtimestamp] raises for
    a timestamp outside the years that [datetime] holds. *)
Variable strftime : string → Z → result string.

(** The month range of a species, from the two formatted months. *)
Definition species_dates (min_date max_date : string) : string :=
  if decide (min_date = max_date) then min_date
  else min_date +:+ " → " +:+ max_date.

(** The dict appended to [species] for one cluster. *)
Definition species_record (c : cluster) (cid : Z)
    (items_in_cluster : list item) (min_ts max_ts : Z)
    (date_range : string) : species :=
  {| species_id := "species_" +:+ py_str_int cid;
     species_cluster_id := cid;
     species_name := cluster_label c;
     species_date_range := date_range;
     species_min_timestamp := min_ts;
     species_max_timestamp := max_ts;
     species_centroid := cluster_centroid c;
     species_count := length items_in_cluster;
     species_item_ids := item_id <$> items_in_cluster |}.

(** One group of [cluster_items] and the species built from it. *)
Definition species_for (cluster_map : gmap Z cluster)
    (entry : Z * list item) (s : species) : Prop :=
  ∃ c min_ts max_ts min_date max_date,
    cluster_map !! entry.1 = Some c
    ∧ py_min (item_timestamp <$> entry.2) = Ok min_ts
    ∧ py_max (item_timestamp <$> entry.2) = Ok max_ts
    ∧ strftime "%Y-%m" min_ts = Ok min_date
    ∧ strftime "%Y-%m" max_ts = Ok max_date
    ∧ s = species_record c entry.1 entry.2 min_ts max_ts
            (species_dates min_date max_date).

(** Body of [for cluster_id, items_in_cluster in cluster_items.items()]. *)
Definition species_step (cluster_map : gmap Z cluster)
    (acc : result (list species)) (entry : Z * list item)
    : result (list species) :=
  sp ←r acc;
  match cluster_map !! entry.1 with
  | None => Ok sp
  | Some c =>
      let timestamps := item_timestamp <$> entry.2 in
      min_ts ←r py_min timestamps;
      max_ts ←r py_max timestamps;
      min_date ←r strftime "%Y-%m" min_ts;
      max_date ←r strftime "%Y-%m" max_ts;
      Ok (sp ++ [species_record c entry.1 entry.2 min_ts max_ts
                   (species_dates min_date max_date)])
  end.

Definition generate_species (items : list item) (clusters : list cluster)
    : result (list species) :=
  let cluster_items := cluster_items_of items in
  let cluster_map := cluster_map_of clusters in
  sp ←r foldl (species_step cluster_map) (Ok []) cluster_items;
  Ok (sort_by species_min_timestamp sp).
End species.

(** ** phylogeny.py: the tree *)

(** [distances_fallback[distances_fallback == np.inf] = 1000] *)
Definition fallback_entry (x : xfloat) : Q :=
  match x with
  | Finite q => q
  | PosInf => 1000
  end.

Definition distances_fallback (distances : matrix xfloat) : matrix Q :=
  (λ row : list xfloat, fallback_entry <$> row) <$> distances.

(** State of the traversal: the lists [visited], [parent] and [queue]. *)
Record bfs_state : Type := {
  visited : list bool;
  parent : list Z;
  queue : list nat
}.

(** The traversal over the entries of an array that covers the [n] items,
    so that no read of [mst_symmetric[node, neighbor]] fails; the reads of a
    smaller array are in [traversal_array] below. *)
Section traversal.
(** [mst_symmetric[node, neighbor]] *)
Variable mst_symmetric : nat → nat → Q.
Variable n : nat.

(** Body of [for neighbor in range(n)]. *)
Definition visit_neighbor (node : nat) (st : bfs_state) (neighbor : nat)
    : bfs_state :=
  if Qlt_bool 0 (mst_symmetric node neighbor)
     && negb (visited st !!! neighbor)
  then {| visited := <[neighbor:=true]> (visited st);
          parent := <[neighbor:=Z.of_nat node]> (parent st);
          queue := queue st ++ [neighbor] |}
  else st.

(** Body of [while queue]: [node = queue.pop(0)], then the neighbour loop. *)
Definition bfs_step (node : nat) (rest : list nat) (st : bfs_state)
    : bfs_state :=
  foldl (visit_neighbor node)
    {| visited := visited st; parent := parent st; queue := rest |}
    (seq 0 n).

Fixpoint bfs_loop (fuel : nat) (st : bfs_state) : result bfs_state :=
  match queue st with
  | [] => Ok st
  | node :: rest =>
      match fuel with
      | O => OutOfFuel
      | S fuel' => bfs_loop fuel' (bfs_step node rest st)
      end
  end.

(** [for i in range(n): if not visited[i]: parent[i] = root_idx] *)
Definition attach_unvisited (root_idx : nat) (vis : list bool)
    (par : list Z) (i : nat) : list Z :=
  if negb (vis !!! i) then <[i:=Z.of_nat root_idx]> par else par.

Definition bfs_init (root_idx : nat) : bfs_state :=
  {| visited := <[root_idx:=true]> (replicate n false);
     parent := replicate n (-1);
     queue := [root_idx] |}.

(** Invariant of the traversal. An edge of the growing tree leads from a
    visited index to its parent, which is visited and joined to it by a
    positive entry of [mst_symmetric]. *)
Definition tree_edge (vis : list bool) (par : list Z) (i j : nat) : Prop :=
  vis !! i = Some true ∧ par !! i = Some (Z.of_nat j)
  ∧ vis !! j = Some true ∧ (0 < mst_symmetric j i)%Q.

Definition count_visited (vis : list bool) : nat :=
  length (filter (λ b, b = true) vis).

(** What is left to do: the queued indices and the unvisited ones. *)
Definition bfs_measure (st : bfs_state) : nat :=
  length (queue st) + length (filter (λ b, b = false) (visited st)).

Definition bfs_inv (root_idx : nat) (st : bfs_state) : Prop :=
  length (visited st) = n ∧ length (parent st) = n
  ∧ visited st !! root_idx = Some true
  ∧ parent st !! root_idx = Some (-1)
  ∧ Forall (λ q, visited st !! q = Some true) (queue st)
  ∧ ∀ i, visited st !! i = Some true →
      ∃ k, nsteps (tree_edge (visited st) (parent st)) k i root_idx
           ∧ (k < count_visited (visited st))%nat.

(** Second invariant of the traversal: the positive neighbours of a visited
    index that has left the queue are visited. *)
Definition bfs_closed (st : bfs_state) : Prop :=
  ∀ a b, visited st !! a = Some true → a ∉ queue st → (b < n)%nat →
         (0 < mst_symmetric a b)%Q → visited st !! b = Some true.

(** The lists [visited] and [parent] after both loops. *)
Definition tree_parents (root_idx : nat) : result (list bool * list Z) :=
  st ←r bfs_loop n (bfs_init root_idx);
  Ok (visited st,
      foldl (attach_unvisited root_idx (visited st)) (parent st) (seq 0 n)).
End traversal.

(** A square array of floats, as [minimum_spanning_tree(...).toarray()]
    returns one for a graph of [sq_dim] nodes. *)
Record square_array : Type := {
  sq_dim : nat;
  sq_entry : nat → nat → Q
}.

(** [a[i, j]]: [IndexError] for an index beyond the dimension. *)
Definition sq_get (a : square_array) (i j : nat) : result Q :=
  if decide (i < sq_dim a ∧ j < sq_dim a)%nat then Ok (sq_entry a i j)
  else Raise IndexError.

(** [a + a.T] *)
Definition sq_add_transpose (a : square_array) : square_array :=
  {| sq_dim := sq_dim a;
     sq_entry := λ i j, (sq_entry a i j + sq_entry a j i)%Q |}.

Section traversal_array.
(** The array [mst_symmetric] and [n = len(items)]. *)
Variable mst_symmetric : square_array.
Variable n : nat.

(** Body of [for neighbor in range(n)], with the read of
    [mst_symmetric[node, neighbor]]. *)
Definition visit_neighbor_read (node : nat) (acc : result bfs_state)
    (neighbor : nat) : result bfs_state :=
  st ←r acc;
  weight ←r sq_get mst_symmetric node neighbor;
  Ok (if Qlt_bool 0 weight && negb (visited st !!! neighbor)
      then {| visited := <[neighbor:=true]> (visited st);
              parent := <[neighbor:=Z.of_nat node]> (parent st);
              queue := queue st ++ [neighbor] |}
      else st).

(** Body of [while queue]. *)
Definition bfs_step_read (node : nat) (rest : list nat) (st : bfs_state)
    : result bfs_state :=
  foldl (visit_neighbor_read node)
    (Ok {| visited := visited st; parent := parent st; queue := rest |})
    (seq 0 n).

Fixpoint bfs_loop_read (fuel : nat) (st : bfs_state) : result bfs_state :=
  match queue st with
  | [] => Ok st
  | node :: rest =>
      match fuel with
      | O => OutOfFuel
      | S fuel' =>
          st' ←r bfs_step_read node rest st;
          bfs_loop_read fuel' st'
      end
  end.

(** The lists [visited] and [parent] after both loops. *)
Definition tree_parents_read (root_idx : nat)
    : result (list bool * list Z) :=
  st ←r bfs_loop_read n (bfs_init n root_idx);
  Ok (visited st,
      foldl (attach_unvisited root_idx (visited st)) (parent st) (seq 0 n)).
End traversal_array.

Section phylogeny_tree.
(** [minimum_spanning_tree(m).toarray()] of scipy, which can raise. *)
Variable minimum_spanning_tree : matrix Q → result square_array.
(** [datetime.fromtimestamp(ts).strftime(fmt)]; [fromtimestamp] raises for
    a timestamp outside the years that [datetime] holds. *)
Variable strftime : string → Z → result string.

(** [items[parent[i]]["id"] if parent[i] >= 0 else None] *)
Definition parent_id (items : list item) (p : Z) : result (option string) :=
  if 0 <=? p then
    match items !! Z.to_nat p with
    | Some it => Ok (Some (item_id it))
    | None => Raise IndexError
    end
  else Ok None.

(** Body of [for i, item in enumerate(items)]. *)
Definition make_node (items : list item) (par : list Z)
    (entry : nat * item) : result node :=
  let '(i, it) := entry in
  date_str ←r strftime "%Y-%m-%d" (item_timestamp it);
  match par !! i with
  | None => Raise IndexError
  | Some p =>
      pid ←r parent_id items p;
      Ok {| node_id := item_id it;
            node_parent := pid;
            node_timestamp := item_timestamp it;
            node_date := date_str;
            node_cluster := item_cluster it |}
  end.

Definition build_phylogeny_tree (distances : matrix xfloat)
    (items : list item) : result phylogeny :=
  mst_array ←r minimum_spanning_tree (distances_fallback distances);
  let timestamps := item_timestamp <$> items in
  root_idx ←r argmin timestamps;
  root_ts ←r py_min timestamps;
  root_date ←r strftime "%Y-%m-%d" root_ts;
  let n := length items in
  let mst_symmetric := sq_add_transpose mst_array in
  vp ←r tree_parents_read mst_symmetric n root_idx;
  nodes ←r result_mapM (make_node items vp.2) (imap pair items);
  match items !! root_idx with
  | None => Raise IndexError
  | Some root =>
      min_ts ←r py_min timestamps;
      min_date ←r strftime "%Y-%m-%d" min_ts;
      max_ts ←r py_max timestamps;
      max_date ←r strftime "%Y-%m-%d" max_ts;
      Ok {| phylogeny_nodes := nodes;
            phylogeny_root_id := item_id root;
            phylogeny_root_date := root_date;
            phylogeny_date_min := min_date;
            phylogeny_date_max := max_date |}
  end.
End phylogeny_tree.

(** ** Output file names *)

(** [mode or default]: [None] and the empty string are falsy. *)
Definition py_or (mode : option string) (default : string) : string :=
  match mode with
  | Some (String c s) => String c s
  | _ => default
  end.

(** [data.get("mode", "image")] *)
Definition data_mode (stored : option string) : string :=
  match stored with
  | Some m => m
  | None => "image"
  end.

(** cluster.py [main]: the name of the clustered intermediate file. *)
Definition cluster_output_name (mode : option string)
    (stored : option string) : string :=
  let mode := py_or mode (data_mode stored) in
  let suffix := if decide (mode = "text") then "_text" else EmptyString in
  "embeddings_clustered" +:+ suffix +:+ ".json".

(** phylogeny.py [main]: the name of the final output file. *)
Definition phylogeny_output_name (stored : option string) : string :=
  let mode := data_mode stored in
  "embeddings_" +:+ mode +:+ ".json".

(** The naming convention in the words of the specification: a base name
    that is left unsuffixed in image mode and carries [_text] in text mode. *)
Definition convention_name (base mode : string) : string :=
  base +:+ (if decide (mode = "text") then "_text" else EmptyString)
       +:+ ".json".

(** ** Python [str] methods *)

Definition chars (s : string) : list ascii := list_ascii_of_string s.
Definition join (l : list ascii) : string := string_of_list_ascii l.

(** A [str] of ASCII characters. The methods below are those of Python on
    such strings; on other characters [lower], [isalpha], [title], [split]
    and [len] of Python follow Unicode. *)
Definition ascii_text (s : string) : Prop :=
  Forall (λ c, (nat_of_ascii c < 128)%nat) (chars s).

Definition is_lower_az (c : ascii) : bool :=
  ((97 <=? nat_of_ascii c) && (nat_of_ascii c <=? 122))%nat.

Definition is_upper_az (c : ascii) : bool :=
  ((65 <=? nat_of_ascii c) && (nat_of_ascii c <=? 90))%nat.

Definition is_alpha (c : ascii) : bool := is_lower_az c || is_upper_az c.

Definition is_space (c : ascii) : bool :=
  let k := nat_of_ascii c in
  (((9 <=? k) && (k <=? 13)) || ((28 <=? k) && (k <=? 32)))%nat.

Definition lower_char (c : ascii) : ascii :=
  if is_upper_az c then ascii_of_nat (nat_of_ascii c + 32) else c.

Definition upper_char (c : ascii) : ascii :=
  if is_lower_az c then ascii_of_nat (nat_of_ascii c - 32) else c.

(** [s.lower()] *)
Definition py_lower (s : string) : string := join (lower_char <$> chars s).

(** [s.title()]: a letter is upper-cased unless the character before it is a
    letter, in which case it is lower-cased. *)
Fixpoint title_chars (previous_is_cased : bool) (l : list ascii) : list ascii :=
  match l with
  | [] => []
  | c :: l' =>
      (if previous_is_cased then lower_char c else upper_char c)
      :: title_chars (is_alpha c) l'
  end.

Definition py_title (s : string) : string := join (title_chars false (chars s)).

(** [s.isalpha()] *)
Definition py_isalpha (s : string) : bool :=
  match chars s with
  | [] => false
  | l => forallb is_alpha l
  end.

(** [len(s)] *)
Definition py_len (s : string) : nat := length (chars s).

(** One step of cutting a string into maximal runs of characters that
    satisfy [keep]: the pair is (finished runs, current run). *)
Definition run_step (keep : ascii → bool)
    (st : list string * list ascii) (ch : ascii) : list string * list ascii :=
  let '(tok, cur) := st in
  if keep ch then (tok, cur ++ [ch])
  else
    match cur with
    | [] => (tok, [])
    | _ => (tok ++ [join cur], [])
    end.

Definition runs (keep : ascii → bool) (s : string) : list string :=
  let '(tok, cur) := foldl (run_step keep) ([], []) (chars s) in
  match cur with
  | [] => tok
  | _ => tok ++ [join cur]
  end.

(** [s.split()] *)
Definition py_split (s : string) : list string :=
  runs (λ c, negb (is_space c)) s.

Fixpoint lstrip_chars (set : list ascii) (l : list ascii) : list ascii :=
  match l with
  | [] => []
  | c :: l' => if bool_decide (c ∈ set) then lstrip_chars set l' else c :: l'
  end.

(** [s.strip(set)] *)
Definition py_strip (set : string) (s : string) : string :=
  join (reverse (lstrip_chars (chars set)
                   (reverse (lstrip_chars (chars set) (chars s))))).

(** [collections.Counter]: keys in insertion order. *)
Fixpoint counter_incr (k : string) (c : list (string * nat))
    : list (string * nat) :=
  match c with
  | [] => [(k, 1%nat)]
  | (k', v) :: rest =>
      if decide (k = k') then (k', S v) :: rest
      else (k', v) :: counter_incr k rest
  end.

Definition counter_update (c : list (string * nat)) (words : list string)
    : list (string * nat) :=
  foldl (λ c w, counter_incr w c) c words.

(** [c.most_common(k)]: highest counts first, ties in insertion order. *)
Definition most_common (k : nat) (c : list (string * nat))
    : list (string * nat) :=
  take k (sort_by (λ kv : string * nat, - Z.of_nat kv.2) c).

(** ** cluster.py: labels *)

Definition IMAGE_LABELS : list string :=
  [ "landscape painting"; "portrait"; "architecture"; "vehicle"; "car";
    "military"; "nature photography"; "abstract art"; "digital art";
    "vintage photograph"; "movie still"; "product photo"; "fashion";
    "interior design"; "furniture"; "technology"; "diagram"; "map";
    "meme"; "screenshot"; "UI design"; "illustration"; "sculpture";
    "historical photo"; "aerial view"; "food"; "animal"; "person";
    "building"; "artwork"; "document"; "book cover"; "poster";
    "romantic painting"; "impressionist art"; "classical art" ].

Definition image_stop : list string :=
  [ "image"; "images"; "img"; "jpeg"; "jpg"; "png"; "webp"; "gif";
    "final"; "copy"; "screen"; "screenshot"; "photo"; "pics"; "picture";
    "download"; "downloads"; "edited"; "edit"; "export"; "output" ].

(** Tokens of one path that are counted. *)
Definition path_tokens (p : string) : list string :=
  filter (λ t, ¬ (py_len t < 4)%nat ∧ (t ∉ image_stop))
    (runs is_lower_az (py_lower p)).

Definition _fallback_image_label (image_paths : list string) : string :=
  let counts :=
    foldl (λ c p, counter_update c (path_tokens p)) [] (take 40 image_paths) in
  match most_common 1 counts with
  | [] => "Images"
  | (t, _) :: _ => py_title t
  end.

Section image_label.
(** Opened images, the CLIP model and its processor. *)
Variables image clip_model clip_processor : Type.
(** [Image.open(path).convert("RGB")] with the lazy import of PIL; [None]
    when any exception is raised. *)
Variable open_image : string → option image.
(** Whether [import torch] succeeds. *)
Variable torch_available : bool.
(** The scoring of the sample against [IMAGE_LABELS] and
    [label_scores.topk(top_k).indices]. *)
Variable zero_shot_topk :
  clip_model → clip_processor → list image → nat → result (list nat).

Definition get_image_semantic_label (model : option clip_model)
    (processor : option clip_processor) (image_paths : list string)
    (top_k : nat) : result string :=
  let sample_paths := take 5 image_paths in
  let images := omap open_image sample_paths in
  match images with
  | [] => Ok (_fallback_image_label image_paths)
  | _ =>
      if negb torch_available then Ok (_fallback_image_label image_paths)
      else
        match processor with
        | None => Raise TypeError
        | Some proc =>
            match model with
            | None => Raise AttributeError
            | Some mdl =>
                top_indices ←r zero_shot_topk mdl proc images top_k;
                labels ←r result_mapM
                  (λ i, match IMAGE_LABELS !! i with
                        | Some l => Ok (py_title l)
                        | None => Raise IndexError
                        end) top_indices;
                match labels with
                | l :: _ => Ok l
                | [] => Ok (_fallback_image_label image_paths)
                end
            end
        end
  end.
End image_label.

Definition text_stopwords : list string :=
  [ "the"; "a"; "an"; "and"; "or"; "but"; "in"; "on"; "at"; "to"; "for";
    "of"; "with"; "by"; "from"; "is"; "are"; "was"; "were"; "be"; "been";
    "being"; "have"; "has"; "had"; "do"; "does"; "did"; "will"; "would";
    "could"; "should"; "may"; "might"; "must"; "shall"; "can"; "this";
    "that"; "these"; "those"; "i"; "you"; "he"; "she"; "it"; "we"; "they";
    "what"; "which"; "who"; "when"; "where"; "why"; "how"; "all"; "each";
    "every"; "both"; "few"; "more"; "most"; "other"; "some"; "such"; "no";
    "not"; "only"; "same"; "so"; "than"; "too"; "very"; "just"; "also";
    "now"; "here"; "there"; "then"; "if"; "as"; "because"; "until"; "while";
    "about"; "into"; "through"; "during"; "before"; "after"; "above";
    "below" ].

(** The characters of [strip]'s argument; character 34 is the double quote. *)
Definition text_punctuation : string :=
  ".,!?()[]{}" +:+ String (ascii_of_nat 34) ":;-_#*".

(** The words of one text that are counted. *)
Definition text_words (text : string) : list string :=
  filter (λ w, (3 < py_len w)%nat ∧ (w ∉ text_stopwords) ∧ py_isalpha w)
    (py_strip text_punctuation <$> py_split (py_lower text)).

Section text_label.
(** [Path(p).read_text(encoding="utf-8", errors="ignore")]; [None] when an
    exception is raised. *)
Variable read_text : string → option string.

(** The text sampled from one item, if any. *)
Definition item_text (it : item) : option string :=
  match item_preview it with
  | String c s => Some (String c s)
  | EmptyString =>
      match read_text (item_content it) with
      | Some t => Some (join (take 500 (chars t)))
      | None => None
      end
  end.

Definition text_count_step (word_counts : list (string * nat)) (it : item)
    : list (string * nat) :=
  match item_text it with
  | None => word_counts
  | Some text => counter_update word_counts (text_words text)
  end.

Definition get_text_cluster_label (items : list item) : string :=
  let word_counts := foldl text_count_step [] (take 10 items) in
  let top_words := fst <$> most_common 3 word_counts in
  match top_words with
  | w :: _ => py_title w
  | [] => "misc"
  end.
End text_label.

(** ** cluster.py: clustering *)

(** Insertion into an ascending list without repetition. *)
Fixpoint insert_unique (x : Z) (l : list Z) : list Z :=
  match l with
  | [] => [x]
  | y :: l' =>
      if x <? y then x :: y :: l'
      else if x =? y then y :: l'
      else y :: insert_unique x l'
  end.

(** [sorted(set(labels) - {-1})] *)
Definition sorted_unique_labels (labels : list Z) : list Z :=
  foldr insert_unique [] (filter (λ l, l ≠ -1) labels).

(** [a[mask]] for a boolean mask. *)
Definition select_mask {A} (mask : list bool) (a : list A) : list A :=
  snd <$> filter (λ p : bool * A, p.1 = true) (zip mask a).

Definition Qsum (l : list Q) : Q := foldl Qplus 0%Q l.

(** [a.mean(axis=0)] of an array with two columns. *)
Definition mean_axis0 (a : list (Q * Q)) : Q * Q :=
  let k := inject_Z (Z.of_nat (length a)) in
  ((Qsum (fst <$> a) / k)%Q, (Qsum (snd <$> a) / k)%Q).

(** [[items[i] for i in range(len(items)) if mask[i]]] *)
Definition select_items (items : list item) (mask : list bool)
    : result (list item) :=
  foldl (λ acc (entry : nat * item),
           r ←r acc;
           match mask !! entry.1 with
           | None => Raise IndexError
           | Some true => Ok (r ++ [entry.2])
           | Some false => Ok r
           end)
    (Ok []) (imap pair items).

Section clustering.
Variables image clip_model clip_processor : Type.
Variable open_image : string → option image.
Variable torch_available : bool.
Variable zero_shot_topk :
  clip_model → clip_processor → list image → nat → result (list nat).
Variable read_text : string → option string.
(** [hdbscan.HDBSCAN(...).fit_predict(coords)], which can raise; the array
    it returns holds one label for every point and is read by index. *)
Variable fit_predict : list (Q * Q) → result (nat → Z).

(** Body of [for cluster_id in sorted(unique_labels)]. *)
Definition cluster_record (coords : list (Q * Q)) (items : list item)
    (mode : string) (model : option clip_model)
    (processor : option clip_processor) (labels : list Z) (cid : Z)
    : result cluster :=
  let mask := (λ l, bool_decide (l = cid)) <$> labels in
  let centroid := mean_axis0 (select_mask mask coords) in
  cluster_items ←r select_items items mask;
  label ←r
    (if decide (mode = "image") then
       get_image_semantic_label image clip_model clip_processor open_image
         torch_available zero_shot_topk model processor
         (item_content <$> cluster_items) 1
     else Ok (get_text_cluster_label read_text cluster_items));
  Ok {| cluster_id := cid;
        cluster_label := label;
        cluster_centroid := centroid;
        cluster_size := length (filter (λ b, b = true) mask) |}.

Definition run_clustering (coords : list (Q * Q)) (items : list item)
    (mode : string) (model : option clip_model)
    (processor : option clip_processor) : result (list Z * list cluster) :=
  labels_of ←r fit_predict coords;
  let labels := labels_of <$> seq 0 (length coords) in
  clusters ←r result_mapM
    (cluster_record coords items mode model processor labels)
    (sorted_unique_labels labels);
  Ok (labels, clusters).
End clustering.

(** ** cluster.py: [main] *)

(** [item["cluster"] = label] *)
Definition set_cluster (it : item) (label : Z) : item :=
  {| item_id := item_id it;
     item_content := item_content it;
     item_preview := item_preview it;
     item_timestamp := item_timestamp it;
     item_cluster := label |}.

(** The loop [for i, item in enumerate(items)] of [main], which stores
    [int(labels[i])] under the key [cluster]; [coords] and [labels] have one
    row per point, and an index beyond them raises [IndexError]. The key
    [umap], set by the same loop, is no field of [item]. *)
Definition assign_clusters (items : list item) (labels : list Z)
    : result (list item) :=
  result_mapM
    (λ entry : nat * item,
       match labels !! entry.1 with
       | Some label => Ok (set_cluster entry.2 label)
       | None => Raise IndexError
       end)
    (imap pair items).

Section cluster_main.
Variables image clip_model clip_processor : Type.
Variable open_image : string → option image.
Variable torch_available : bool.
Variable zero_shot_topk :
  clip_model → clip_processor → list image → nat → result (list nat).
Variable read_text : string → option string.
Variable fit_predict : list (Q * Q) → result (nat → Z).

(** [main] from the call of [run_clustering] to the [items] and [clusters]
    of the output document; [coords] is the result of [run_umap]. *)
Definition cluster_main_items (coords : list (Q * Q)) (items : list item)
    (mode : string) (model : option clip_model)
    (processor : option clip_processor)
    : result (list item * list cluster) :=
  lc ←r run_clustering image clip_model clip_processor open_image
          torch_available zero_shot_topk read_text fit_predict coords items
          mode model processor;
  items' ←r assign_clusters items lc.1;
  Ok (items', lc.2).
End cluster_main.

(** ** The files of the data directory *)

(** embed.py [main]: the name of the file of raw embeddings. *)
Definition embed_output_name (mode : string) : string :=
  "embeddings_raw_" +:+ mode +:+ ".json".

Section data_dir.
(** The parsed documents; the directory maps the names of the files that
    exist to their documents. *)
Context {document : Type}.

(** cluster.py [load_embeddings]: the mode-specific file when [mode] is
    given and the file exists, the generic file otherwise; [None] stands for
    the [FileNotFoundError] of [open]. *)
Definition load_embeddings (data_dir : gmap string document)
    (mode : option string) : option document :=
  match mode with
  | Some (String c s) =>
      match data_dir !! ("embeddings_raw_" +:+ String c s +:+ ".json") with
      | Some d => Some d
      | None => data_dir !! "embeddings_raw.json"
      end
  | _ => data_dir !! "embeddings_raw.json"
  end.

(** phylogeny.py [load_clustered_data] *)
Definition load_clustered_data (data_dir : gmap string document)
    (mode : option string) : option document :=
  match mode with
  | Some (String c s) =>
      match data_dir !! ("embeddings_clustered_" +:+ String c s +:+ ".json")
      with
      | Some d => Some d
      | None => data_dir !! "embeddings_clustered.json"
      end
  | _ => data_dir !! "embeddings_clustered.json"
  end.
End data_dir.

(** * Verification *)

(** * Properties *)

(** ** Numbers *)

Lemma Qlt_bool_iff x y : Qlt_bool x y = true ↔ (x < y)%Q.
Proof.
  unfold Qlt_bool. rewrite negb_true_iff. split.
  - intros H. apply Qnot_le_lt. intros Hle.
    apply Qle_bool_iff in Hle. congruence.
  - intros H. destruct (Qle_bool y x) eqn:E; [|done].
    apply Qle_bool_iff in E. exfalso. by apply (Qlt_not_le x y).
Qed.

Lemma int64_wrap_id z : - 2 ^ 63 ≤ z < 2 ^ 63 → int64_wrap z = z.
Proof. intros H. unfold int64_wrap. rewrite Z.mod_small; lia. Qed.

Lemma int64_abs_sub a b :
  0 ≤ a < 2 ^ 63 → 0 ≤ b < 2 ^ 63 → int64_abs (int64_sub a b) = Z.abs (a - b).
Proof.
  intros Ha Hb. unfold int64_abs, int64_sub.
  rewrite (int64_wrap_id (a - b)) by lia.
  apply int64_wrap_id. lia.
Qed.

(** ** Two-dimensional arrays *)

Lemma mat_get_full {A} n (x : A) (a b : nat) :
  (a < n)%nat → (b < n)%nat → mat_get (mat_full n x) a b = Some x.
Proof.
  intros Ha Hb. unfold mat_get, mat_full.
  rewrite lookup_replicate_2 by done. simpl.
  by rewrite lookup_replicate_2.
Qed.

Lemma mat_get_set {A} (M : matrix A) i j x a b y :
  mat_get M a b = Some y →
  mat_get (mat_set M i j x) a b
  = Some (if decide (a = i ∧ b = j) then x else y).
Proof.
  unfold mat_get, mat_set. intros H.
  destruct (M !! a) as [row|] eqn:Ha; [|done]. simpl in H.
  destruct (decide (a = i)) as [->|Hne].
  - rewrite list_lookup_alter_eq, Ha. simpl.
    destruct (decide (b = j)) as [->|Hb].
    + rewrite list_lookup_insert_eq by (by eapply lookup_lt_Some).
      by rewrite decide_True.
    + rewrite list_lookup_insert_ne by done.
      rewrite H. by rewrite decide_False by tauto.
  - rewrite list_lookup_alter_ne by done. rewrite Ha. simpl.
    rewrite H. by rewrite decide_False by tauto.
Qed.

(** ** The constrained distance graph *)

Section graph_facts.
Variable similarity : nat → nat → Q.
Variable timestamps : list Z.

Lemma graph_inner_inv i m D :
  (S i + m < (length timestamps))%nat →
  graph_inv similarity timestamps i m D →
  graph_inv similarity timestamps i (S m) (graph_inner similarity timestamps i D (S i + m)).
Proof.
  intros Hm HD a b Ha Hb. specialize (HD a b Ha Hb).
  unfold graph_inner.
  assert (Hpe : pair_entry similarity timestamps i (S i + m)
    = if temporally_close timestamps i (S i + m)
         || highly_similar similarity i (S i + m)
      then Finite (edge_weight similarity timestamps i (S i + m))
      else PosInf) by done.
  destruct (temporally_close timestamps i (S i + m)
            || highly_similar similarity i (S i + m)).
  - erewrite mat_get_set; [|erewrite mat_get_set; [done|exact HD]].
    f_equal. unfold handled.
    repeat case_decide; try done; try (exfalso; lia).
    all: destruct_and!; subst; rewrite <- Hpe; f_equal; lia.
  - rewrite HD. f_equal. unfold handled.
    repeat case_decide; try done; try (exfalso; lia).
    assert (a `min` b = i ∧ a `max` b = S i + m)%nat as [-> ->] by lia.
    by rewrite Hpe.
Qed.

Lemma graph_outer_inv i D :
  (i < (length timestamps))%nat →
  graph_inv similarity timestamps i 0 D →
  graph_inv similarity timestamps (S i) 0 (graph_outer similarity timestamps (length timestamps) D i).
Proof.
  intros Hi HD. unfold graph_outer.
  assert (Hgen : ∀ m, (S i + m ≤ (length timestamps))%nat →
    graph_inv similarity timestamps i m
      (foldl (graph_inner similarity timestamps i) D (seq (S i) m))).
  { induction m as [|m IH]; intros Hm; [done|].
    rewrite seq_S, foldl_app. simpl.
    apply graph_inner_inv; [lia|]. apply IH. lia. }
  specialize (Hgen ((length timestamps) - S i)%nat ltac:(lia)).
  intros a b Ha Hb. rewrite (Hgen a b Ha Hb). f_equal.
  unfold handled. repeat case_decide; try done; exfalso; lia.
Qed.

Lemma build_constrained_graph_inv :
  graph_inv similarity timestamps (length timestamps) 0 (build_constrained_graph similarity timestamps).
Proof.
  unfold build_constrained_graph.
  assert (Hgen : ∀ k, (k ≤ (length timestamps))%nat →
    graph_inv similarity timestamps k 0
      (foldl (graph_outer similarity timestamps (length timestamps)) (mat_full (length timestamps) PosInf)
         (seq 0 k))).
  { induction k as [|k IH]; intros Hk.
    - intros a b Ha Hb. simpl. rewrite mat_get_full by done.
      f_equal. unfold handled. case_decide; [exfalso; lia|done].
    - rewrite seq_S, foldl_app. simpl.
      apply graph_outer_inv; [lia|]. apply IH. lia. }
  by apply Hgen.
Qed.

(** Every entry of the graph, read through the pair of its indices. *)
Lemma build_constrained_graph_entry a b :
  (a < (length timestamps))%nat → (b < (length timestamps))%nat →
  mat_get (build_constrained_graph similarity timestamps) a b
  = Some (if decide (a = b) then PosInf
          else pair_entry similarity timestamps (a `min` b) (a `max` b)).
Proof.
  intros Ha Hb. rewrite (build_constrained_graph_inv a b Ha Hb).
  f_equal. repeat case_decide; try done.
  - unfold handled in *. lia.
  - exfalso. unfold handled in *. lia.
Qed.
End graph_facts.

(** Reading of a claim-level statement: the pair holds an edge. *)

Lemma time_diff_abs (timestamps : list Z) i j :
  Forall (λ t, 0 ≤ t < 2 ^ 63) timestamps →
  (i < length timestamps)%nat → (j < length timestamps)%nat →
  time_diff timestamps i j = Z.abs (timestamps !!! i - timestamps !!! j).
Proof.
  intros Hts Hi Hj. unfold time_diff.
  rewrite Forall_lookup in Hts.
  apply int64_abs_sub.
  - apply (Hts i). by apply list_lookup_lookup_total_lt.
  - apply (Hts j). by apply list_lookup_lookup_total_lt.
Qed.

Lemma pair_entry_cases similarity timestamps i j :
  (temporally_close timestamps i j = true ∨ highly_similar similarity i j = true)
  ∧ pair_entry similarity timestamps i j
    = Finite (edge_weight similarity timestamps i j)
  ∨ (temporally_close timestamps i j = false
     ∧ highly_similar similarity i j = false)
    ∧ pair_entry similarity timestamps i j = PosInf.
Proof.
  unfold pair_entry.
  destruct (temporally_close timestamps i j), (highly_similar similarity i j);
    simpl; auto.
Qed.

(** C2. For the pair [i < j] of items with non-negative [int64] timestamps,
    [build_constrained_graph] stores the same entry at [(i, j)] and [(j, i)];
    the entry is an edge exactly when the absolute timestamp difference is
    below the 30-day threshold or the similarity exceeds 0.85, its weight is
    then (1 - similarity) + (time_diff / threshold) * 0.01, and it is
    [np.inf] otherwise. Two items 40 days apart get the weight
    0.1 + (40/30) * 0.01 at similarity 0.9 and no edge at similarity 0.5. *)
Theorem build_constrained_graph_edges
    (similarity : nat → nat → Q) (timestamps : list Z) (i j : nat) :
  Forall (λ t, 0 ≤ t < 2 ^ 63) timestamps →
  (i < j < length timestamps)%nat →
  let distances := build_constrained_graph similarity timestamps in
  let time_diff := Z.abs (timestamps !!! i - timestamps !!! j) in
  let sim := similarity i j in
  let weight :=
    ((1 - sim) + (inject_Z time_diff / inject_Z (30 * 24 * 60 * 60))
                 * (1 # 100))%Q in
  let days := λ d : Z, d * 24 * 60 * 60 in
  mat_get distances j i = mat_get distances i j
  ∧ (time_diff < days 30 ∨ (85 # 100 < sim)%Q →
     mat_get distances i j = Some (Finite weight))
  ∧ (¬ (time_diff < days 30 ∨ (85 # 100 < sim)%Q) →
     mat_get distances i j = Some PosInf)
  ∧ (time_diff = days 40 → (sim == 9 # 10)%Q →
     ∃ w, mat_get distances i j = Some (Finite w)
          ∧ (w == (1 # 10) + (40 # 30) * (1 # 100))%Q)
  ∧ (time_diff = days 40 → (sim == 5 # 10)%Q →
     mat_get distances i j = Some PosInf).
Proof.
  intros Hts Hij distances td sim weight days.
  assert (Hget : mat_get distances i j
                 = Some (pair_entry similarity timestamps i j)).
  { unfold distances. rewrite build_constrained_graph_entry by lia.
    rewrite decide_False by lia. do 2 f_equal; lia. }
  assert (Hsym : mat_get distances j i
                 = Some (pair_entry similarity timestamps i j)).
  { unfold distances. rewrite build_constrained_graph_entry by lia.
    rewrite decide_False by lia. do 2 f_equal; lia. }
  assert (Htd : time_diff timestamps i j = td).
  { apply time_diff_abs; [done|lia..]. }
  assert (Hw : edge_weight similarity timestamps i j = weight).
  { unfold edge_weight. by rewrite Htd. }
  assert (Hclose : temporally_close timestamps i j = true ↔ td < days 30).
  { unfold temporally_close, TEMPORAL_THRESHOLD, days. rewrite Htd.
    rewrite Z.ltb_lt. lia. }
  assert (Hsim : highly_similar similarity i j = true ↔ (85 # 100 < sim)%Q).
  { unfold highly_similar, SIMILARITY_THRESHOLD. apply Qlt_bool_iff. }
  assert (Hyes : td < days 30 ∨ (85 # 100 < sim)%Q →
                 mat_get distances i j = Some (Finite weight)).
  { intros Hc. rewrite Hget, <- Hw.
    destruct (pair_entry_cases similarity timestamps i j)
      as [[_ ->]|[[H1 H2] _]]; [done|].
    exfalso. destruct Hc as [Hc|Hc].
    - apply Hclose in Hc. congruence.
    - apply Hsim in Hc. congruence. }
  assert (Hno : ¬ (td < days 30 ∨ (85 # 100 < sim)%Q) →
                mat_get distances i j = Some PosInf).
  { intros Hc. rewrite Hget.
    destruct (pair_entry_cases similarity timestamps i j)
      as [[H1 _]|[_ ->]]; [|done].
    exfalso. apply Hc. destruct H1 as [H1|H1].
    - left. by apply Hclose.
    - right. by apply Hsim. }
  split_and!.
  - by rewrite Hget, Hsym.
  - done.
  - done.
  - intros H40 H09. exists weight. split.
    + apply Hyes. right. rewrite H09. reflexivity.
    + unfold weight. rewrite H40, H09. reflexivity.
  - intros H40 H05. apply Hno. intros [Hc|Hc].
    + unfold days in *. lia.
    + rewrite H05 in Hc. discriminate Hc.
Qed.

Lemma build_constrained_graph_edges_witness :
  Forall (λ t, 0 ≤ t < 2 ^ 63) [0; 40 * 24 * 60 * 60]
  ∧ (0 < 1 < length [0; 40 * 24 * 60 * 60])%nat
  ∧ mat_get (build_constrained_graph (λ _ _, 9 # 10) [0; 40 * 24 * 60 * 60])
      1 0
    = mat_get (build_constrained_graph (λ _ _, 9 # 10) [0; 40 * 24 * 60 * 60])
        0 1.
Proof.
  assert (H1 : Forall (λ t, 0 ≤ t < 2 ^ 63) [0; 40 * 24 * 60 * 60]).
  { repeat constructor; lia. }
  assert (H2 : (0 < 1 < length [0; 40 * 24 * 60 * 60])%nat).
  { simpl. lia. }
  split; [exact H1|]. split; [exact H2|].
  exact (proj1 (build_constrained_graph_edges (λ _ _, 9 # 10)
                  [0; 40 * 24 * 60 * 60] 0 1 H1 H2)).
Defined.

(** ** Results *)

Lemma rbind_Ok {A B} (m : result A) (k : A → result B) b :
  rbind m k = Ok b ↔ ∃ a, m = Ok a ∧ k a = Ok b.
Proof.
  destruct m as [a| |]; simpl; split.
  - intros H. by exists a.
  - by intros (a' & [= <-] & H).
  - done.
  - by intros (a' & ? & _).
  - done.
  - by intros (a' & ? & _).
Qed.

(** ** Sorting *)

Section sort_by_facts.
Context {A : Type} (key : A → Z).

Lemma insert_by_perm x l : insert_by key x l ≡ₚ x :: l.
Proof.
  induction l as [|y l IH]; simpl; [done|].
  case_match; [done|]. rewrite IH. apply Permutation_swap.
Qed.

Lemma sort_by_perm l : sort_by key l ≡ₚ l.
Proof.
  induction l as [|x l IH]; simpl; [done|].
  by rewrite insert_by_perm, IH.
Qed.

Lemma insert_by_sorted x l :
  StronglySorted (λ a b, key a ≤ key b) l →
  StronglySorted (λ a b, key a ≤ key b) (insert_by key x l).
Proof.
  induction l as [|y l IH]; simpl; intros Hl.
  - repeat constructor.
  - apply StronglySorted_cons in Hl as [Hy Hl].
    case_match eqn:E.
    + apply Z.leb_le in E. apply StronglySorted_cons. split.
      * constructor; [done|].
        eapply Forall_impl; [exact Hy|]. simpl. intros; lia.
      * by apply StronglySorted_cons.
    + apply Z.leb_gt in E. apply StronglySorted_cons. split.
      * rewrite insert_by_perm. constructor; [lia|done].
      * by apply IH.
Qed.

Lemma sort_by_sorted l :
  StronglySorted (λ a b, key a ≤ key b) (sort_by key l).
Proof.
  induction l as [|x l IH]; simpl; [constructor|].
  by apply insert_by_sorted.
Qed.
End sort_by_facts.

(** ** Minimum and maximum *)

Lemma foldl_min_spec l x :
  (foldl Z.min x l = x ∨ foldl Z.min x l ∈ l)
  ∧ foldl Z.min x l ≤ x ∧ Forall (λ t, foldl Z.min x l ≤ t) l.
Proof.
  revert x. induction l as [|y l IH]; intros x; simpl.
  - split_and!; [by left|lia|constructor].
  - destruct (IH (x `min` y)) as (H1 & H2 & H3). split_and!.
    + destruct H1 as [H1|H1].
      * rewrite H1. destruct (Z.min_spec x y) as [[_ ->]|[_ ->]];
          [by left|right; left].
      * right. by right.
    + lia.
    + constructor; [lia|done].
Qed.

Lemma foldl_max_spec l x :
  (foldl Z.max x l = x ∨ foldl Z.max x l ∈ l)
  ∧ x ≤ foldl Z.max x l ∧ Forall (λ t, t ≤ foldl Z.max x l) l.
Proof.
  revert x. induction l as [|y l IH]; intros x; simpl.
  - split_and!; [by left|lia|constructor].
  - destruct (IH (x `max` y)) as (H1 & H2 & H3). split_and!.
    + destruct H1 as [H1|H1].
      * rewrite H1. destruct (Z.max_spec x y) as [[_ ->]|[_ ->]];
          [right; left|by left].
      * right. by right.
    + lia.
    + constructor; [lia|done].
Qed.

Lemma py_min_spec l :
  l ≠ [] → ∃ m, py_min l = Ok m ∧ m ∈ l ∧ Forall (λ t, m ≤ t) l.
Proof.
  destruct l as [|x l]; [done|]. intros _. eexists. split; [done|].
  destruct (foldl_min_spec l x) as (H1 & H2 & H3). split.
  - destruct H1 as [->|H1]; [left|by right].
  - by constructor.
Qed.

Lemma py_max_spec l :
  l ≠ [] → ∃ m, py_max l = Ok m ∧ m ∈ l ∧ Forall (λ t, t ≤ m) l.
Proof.
  destruct l as [|x l]; [done|]. intros _. eexists. split; [done|].
  destruct (foldl_max_spec l x) as (H1 & H2 & H3). split.
  - destruct H1 as [->|H1]; [left|by right].
  - by constructor.
Qed.

(** ** Grouping items by cluster *)

Lemma group_append_keys k it g :
  (group_append k it g).*1
  = if decide (k ∈ g.*1) then g.*1 else g.*1 ++ [k].
Proof.
  induction g as [|[k' its] g IH]; csimpl.
  - destruct (decide (k ∈ [])) as [Hin|_]; [|done].
    by apply not_elem_of_nil in Hin.
  - destruct (decide (k = k')) as [->|Hne]; csimpl.
    + destruct (decide (k' ∈ k' :: g.*1)) as [_|Hnin]; [done|].
      exfalso. apply Hnin. left.
    + rewrite IH. destruct (decide (k ∈ g.*1)) as [Hin|Hnin].
      * destruct (decide (k ∈ k' :: g.*1)) as [_|Hnin]; [done|].
        exfalso. apply Hnin. by right.
      * destruct (decide (k ∈ k' :: g.*1)) as [Hin|_]; [|done].
        exfalso. apply elem_of_cons in Hin. tauto.
Qed.

Lemma group_append_NoDup k it g : NoDup g.*1 → NoDup (group_append k it g).*1.
Proof.
  intros Hnd. rewrite group_append_keys. case_decide; [done|].
  apply NoDup_app. split_and!; [done| |apply NoDup_singleton].
  intros x Hx ->%list_elem_of_singleton. done.
Qed.

Lemma group_append_map k it (g : list (Z * list item)) :
  (list_to_map (group_append k it g) : gmap Z (list item))
  = <[k := default [] ((list_to_map g : gmap Z (list item)) !! k) ++ [it]]>
      (list_to_map g).
Proof.
  induction g as [|[k' its] g IH]; csimpl; [done|].
  destruct (decide (k = k')) as [->|Hne]; csimpl.
  - rewrite lookup_insert_eq. csimpl. by rewrite insert_insert_eq.
  - rewrite IH. rewrite lookup_insert_ne by done.
    by rewrite insert_insert_ne.
Qed.

Lemma cluster_items_of_snoc items it :
  cluster_items_of (items ++ [it]) = group_step (cluster_items_of items) it.
Proof. unfold cluster_items_of. by rewrite foldl_app. Qed.

Lemma cluster_items_of_NoDup items : NoDup (cluster_items_of items).*1.
Proof.
  induction items as [|it items IH] using rev_ind; [constructor|].
  rewrite cluster_items_of_snoc. unfold group_step.
  case_match; [|done]. by apply group_append_NoDup.
Qed.

(** The group stored under a key holds the items of that cluster, in the
    order of the input; only non-negative keys of at least one item occur. *)
Lemma cluster_items_of_lookup items k :
  (list_to_map (cluster_items_of items) : gmap Z (list item)) !! k
  = let members := filter (λ it, item_cluster it = k) items in
    if decide (0 ≤ k ∧ members ≠ []) then Some members else None.
Proof.
  induction items as [|it items IH] using rev_ind; simpl.
  - rewrite decide_False; [done|]. naive_solver.
  - rewrite cluster_items_of_snoc. unfold group_step.
    rewrite filter_app. simpl in IH.
    destruct (0 <=? item_cluster it) eqn:E.
    + apply Z.leb_le in E. rewrite group_append_map.
      destruct (decide (item_cluster it = k)) as [Hk|Hk].
      * subst k. rewrite lookup_insert_eq, IH.
        rewrite filter_cons_True by done. rewrite filter_nil.
        rewrite (decide_True (P := _ ∧ _ ++ _ ≠ _)).
        2:{ split; [done|]. intros ?%app_eq_nil. naive_solver. }
        case_decide as Hd; simpl; [done|].
        f_equal. destruct (filter _ items); [done|]. exfalso. naive_solver.
      * rewrite lookup_insert_ne by done. rewrite IH.
        rewrite filter_cons_False by done. rewrite filter_nil, app_nil_r.
        done.
    + apply Z.leb_gt in E. rewrite IH.
      destruct (decide (item_cluster it = k)) as [Hk|Hk].
      * subst k. rewrite !decide_False; [done|lia|lia].
      * rewrite filter_cons_False by done. by rewrite filter_nil, app_nil_r.
Qed.

Lemma elem_of_cluster_items_of items k its :
  (k, its) ∈ cluster_items_of items
  ↔ 0 ≤ k ∧ its ≠ [] ∧ its = filter (λ it, item_cluster it = k) items.
Proof.
  rewrite elem_of_list_to_map by apply cluster_items_of_NoDup.
  rewrite cluster_items_of_lookup. simpl.
  case_decide; naive_solver.
Qed.

(** ** The cluster dictionary *)

Lemma cluster_map_of_snoc clusters c :
  cluster_map_of (clusters ++ [c])
  = <[cluster_id c := c]> (cluster_map_of clusters).
Proof. unfold cluster_map_of. by rewrite foldl_app. Qed.

Lemma cluster_map_of_lookup clusters cid :
  cluster_map_of clusters !! cid
  = last (filter (λ c, cluster_id c = cid) clusters).
Proof.
  induction clusters as [|c clusters IH] using rev_ind; [done|].
  rewrite cluster_map_of_snoc, filter_app.
  destruct (decide (cluster_id c = cid)) as [Hc|Hc].
  - rewrite filter_cons_True by done. rewrite filter_nil.
    rewrite last_snoc. subst cid. by rewrite lookup_insert_eq.
  - rewrite filter_cons_False by done. rewrite filter_nil, app_nil_r.
    by rewrite lookup_insert_ne.
Qed.

Lemma cluster_map_of_is_Some clusters cid :
  is_Some (cluster_map_of clusters !! cid)
  ↔ ∃ c, c ∈ clusters ∧ cluster_id c = cid.
Proof.
  rewrite cluster_map_of_lookup. split.
  - intros [c Hc]. exists c. apply last_Some in Hc as [l' Hl'].
    assert (c ∈ filter (λ c, cluster_id c = cid) clusters) as Hin.
    { rewrite Hl'. apply elem_of_app. right. left. }
    by apply list_elem_of_filter in Hin as [? ?].
  - intros (c & Hin & Hid).
    assert (c ∈ filter (λ c, cluster_id c = cid) clusters) as Hf.
    { by apply list_elem_of_filter. }
    destruct (filter _ clusters) as [|x l] eqn:E using rev_ind.
    + by apply not_elem_of_nil in Hf.
    + rewrite last_snoc. eauto.
Qed.

(** ** Species *)

Lemma failure_Ok {A} (r : result A) : failure r = None → ∃ a, r = Ok a.
Proof. destruct r; [by eexists|done|done]. Qed.

Lemma failure_rbind {A B} (m : result A) (k : A → result B) f :
  failure m = Some f → failure (rbind m k) = Some f.
Proof. by destruct m. Qed.

Section species_facts.
Variable strftime : string → Z → result string.

Lemma species_fold_failed cluster_map (r : result (list species)) g :
  failure r ≠ None → foldl (species_step strftime cluster_map) r g = r.
Proof.
  intros Hr. induction g as [|e g IH]; cbn [foldl]; [done|].
  assert (species_step strftime cluster_map r e = r) as ->; [|done].
  by destruct r.
Qed.

(** One group: a species is appended, the group is skipped, or the
    formatting of its least or greatest timestamp fails. *)
Lemma species_step_cases cluster_map acc e :
  e.2 ≠ [] →
  match species_step strftime cluster_map (Ok acc) e with
  | Ok r =>
      match cluster_map !! e.1 with
      | None => r = acc
      | Some _ => ∃ s, r = acc ++ [s] ∧ species_for strftime cluster_map e s
      end
  | r =>
      is_Some (cluster_map !! e.1)
      ∧ ∃ ts, ts ∈ item_timestamp <$> e.2
              ∧ failure (strftime "%Y-%m" ts) = failure r
  end.
Proof.
  intros He. unfold species_step. cbn [rbind].
  destruct (cluster_map !! e.1) as [c|] eqn:Hc; [|done].
  destruct (py_min_spec (item_timestamp <$> e.2)) as (mn & Hmn & Hmn' & _).
  { by destruct (e.2). }
  destruct (py_max_spec (item_timestamp <$> e.2)) as (mx & Hmx & Hmx' & _).
  { by destruct (e.2). }
  rewrite Hmn, Hmx. cbn [rbind].
  destruct (strftime "%Y-%m" mn) as [d1| |] eqn:H1; cbn [rbind].
  - destruct (strftime "%Y-%m" mx) as [d2| |] eqn:H2; cbn [rbind].
    + eexists. split; [done|]. exists c, mn, mx, d1, d2. by rewrite Hc.
    + split; [done|]. exists mx. by rewrite H2.
    + split; [done|]. exists mx. by rewrite H2.
  - split; [done|]. exists mn. by rewrite H1.
  - split; [done|]. exists mn. by rewrite H1.
Qed.

Lemma species_fold cluster_map g acc :
  Forall (λ e : Z * list item, e.2 ≠ []) g →
  match foldl (species_step strftime cluster_map) (Ok acc) g with
  | Ok r =>
      ∃ sp, r = acc ++ sp
            ∧ Forall2 (species_for strftime cluster_map)
                (filter (λ e, is_Some (cluster_map !! e.1)) g) sp
  | r =>
      ∃ e ts, e ∈ g ∧ is_Some (cluster_map !! e.1)
              ∧ ts ∈ item_timestamp <$> e.2
              ∧ failure (strftime "%Y-%m" ts) = failure r
  end.
Proof.
  intros Hg. revert acc.
  induction Hg as [|e g He Hg IH]; intros acc; cbn [foldl].
  - exists []. rewrite app_nil_r. split; [done|constructor].
  - pose proof (species_step_cases cluster_map acc e He) as Hstep.
    destruct (species_step strftime cluster_map (Ok acc) e) as [r|ex|] eqn:Hs.
    + specialize (IH r).
      destruct (foldl (species_step strftime cluster_map) (Ok r) g)
        as [r'|ex'|] eqn:Hf.
      * destruct IH as (sp & -> & HF).
        destruct (cluster_map !! e.1) as [c|] eqn:Hc.
        -- destruct Hstep as (s & -> & Hes). exists (s :: sp).
           split; [by rewrite <- app_assoc|].
           rewrite filter_cons_True by (by rewrite Hc). by constructor.
        -- subst r. exists sp. split; [done|].
           rewrite filter_cons_False; [done|]. rewrite Hc. by intros [? ?].
      * destruct IH as (e' & ts & He' & IH). exists e', ts.
        split; [by right|done].
      * destruct IH as (e' & ts & He' & IH). exists e', ts.
        split; [by right|done].
    + rewrite species_fold_failed by done.
      destruct Hstep as (Hc & ts & Hts & Hf). exists e, ts.
      split; [left|done].
    + rewrite species_fold_failed by done.
      destruct Hstep as (Hc & ts & Hts & Hf). exists e, ts.
      split; [left|done].
Qed.

Lemma generate_species_unsorted items clusters sp :
  generate_species strftime items clusters = Ok sp →
  ∃ sp0,
    sp = sort_by species_min_timestamp sp0
    ∧ Forall2 (species_for strftime (cluster_map_of clusters))
        (filter (λ e, is_Some (cluster_map_of clusters !! e.1))
           (cluster_items_of items)) sp0.
Proof.
  unfold generate_species.
  pose proof (species_fold (cluster_map_of clusters) (cluster_items_of items) [])
    as Hfold.
  destruct (foldl _ _ _) as [sp0|ex|]; cbn [rbind]; [|done|done].
  intros [= <-]. destruct Hfold as (sp1 & -> & HF).
  { apply Forall_forall. intros [k its] Hin.
    apply elem_of_cluster_items_of in Hin. simpl. tauto. }
  by exists sp1.
Qed.

(** [generate_species] fails only as the formatting of the timestamp of an
    item of a listed cluster fails. *)
Lemma generate_species_failure items clusters f :
  failure (generate_species strftime items clusters) = Some f →
  ∃ it, it ∈ items ∧ 0 ≤ item_cluster it
        ∧ is_Some (cluster_map_of clusters !! item_cluster it)
        ∧ failure (strftime "%Y-%m" (item_timestamp it)) = Some f.
Proof.
  unfold generate_species.
  pose proof (species_fold (cluster_map_of clusters) (cluster_items_of items) [])
    as Hfold.
  assert (Forall (λ e : Z * list item, e.2 ≠ []) (cluster_items_of items))
    as Hne.
  { apply Forall_forall. intros [k its] Hin.
    apply elem_of_cluster_items_of in Hin. simpl. tauto. }
  assert (∀ r : result (list species),
    (∃ e ts, e ∈ cluster_items_of items
       ∧ is_Some (cluster_map_of clusters !! e.1)
       ∧ ts ∈ item_timestamp <$> e.2
       ∧ failure (strftime "%Y-%m" ts) = failure r) →
    failure r = Some f →
    ∃ it, it ∈ items ∧ 0 ≤ item_cluster it
        ∧ is_Some (cluster_map_of clusters !! item_cluster it)
        ∧ failure (strftime "%Y-%m" (item_timestamp it)) = Some f) as Hcase.
  { intros r ([k its] & ts & He & Hc & Hts & Hf) Hr. simpl in *.
    apply elem_of_cluster_items_of in He as (Hk & _ & ->).
    apply list_elem_of_fmap in Hts as (it & -> & Hit).
    apply list_elem_of_filter in Hit as [<- Hit].
    exists it. split_and!; [done..|congruence]. }
  destruct (foldl _ _ _) as [sp0|ex|]; cbn [rbind]; [done| |].
  - intros Hf. apply (Hcase (Raise ex)); [by apply Hfold|done].
  - intros Hf. apply (Hcase OutOfFuel); [by apply Hfold|done].
Qed.

(** It returns when the months of the items of the listed clusters can be
    formatted. *)
Lemma generate_species_returns items clusters :
  (∀ it, it ∈ items → 0 ≤ item_cluster it →
     is_Some (cluster_map_of clusters !! item_cluster it) →
     ∃ d, strftime "%Y-%m" (item_timestamp it) = Ok d) →
  ∃ sp, generate_species strftime items clusters = Ok sp.
Proof.
  intros Hfmt.
  destruct (failure (generate_species strftime items clusters)) as [f|] eqn:Hf.
  - apply generate_species_failure in Hf as (it & Hit & Hk & Hc & Hf).
    destruct (Hfmt it Hit Hk Hc) as [d Hd]. by rewrite Hd in Hf.
  - by apply failure_Ok.
Qed.

Lemma species_for_cluster_id cluster_map e s :
  species_for strftime cluster_map e s → species_cluster_id s = e.1.
Proof. by intros (c & mn & mx & d1 & d2 & _ & _ & _ & _ & _ & ->). Qed.

Lemma species_for_ids cluster_map g sp :
  Forall2 (species_for strftime cluster_map) g sp → species_cluster_id <$> sp = g.*1.
Proof.
  induction 1 as [|e s g sp He _ IH]; csimpl; [done|].
  f_equal; [by eapply species_for_cluster_id|done].
Qed.

Lemma species_for_unique cluster_map e s s' :
  species_for strftime cluster_map e s →
  species_for strftime cluster_map e s' → s = s'.
Proof.
  intros (c & mn & mx & d1 & d2 & Hc & Hmn & Hmx & H1 & H2 & ->).
  intros (c' & mn' & mx' & d1' & d2' & Hc' & Hmn' & Hmx' & H1' & H2' & ->).
  congruence.
Qed.
End species_facts.

Section species_results.
Variable strftime : string → Z → result string.

(** What [generate_species] returns, in terms of the groups of items. *)
Lemma generate_species_groups items clusters sp :
  generate_species strftime items clusters = Ok sp →
  StronglySorted
      (λ a b, species_min_timestamp a ≤ species_min_timestamp b) sp
  ∧ NoDup (species_cluster_id <$> sp)
  ∧ (length sp ≤ length (cluster_items_of items))%nat
  ∧ ∀ s, s ∈ sp ↔
      ∃ e, e ∈ cluster_items_of items
           ∧ species_for strftime (cluster_map_of clusters) e s.
Proof.
  intros Hgen.
  destruct (generate_species_unsorted strftime items clusters sp Hgen)
    as (sp0 & -> & HF).
  pose proof (sort_by_perm species_min_timestamp sp0) as Hperm.
  split_and!.
  - apply sort_by_sorted.
  - rewrite Hperm. rewrite (species_for_ids _ _ _ _ HF).
    eapply sublist_NoDup; [apply cluster_items_of_NoDup|].
    apply fmap_sublist, sublist_filter.
  - rewrite Hperm. rewrite <- (Forall2_length _ _ _ HF).
    apply length_filter.
  - intros s. rewrite Hperm. split.
    + intros (i & Hi)%list_elem_of_lookup.
      destruct (Forall2_lookup_r _ _ _ _ _ HF Hi) as (e & He & Hes).
      exists e. split; [|done].
      apply list_elem_of_lookup_2 in He.
      by apply list_elem_of_filter in He as [_ ?].
    + intros (e & He & Hes).
      assert (e ∈ filter (λ e, is_Some (cluster_map_of clusters !! e.1))
                    (cluster_items_of items)) as Hin.
      { apply list_elem_of_filter. split; [|done].
        destruct Hes as (c & _ & _ & _ & _ & Hc & _). by rewrite Hc. }
      apply list_elem_of_lookup in Hin as (i & Hi).
      destruct (Forall2_lookup_l _ _ _ _ _ HF Hi) as (s' & Hs' & Hes').
      assert (s' = s) as <- by (by eapply species_for_unique).
      by eapply list_elem_of_lookup_2.
Qed.

(** The cluster ids that receive a species. *)
Lemma generate_species_ids items clusters sp :
  generate_species strftime items clusters = Ok sp →
  ∀ cid, cid ∈ species_cluster_id <$> sp ↔
    (0 ≤ cid ∧ ∃ it, it ∈ items ∧ item_cluster it = cid)
    ∧ ∃ c, c ∈ clusters ∧ cluster_id c = cid.
Proof.
  intros Hgen cid.
  destruct (generate_species_unsorted strftime items clusters sp Hgen)
    as (sp0 & Hsp0 & HF).
  destruct (generate_species_groups items clusters sp Hgen)
    as (_ & _ & _ & Hin).
  rewrite list_elem_of_fmap. split.
  - intros (s & -> & Hs). apply Hin in Hs as ([k its] & He & Hes).
    rewrite (species_for_cluster_id _ _ _ _ Hes). simpl.
    apply elem_of_cluster_items_of in He as (Hk & Hne & Hits).
    split_and!.
    + done.
    + destruct its as [|it its]; [done|]. exists it.
      assert (it ∈ filter (λ it, item_cluster it = k) items) as Hit.
      { rewrite <- Hits. left. }
      apply list_elem_of_filter in Hit. tauto.
    + apply cluster_map_of_is_Some.
      destruct Hes as (c & _ & _ & _ & _ & Hc & _). simpl in Hc.
      by rewrite Hc.
  - intros ((Hk & it & Hit & Hcid) & Hc).
    apply cluster_map_of_is_Some in Hc.
    set (members := filter (λ it, item_cluster it = cid) items).
    assert (members ≠ []) as Hne.
    { intros Hnil. assert (it ∈ members) as Hm.
      { by apply list_elem_of_filter. }
      rewrite Hnil in Hm. by apply not_elem_of_nil in Hm. }
    assert ((cid, members) ∈ filter
              (λ e, is_Some (cluster_map_of clusters !! e.1))
              (cluster_items_of items)) as Hmem.
    { apply list_elem_of_filter. split; [done|].
      by apply elem_of_cluster_items_of. }
    apply list_elem_of_lookup in Hmem as (i & Hi).
    destruct (Forall2_lookup_l _ _ _ _ _ HF Hi) as (s & Hs & Hes).
    exists s. split; [by rewrite (species_for_cluster_id _ _ _ _ Hes)|].
    apply Hin. exists (cid, members). split; [|done].
    by apply elem_of_cluster_items_of.
Qed.
End species_results.

(** The distinct non-negative cluster ids of the items are the keys of the
    groups. *)
Lemma cluster_items_of_keys items :
  (cluster_items_of items).*1
  ≡ₚ remove_dups (filter (λ k, 0 ≤ k) (item_cluster <$> items)).
Proof.
  apply NoDup_Permutation.
  - apply cluster_items_of_NoDup.
  - apply NoDup_remove_dups.
  - intros k. rewrite elem_of_remove_dups, list_elem_of_filter.
    rewrite !list_elem_of_fmap. split.
    + intros ([k' its] & -> & Hin). simpl.
      apply elem_of_cluster_items_of in Hin as (Hk & Hne & Hits).
      split; [done|]. destruct its as [|it its]; [done|]. exists it.
      assert (it ∈ filter (λ it, item_cluster it = k') items) as Hit.
      { rewrite <- Hits. left. }
      apply list_elem_of_filter in Hit as [-> ?]. done.
    + intros (Hk & it & -> & Hit).
      exists (item_cluster it,
              filter (λ it', item_cluster it' = item_cluster it) items).
      split; [done|]. apply elem_of_cluster_items_of. split_and!; [done| |done].
      intros Hnil.
      assert (it ∈ filter (λ it', item_cluster it' = item_cluster it) items)
        as Hm by (by apply list_elem_of_filter).
      rewrite Hnil in Hm. by apply not_elem_of_nil in Hm.
Qed.

(** C5, as stated, fails: an item of cluster 0 is not noise, yet with no
    entry for cluster 0 in the clusters list no species is emitted. *)
Lemma generate_species_counterexample :
  let it := {| item_id := "a"; item_content := "a.png";
               item_preview := EmptyString; item_timestamp := 0;
               item_cluster := 0 |} in
  item_cluster it ≠ -1
  ∧ generate_species (λ _ _, Ok "1970-01") [it] [] = Ok [].
Proof. split; [done|reflexivity]. Qed.

(** C5 (amended). When the month of the timestamp of every item of a listed
    cluster can be formatted (the timestamp lies in the years that
    [datetime] holds), [generate_species] returns; the returned list is
    sorted non-decreasing by [min_timestamp] and holds exactly one species
    for every cluster id that occurs on an item with cluster >= 0 and has an
    entry in the clusters list. Such a species has the id
    "species_<cluster_id>", name and centroid copied from the cluster entry
    (the last one with that id), the ids of the member items in input order,
    a count equal to the length of that list, the minimum and maximum of the
    members' timestamps, and a date range that is the single month when the
    two months coincide and "start → end" otherwise. *)
Theorem generate_species_amended
    (strftime : string → Z → result string) (items : list item)
    (clusters : list cluster) :
  (∀ it, it ∈ items → 0 ≤ item_cluster it →
     (∃ c, c ∈ clusters ∧ cluster_id c = item_cluster it) →
     ∃ d, strftime "%Y-%m" (item_timestamp it) = Ok d) →
  ∃ sp,
    generate_species strftime items clusters = Ok sp
    ∧ StronglySorted
        (λ a b, species_min_timestamp a ≤ species_min_timestamp b) sp
    ∧ NoDup (species_cluster_id <$> sp)
    ∧ (∀ cid, cid ∈ species_cluster_id <$> sp ↔
         (0 ≤ cid ∧ ∃ it, it ∈ items ∧ item_cluster it = cid)
         ∧ ∃ c, c ∈ clusters ∧ cluster_id c = cid)
    ∧ ∀ s, s ∈ sp →
        let cid := species_cluster_id s in
        let members := filter (λ it, item_cluster it = cid) items in
        let stamps := item_timestamp <$> members in
        (∃ c, last (filter (λ c, cluster_id c = cid) clusters) = Some c
              ∧ species_name s = cluster_label c
              ∧ species_centroid s = cluster_centroid c)
        ∧ species_id s = "species_" +:+ py_str_int cid
        ∧ species_item_ids s = item_id <$> members
        ∧ species_count s = length (species_item_ids s)
        ∧ species_min_timestamp s ∈ stamps
        ∧ Forall (λ t, species_min_timestamp s ≤ t) stamps
        ∧ species_max_timestamp s ∈ stamps
        ∧ Forall (λ t, t ≤ species_max_timestamp s) stamps
        ∧ ∃ min_date max_date,
            strftime "%Y-%m" (species_min_timestamp s) = Ok min_date
            ∧ strftime "%Y-%m" (species_max_timestamp s) = Ok max_date
            ∧ species_date_range s
              = if decide (min_date = max_date) then min_date
                else min_date +:+ " → " +:+ max_date.
Proof.
  intros Hfmt.
  destruct (generate_species_returns strftime items clusters) as [sp Hgen].
  { intros it Hit Hk Hc. apply Hfmt; [done..|].
    by apply cluster_map_of_is_Some. }
  destruct (generate_species_groups strftime items clusters sp Hgen)
    as (Hsorted & Hnd & _ & Hin).
  exists sp. split_and!; [done..| |].
  - by apply (generate_species_ids strftime items clusters).
  - intros s Hs. apply Hin in Hs as ([k its] & He & Hes).
    apply elem_of_cluster_items_of in He as (Hk & Hne & Hits).
    destruct Hes as (c & mn & mx & d1 & d2 & Hc & Hmn & Hmx & H1 & H2 & ->).
    simpl in *. rewrite <- Hits.
    destruct (py_min_spec (item_timestamp <$> its)) as (mn' & Hmn' & ? & ?).
    { by destruct its. }
    destruct (py_max_spec (item_timestamp <$> its)) as (mx' & Hmx' & ? & ?).
    { by destruct its. }
    assert (mn' = mn) as -> by congruence.
    assert (mx' = mx) as -> by congruence.
    split_and!; try done.
    + exists c. by rewrite <- cluster_map_of_lookup.
    + by rewrite length_fmap.
    + by exists d1, d2.
Qed.

Lemma generate_species_amended_witness :
  let strftime := λ (_ : string) (ts : Z),
    if decide (ts < 2678400) then Ok "1970-01" else Ok "1970-02" in
  let a := {| item_id := "a"; item_content := "a.png";
              item_preview := EmptyString; item_timestamp := 5;
              item_cluster := 0 |} in
  let b := {| item_id := "b"; item_content := "b.png";
              item_preview := EmptyString; item_timestamp := 3000000;
              item_cluster := 0 |} in
  let c := {| item_id := "c"; item_content := "c.png";
              item_preview := EmptyString; item_timestamp := 7;
              item_cluster := 4 |} in
  let clusters := [ {| cluster_id := 0; cluster_label := "dog";
                       cluster_centroid := (0, 0)%Q;
                       cluster_size := 2%nat |} ] in
  ∃ sp,
    generate_species strftime [a; b; c] clusters = Ok sp
    ∧ species_date_range <$> sp = ["1970-01 → 1970-02"].
Proof.
  intros strftime a b c clusters.
  destruct (generate_species_amended strftime [a; b; c] clusters)
    as (sp & Hgen & _).
  { intros it _ _ _. unfold strftime. destruct (decide _); by eexists. }
  exists sp. split; [done|].
  vm_compute in Hgen. injection Hgen as <-. reflexivity.
Defined.

(** C10. A cluster id that occurs on items but has no entry in the clusters
    list is skipped without an error. [generate_species] fails only as the
    formatting of the timestamp of an item of a listed non-negative cluster
    fails, never for a missing entry, and it returns whenever those
    timestamps can be formatted; with no listed cluster among the items it
    returns the empty list. A cluster id receives a species exactly when it
    occurs on an item with cluster >= 0 and in the clusters list, so the
    species list is at most as long as the list of distinct non-negative
    cluster ids of the items, and can be strictly shorter. *)
Theorem generate_species_skips_unmatched
    (strftime : string → Z → result string) (items : list item)
    (clusters : list cluster) :
  let ids items :=
    remove_dups (filter (λ k, 0 ≤ k) (item_cluster <$> items)) in
  let listed it := ∃ c, c ∈ clusters ∧ cluster_id c = item_cluster it in
  (∀ acc e, (∀ c, c ∈ clusters → cluster_id c ≠ e.1) →
     species_step strftime (cluster_map_of clusters) (Ok acc) e = Ok acc)
  ∧ (∀ f, failure (generate_species strftime items clusters) = Some f →
       ∃ it, it ∈ items ∧ 0 ≤ item_cluster it ∧ listed it
             ∧ failure (strftime "%Y-%m" (item_timestamp it)) = Some f)
  ∧ ((∀ it, it ∈ items → 0 ≤ item_cluster it → listed it →
        ∃ d, strftime "%Y-%m" (item_timestamp it) = Ok d) →
     ∃ sp, generate_species strftime items clusters = Ok sp)
  ∧ ((∀ it, it ∈ items → 0 ≤ item_cluster it → ¬ listed it) →
     generate_species strftime items clusters = Ok [])
  ∧ (∀ sp, generate_species strftime items clusters = Ok sp →
       (∀ cid, cid ∈ species_cluster_id <$> sp ↔
          (0 ≤ cid ∧ ∃ it, it ∈ items ∧ item_cluster it = cid)
          ∧ ∃ c, c ∈ clusters ∧ cluster_id c = cid)
       ∧ (∀ it, it ∈ items → 0 ≤ item_cluster it → ¬ listed it →
            item_cluster it ∉ species_cluster_id <$> sp)
       ∧ (length sp ≤ length (ids items))%nat)
  ∧ ∃ items' sp',
      generate_species strftime items' [] = Ok sp'
      ∧ (length sp' < length (ids items'))%nat.
Proof.
  intros ids listed.
  assert (∀ it, is_Some (cluster_map_of clusters !! item_cluster it)
                ↔ listed it) as Hlisted.
  { intros it. apply cluster_map_of_is_Some. }
  assert ((∀ it, it ∈ items → 0 ≤ item_cluster it → listed it →
        ∃ d, strftime "%Y-%m" (item_timestamp it) = Ok d) →
     ∃ sp, generate_species strftime items clusters = Ok sp) as Hret.
  { intros Hfmt. apply generate_species_returns.
    intros it Hit Hk Hc. apply Hfmt; [done..|]. by apply Hlisted. }
  split_and!.
  - intros acc e Hnone. unfold species_step. cbn [rbind].
    destruct (cluster_map_of clusters !! e.1) as [c|] eqn:Hc; [|done].
    assert (is_Some (cluster_map_of clusters !! e.1)) as Hs by (by rewrite Hc).
    apply cluster_map_of_is_Some in Hs as (c' & Hc' & Hid).
    by destruct (Hnone c' Hc').
  - intros f Hf.
    apply generate_species_failure in Hf as (it & Hit & Hk & Hc & Hf).
    exists it. split_and!; [done..| |done]. by apply Hlisted.
  - done.
  - intros Hnone. destruct Hret as [sp Hgen].
    { intros it Hit Hk Hl. by destruct (Hnone it Hit Hk). }
    pose proof (generate_species_ids strftime items clusters sp Hgen) as Hids.
    destruct sp as [|s sp]; [done|].
    destruct (Hids (species_cluster_id s)) as [((Hk & it & Hit & Hcid) & Hc) _].
    { csimpl. left. }
    destruct (Hnone it Hit); [by rewrite Hcid|].
    unfold listed. by rewrite Hcid.
  - intros sp Hgen.
    pose proof (generate_species_ids strftime items clusters sp Hgen) as Hids.
    destruct (generate_species_groups strftime items clusters sp Hgen)
      as (_ & _ & Hlen & _).
    split_and!; [done| |].
    + intros it Hit Hk Hnone Hin. apply Hids in Hin as [_ Hc]. by apply Hnone.
    + unfold ids. rewrite <- cluster_items_of_keys. by rewrite length_fmap.
  - exists [ {| item_id := "a"; item_content := "a.png";
               item_preview := EmptyString; item_timestamp := 0;
               item_cluster := 0 |} ], [].
    split; [reflexivity|]. vm_compute. lia.
Qed.

(** [mode or default] is never the empty string when the default is not. *)
Lemma py_or_cases mode default :
  py_or mode default = default
  ∨ (mode = Some (py_or mode default) ∧ py_or mode default ≠ EmptyString).
Proof. destruct mode as [[|c s]|]; simpl; auto. Qed.

(** C7, as stated, fails for the final output of an image-mode run: the
    file is [embeddings_image.json], whereas the unsuffixed name of the
    convention is [embeddings.json]. *)
Lemma phylogeny_output_name_counterexample :
  phylogeny_output_name (Some "image") = "embeddings_image.json"
  ∧ phylogeny_output_name None = "embeddings_image.json"
  ∧ convention_name "embeddings" "image" = "embeddings.json"
  ∧ phylogeny_output_name (Some "image") ≠ convention_name "embeddings" "image".
Proof. split_and!; done. Qed.

(** C7 (amended). The clustered intermediate file follows the convention: it
    is [embeddings_clustered_text.json] when the mode of the run is "text" and
    [embeddings_clustered.json] for every other mode. The final phylogeny
    output is [embeddings_<mode>.json] for the mode stored in the clustered
    file ("image" when none is stored): [embeddings_image.json] in image mode
    and [embeddings_text.json] in text mode. *)
Theorem output_names_amended (mode stored : option string) :
  let m := py_or mode (data_mode stored) in
  cluster_output_name mode stored = convention_name "embeddings_clustered" m
  ∧ cluster_output_name mode stored
    = (if decide (m = "text") then "embeddings_clustered_text.json"
       else "embeddings_clustered.json")
  ∧ phylogeny_output_name stored
    = "embeddings_" +:+ data_mode stored +:+ ".json"
  ∧ phylogeny_output_name (Some "image") = "embeddings_image.json"
  ∧ phylogeny_output_name None = "embeddings_image.json"
  ∧ phylogeny_output_name (Some "text") = "embeddings_text.json".
Proof.
  intros m. split_and!; try reflexivity.
  unfold cluster_output_name. fold m. by destruct (decide (m = "text")).
Qed.

Section image_label_facts.
Context {image clip_model clip_processor : Type}.
Variable open_image : string → option image.
Variable torch_available : bool.
Variable zero_shot_topk :
  clip_model → clip_processor → list image → nat → result (list nat).

(** No sampled image can be opened: the fallback label is returned. *)
Lemma image_label_no_image model processor image_paths top_k :
  omap open_image (take 5 image_paths) = [] →
  get_image_semantic_label image clip_model clip_processor open_image
    torch_available zero_shot_topk model processor image_paths top_k
  = Ok (_fallback_image_label image_paths).
Proof. unfold get_image_semantic_label. by intros ->. Qed.

(** [torch] cannot be imported: the fallback label is returned. *)
Lemma image_label_no_torch model processor image_paths top_k :
  torch_available = false →
  get_image_semantic_label image clip_model clip_processor open_image
    torch_available zero_shot_topk model processor image_paths top_k
  = Ok (_fallback_image_label image_paths).
Proof.
  unfold get_image_semantic_label. intros ->.
  by destruct (omap _ _).
Qed.

(** Every label that is returned is the fallback label or the title of an
    entry of [IMAGE_LABELS]. *)
Lemma image_label_cases model processor image_paths top_k label :
  get_image_semantic_label image clip_model clip_processor open_image
    torch_available zero_shot_topk model processor image_paths top_k = Ok label →
  label = _fallback_image_label image_paths
  ∨ ∃ l, l ∈ IMAGE_LABELS ∧ label = py_title l.
Proof.
  unfold get_image_semantic_label.
  destruct (omap _ _) as [|img images]; [intros [= <-]; by left|].
  destruct torch_available; simpl; [|intros [= <-]; by left].
  destruct processor as [proc|]; [|done].
  destruct model as [mdl|]; [|done].
  destruct (zero_shot_topk _ _ _ _) as [top| |]; simpl; [|done..].
  destruct top as [|i top]; simpl; [intros [= <-]; by left|].
  destruct (IMAGE_LABELS !! i) as [l|] eqn:Hl; simpl; [|done].
  destruct (result_mapM _ top); simpl; [|done..].
  intros [= <-]. right. exists l. split; [|done].
  by eapply list_elem_of_lookup_2.
Qed.
End image_label_facts.

(** C4 (divergence from the function's documented behaviour). With the model
    and the processor unavailable ([None]), as [main] leaves them after a
    failed load, a member image that can be opened and an importable [torch],
    [get_image_semantic_label] does not return the fallback label: calling
    the processor raises [TypeError]. *)
Theorem get_image_semantic_label_raises
    (image clip_model clip_processor : Type)
    (open_image : string → option image)
    (zero_shot_topk :
       clip_model → clip_processor → list image → nat → result (list nat))
    (model : option clip_model) (image_paths : list string) (top_k : nat) :
  omap open_image (take 5 image_paths) ≠ [] →
  get_image_semantic_label image clip_model clip_processor open_image
    true zero_shot_topk model None image_paths top_k
  = Raise TypeError.
Proof.
  unfold get_image_semantic_label. intros Hne.
  by destruct (omap _ _).
Qed.

Lemma get_image_semantic_label_raises_witness :
  omap (λ _ : string, Some ()) (take 5 ["cat.png"]) ≠ []
  ∧ get_image_semantic_label unit unit unit (λ _, Some ()) true
      (λ _ _ _ _, Ok [0%nat]) None None ["cat.png"] 1
    = Raise TypeError.
Proof.
  split; [done|].
  apply (get_image_semantic_label_raises unit unit unit (λ _, Some ()) 
           (λ _ _ _ _, Ok [0%nat]) None ["cat.png"] 1).
  done.
Defined.

(** ** Strings *)

Lemma chars_join l : chars (join l) = l.
Proof. apply list_ascii_of_string_of_list_ascii. Qed.

Lemma join_chars s : join (chars s) = s.
Proof. apply string_of_list_ascii_of_string. Qed.

Lemma is_alpha_not_slash c : is_alpha c = true → c ≠ "/"%char.
Proof. by intros H ->. Qed.

Lemma is_lower_az_alpha c : is_lower_az c = true → is_alpha c = true.
Proof. unfold is_alpha. by intros ->. Qed.

Lemma upper_char_not_slash c : c ≠ "/"%char → upper_char c ≠ "/"%char.
Proof.
  destruct c as [[] [] [] [] [] [] [] []]; vm_compute; congruence.
Qed.

Lemma lower_char_not_slash c : c ≠ "/"%char → lower_char c ≠ "/"%char.
Proof.
  destruct c as [[] [] [] [] [] [] [] []]; vm_compute; congruence.
Qed.

Lemma title_chars_no_slash b l :
  "/"%char ∉ l → "/"%char ∉ title_chars b l.
Proof.
  revert b. induction l as [|c l IH]; intros b Hl; simpl; [done|].
  apply not_elem_of_cons in Hl as [Hc Hl].
  apply not_elem_of_cons. split; [|by apply IH].
  destruct b; intros Heq; symmetry in Heq; revert Heq;
    [apply lower_char_not_slash|apply upper_char_not_slash]; done.
Qed.

Lemma py_title_no_slash s :
  "/"%char ∉ chars s → "/"%char ∉ chars (py_title s).
Proof.
  intros H. unfold py_title. rewrite chars_join.
  by apply title_chars_no_slash.
Qed.

Lemma Forall_alpha_no_slash l :
  Forall (λ c, is_alpha c = true) l → "/"%char ∉ l.
Proof.
  intros HF Hin. rewrite Forall_forall in HF.
  by apply HF, is_alpha_not_slash in Hin.
Qed.

Lemma py_isalpha_chars s :
  py_isalpha s = true → Forall (λ c, is_alpha c = true) (chars s).
Proof.
  unfold py_isalpha. destruct (chars s) as [|c l] eqn:E; [done|].
  intros H. apply Forall_forall. intros x Hx.
  rewrite forallb_forall in H. apply H. by apply list_elem_of_In.
Qed.

(** Every run consists of kept characters only. *)
Lemma runs_keep keep s t :
  t ∈ runs keep s → Forall (λ c, keep c = true) (chars t).
Proof.
  unfold runs.
  assert (∀ l st,
    (Forall (λ t, Forall (λ c, keep c = true) (chars t)) st.1
     ∧ Forall (λ c, keep c = true) st.2) →
    let st' := foldl (run_step keep) st l in
    Forall (λ t, Forall (λ c, keep c = true) (chars t)) st'.1
    ∧ Forall (λ c, keep c = true) st'.2) as Hinv.
  { induction l as [|ch l IH]; intros [tok cur] [Htok Hcur]; [done|].
    cbn [foldl]. apply IH. unfold run_step. cbn [fst snd] in *.
    destruct (keep ch) eqn:E; cbn [fst snd].
    - split; [done|]. apply Forall_app. split; [done|]. by constructor.
    - destruct cur as [|c cur]; cbn [fst snd]; [done|]. split; [|done].
      apply Forall_app. split; [done|]. constructor; [|done].
      by rewrite chars_join. }
  specialize (Hinv (chars s) ([], []) (conj (Forall_nil_2 _) (Forall_nil_2 _))).
  cbv zeta in Hinv. destruct (foldl _ _ _) as [tok cur]. cbn [fst snd] in Hinv.
  destruct Hinv as [Htok Hcur]. rewrite Forall_forall in Htok.
  destruct cur as [|c cur]; [apply Htok|].
  intros [Hin| ->%list_elem_of_singleton]%elem_of_app; [by apply Htok|].
  by rewrite chars_join.
Qed.

(** ** Counters *)

Lemma counter_incr_keys k c :
  (counter_incr k c).*1 = if decide (k ∈ c.*1) then c.*1 else c.*1 ++ [k].
Proof.
  induction c as [|[k' v] c IH]; csimpl.
  - destruct (decide (k ∈ [])) as [Hin|_]; [|done].
    by apply not_elem_of_nil in Hin.
  - destruct (decide (k = k')) as [->|Hne]; csimpl.
    + destruct (decide (k' ∈ k' :: c.*1)) as [_|Hnin]; [done|].
      exfalso. apply Hnin. left.
    + rewrite IH. destruct (decide (k ∈ c.*1)) as [Hin|Hnin].
      * destruct (decide (k ∈ k' :: c.*1)) as [_|Hnin]; [done|].
        exfalso. apply Hnin. by right.
      * destruct (decide (k ∈ k' :: c.*1)) as [Hin|_]; [|done].
        exfalso. apply elem_of_cons in Hin. tauto.
Qed.

Lemma counter_incr_NoDup k c : NoDup c.*1 → NoDup (counter_incr k c).*1.
Proof.
  intros Hnd. rewrite counter_incr_keys. case_decide; [done|].
  apply NoDup_app. split_and!; [done| |apply NoDup_singleton].
  intros x Hx ->%list_elem_of_singleton. done.
Qed.

Lemma counter_incr_map k (c : list (string * nat)) :
  (list_to_map (counter_incr k c) : gmap string nat)
  = <[k := S (default 0%nat ((list_to_map c : gmap string nat) !! k))]>
      (list_to_map c).
Proof.
  induction c as [|[k' v] c IH]; csimpl; [done|].
  destruct (decide (k = k')) as [->|Hne]; csimpl.
  - rewrite lookup_insert_eq. csimpl. by rewrite insert_insert_eq.
  - rewrite IH. rewrite lookup_insert_ne by done.
    by rewrite insert_insert_ne.
Qed.

Lemma counter_update_snoc c words w :
  counter_update c (words ++ [w]) = counter_incr w (counter_update c words).
Proof. unfold counter_update. by rewrite foldl_app. Qed.

Lemma counter_update_app c ws1 ws2 :
  counter_update c (ws1 ++ ws2) = counter_update (counter_update c ws1) ws2.
Proof. unfold counter_update. by rewrite foldl_app. Qed.

Lemma counter_update_NoDup words : NoDup (counter_update [] words).*1.
Proof.
  induction words as [|w words IH] using rev_ind; [constructor|].
  rewrite counter_update_snoc. by apply counter_incr_NoDup.
Qed.

(** A counter built from a list of words maps each word of the list to its
    number of occurrences, and holds no other key. *)
Lemma counter_update_lookup words k :
  (list_to_map (counter_update [] words) : gmap string nat) !! k
  = let n := length (filter (λ w, w = k) words) in
    if decide (n = 0%nat) then None else Some n.
Proof.
  induction words as [|w words IH] using rev_ind; [done|].
  rewrite counter_update_snoc, counter_incr_map, filter_app, length_app.
  simpl in *. destruct (decide (w = k)) as [->|Hne].
  - rewrite lookup_insert_eq, IH. rewrite filter_cons_True by done.
    rewrite filter_nil. simpl.
    rewrite (decide_False (P := (_ + 1)%nat = 0%nat)) by lia.
    case_decide as Hd; simpl; f_equal; lia.
  - rewrite lookup_insert_ne by done. rewrite IH.
    rewrite filter_cons_False by done. rewrite filter_nil. simpl.
    by rewrite Nat.add_0_r.
Qed.

Lemma elem_of_counter_update words k v :
  (k, v) ∈ counter_update [] words
  ↔ v = length (filter (λ w, w = k) words) ∧ k ∈ words.
Proof.
  rewrite elem_of_list_to_map by apply counter_update_NoDup.
  rewrite counter_update_lookup. simpl.
  assert (length (filter (λ w, w = k) words) = 0%nat ↔ k ∉ words) as Hz.
  { rewrite length_zero_iff_nil. split.
    - intros Hnil Hin.
      assert (k ∈ filter (λ w, w = k) words) as Hf
        by (by apply list_elem_of_filter).
      rewrite Hnil in Hf. by apply not_elem_of_nil in Hf.
    - intros Hnin. induction words as [|x words IH]; [done|].
      apply not_elem_of_cons in Hnin as [Hx Hnin].
      rewrite filter_cons_False by done. by apply IH. }
  case_decide as Hd.
  - split; [done|]. intros [_ Hin]. by apply Hz in Hd.
  - split.
    + intros [= <-]. split; [done|].
      destruct (decide (k ∈ words)); [done|]. exfalso. by apply Hd, Hz.
    + by intros [-> _].
Qed.

(** The first entry of [most_common] has a maximal count. *)
Lemma most_common_head k (c : list (string * nat)) :
  match most_common (S k) c with
  | [] => c = []
  | kv :: _ => kv ∈ c ∧ ∀ kv', kv' ∈ c → (kv'.2 ≤ kv.2)%nat
  end.
Proof.
  unfold most_common.
  pose proof (sort_by_perm (λ kv : string * nat, - Z.of_nat kv.2) c) as Hperm.
  pose proof (sort_by_sorted (λ kv : string * nat, - Z.of_nat kv.2) c) as Hs.
  destruct (sort_by _ c) as [|kv l]; simpl.
  - by apply Permutation_nil_l in Hperm.
  - apply StronglySorted_cons in Hs as [Hkv _]. split.
    + rewrite <- Hperm. left.
    + intros kv' Hin. rewrite <- Hperm in Hin.
      apply elem_of_cons in Hin as [->|Hin]; [done|].
      rewrite Forall_forall in Hkv. apply Hkv in Hin. lia.
Qed.

(** ** Text labels *)

Lemma elem_of_text_words text w :
  w ∈ text_words text
  ↔ ((3 < py_len w)%nat ∧ (w ∉ text_stopwords) ∧ py_isalpha w = true)
    ∧ ∃ tok, tok ∈ py_split (py_lower text)
             ∧ w = py_strip text_punctuation tok.
Proof.
  unfold text_words. rewrite list_elem_of_filter, list_elem_of_fmap.
  rewrite Is_true_true. naive_solver.
Qed.

Section text_label_facts.
Variable read_text : string → option string.

Lemma text_counts_words l c :
  foldl (text_count_step read_text) c l
  = counter_update c (mjoin (text_words <$> omap (item_text read_text) l)).
Proof.
  revert c. induction l as [|it l IH]; intros c; [done|].
  cbn [foldl]. rewrite IH. unfold text_count_step. csimpl.
  destruct (item_text read_text it) as [text|]; csimpl; [|done].
  by rewrite counter_update_app.
Qed.

(** The label is the placeholder when no word survives, and otherwise the
    title of a surviving word with a maximal number of occurrences. *)
Lemma text_label_cases items :
  let words :=
    mjoin (text_words <$> omap (item_text read_text) (take 10 items)) in
  (words = [] ∧ get_text_cluster_label read_text items = "misc")
  ∨ ∃ w, w ∈ words
         ∧ get_text_cluster_label read_text items = py_title w
         ∧ ∀ w', (length (filter (λ x, x = w') words)
                  ≤ length (filter (λ x, x = w) words))%nat.
Proof.
  intros words. unfold get_text_cluster_label.
  rewrite text_counts_words. fold words.
  pose proof (most_common_head 2 (counter_update [] words)) as Hmc.
  destruct (most_common 3 _) as [|[w v] rest]; csimpl.
  - left. split; [|done]. destruct words as [|x words'] eqn:E; [done|].
    exfalso.
    assert ((x, length (filter (λ w, w = x) words))
            ∈ counter_update [] words) as Hin.
    { apply elem_of_counter_update. split; [done|]. rewrite E. left. }
    rewrite <- E in Hmc. rewrite Hmc in Hin. by apply not_elem_of_nil in Hin.
  - right. destruct Hmc as [Hin Hmax].
    apply elem_of_counter_update in Hin as [Hv Hw].
    exists w. split_and!; [done..|]. intros w'.
    destruct (decide (w' ∈ words)) as [Hw'|Hw'].
    + specialize (Hmax (w', length (filter (λ x, x = w') words))).
      simpl in Hmax. rewrite <- Hv. apply Hmax.
      by apply elem_of_counter_update.
    + assert (filter (λ x, x = w') words = []) as ->; [|simpl; lia].
      clear -Hw'. induction words as [|x l IH]; [done|].
      apply not_elem_of_cons in Hw' as [Hx Hl].
      rewrite filter_cons_False by done. by apply IH.
Qed.

Lemma text_label_no_slash items :
  "/"%char ∉ chars (get_text_cluster_label read_text items).
Proof.
  destruct (text_label_cases items) as [[_ ->]|(w & Hw & -> & _)].
  - vm_compute. intros Hin. repeat (apply elem_of_cons in Hin as [?|Hin]; [done|]).
    by apply not_elem_of_nil in Hin.
  - apply py_title_no_slash.
    apply list_elem_of_join in Hw as (ws & Hw & Hws).
    apply list_elem_of_fmap in Hws as (text & -> & _).
    apply elem_of_text_words in Hw as [(_ & _ & Halpha) _].
    by apply Forall_alpha_no_slash, py_isalpha_chars.
Qed.

Lemma omap_item_text_preview l text :
  text ≠ EmptyString →
  Forall (λ it, item_preview it = text) l →
  omap (item_text read_text) l = replicate (length l) text.
Proof.
  intros Hne. induction 1 as [|it l Hit _ IH]; [done|].
  csimpl. unfold item_text at 1. rewrite Hit.
  destruct text; [done|]. csimpl. by rewrite IH.
Qed.
End text_label_facts.

(** ** The filename fallback *)

Lemma fallback_counts paths c :
  foldl (λ c p, counter_update c (path_tokens p)) c paths
  = counter_update c (mjoin (path_tokens <$> paths)).
Proof.
  revert c. induction paths as [|p paths IH]; intros c; [done|].
  cbn [foldl]. rewrite IH. csimpl. by rewrite counter_update_app.
Qed.

Lemma fallback_label_cases image_paths :
  _fallback_image_label image_paths = "Images"
  ∨ ∃ p t, p ∈ take 40 image_paths ∧ t ∈ path_tokens p
           ∧ _fallback_image_label image_paths = py_title t.
Proof.
  unfold _fallback_image_label. rewrite fallback_counts.
  pose proof (most_common_head 0
    (counter_update [] (mjoin (path_tokens <$> take 40 image_paths)))) as Hmc.
  destruct (most_common 1 _) as [|[t v] rest]; [by left|right].
  destruct Hmc as [Hin _].
  apply elem_of_counter_update in Hin as [_ Hin].
  apply list_elem_of_join in Hin as (ts & Ht & Hts).
  apply list_elem_of_fmap in Hts as (p & -> & Hp). by exists p, t.
Qed.

Lemma fallback_label_no_slash image_paths :
  "/"%char ∉ chars (_fallback_image_label image_paths).
Proof.
  destruct (fallback_label_cases image_paths) as [->|(p & t & _ & Ht & ->)].
  - vm_compute. intros Hin.
    repeat (apply elem_of_cons in Hin as [?|Hin]; [done|]).
    by apply not_elem_of_nil in Hin.
  - apply py_title_no_slash, Forall_alpha_no_slash.
    unfold path_tokens in Ht. apply list_elem_of_filter in Ht as [_ Ht].
    apply runs_keep in Ht. eapply Forall_impl; [exact Ht|].
    intros c. apply is_lower_az_alpha.
Qed.

Lemma IMAGE_LABELS_no_slash l :
  l ∈ IMAGE_LABELS → "/"%char ∉ chars (py_title l).
Proof.
  revert l. apply Forall_forall.
  assert (∀ ls, forallb (λ l, negb (bool_decide ("/"%char ∈ chars (py_title l)))) ls = true →
    Forall (λ l, "/"%char ∉ chars (py_title l)) ls) as Hb.
  { induction ls as [|l ls IH]; simpl; [constructor|].
    intros [Hl Hls]%andb_true_iff. constructor; [|by apply IH].
    apply negb_true_iff, bool_decide_eq_false in Hl. done. }
  apply Hb. vm_compute. reflexivity.
Qed.

(** C8. No label returned by the zero-shot image strategy, by the filename
    fallback or by the text keyword strategy contains the character "/". *)
Theorem labels_have_no_separator
    (image clip_model clip_processor : Type)
    (open_image : string → option image) (torch_available : bool)
    (zero_shot_topk :
       clip_model → clip_processor → list image → nat → result (list nat))
    (read_text : string → option string) :
  (∀ model processor image_paths top_k label,
     get_image_semantic_label image clip_model clip_processor open_image
       torch_available zero_shot_topk model processor image_paths top_k
     = Ok label →
     "/"%char ∉ chars label)
  ∧ (∀ image_paths, "/"%char ∉ chars (_fallback_image_label image_paths))
  ∧ (∀ items, "/"%char ∉ chars (get_text_cluster_label read_text items)).
Proof.
  split_and!.
  - intros model processor image_paths top_k label Hlabel.
    apply image_label_cases in Hlabel as [->|(l & Hl & ->)].
    + apply fallback_label_no_slash.
    + by apply IMAGE_LABELS_no_slash.
  - apply fallback_label_no_slash.
  - apply text_label_no_slash.
Qed.

(** ** Lower case, stripping and title case *)

Lemma lower_char_alpha c :
  is_alpha (lower_char c) = is_alpha c
  ∧ (is_alpha c = true → is_lower_az (lower_char c) = true).
Proof. destruct c as [[] [] [] [] [] [] [] []]; vm_compute; split; done. Qed.

Lemma lower_char_space c : is_space (lower_char c) = is_space c.
Proof. by destruct c as [[] [] [] [] [] [] [] []]. Qed.

Lemma lower_char_punctuation c :
  bool_decide (lower_char c ∈ chars text_punctuation)
  = bool_decide (c ∈ chars text_punctuation).
Proof. by destruct c as [[] [] [] [] [] [] [] []]. Qed.

Lemma lower_char_punctuation_iff c :
  lower_char c ∈ chars text_punctuation ↔ c ∈ chars text_punctuation.
Proof.
  rewrite <- (bool_decide_eq_true (lower_char c ∈ chars text_punctuation)).
  rewrite <- (bool_decide_eq_true (c ∈ chars text_punctuation)).
  by rewrite lower_char_punctuation.
Qed.

Lemma alpha_not_punctuation c :
  is_alpha c = true → c ∉ chars text_punctuation.
Proof.
  intros Hc.
  assert (bool_decide (c ∈ chars text_punctuation) = false) as Hb.
  { revert Hc. by destruct c as [[] [] [] [] [] [] [] []]. }
  by apply bool_decide_eq_false in Hb.
Qed.

Lemma is_lower_az_code c :
  is_lower_az c = true ↔ (97 ≤ nat_of_ascii c ≤ 122)%nat.
Proof.
  unfold is_lower_az. rewrite andb_true_iff, !Nat.leb_le. done.
Qed.

Lemma lower_char_lower c : is_lower_az c = true → lower_char c = c.
Proof. revert c. by intros [[] [] [] [] [] [] [] []]. Qed.

Lemma upper_char_lower c :
  is_lower_az c = true → upper_char c = ascii_of_nat (nat_of_ascii c - 32).
Proof. unfold upper_char. by intros ->. Qed.

Lemma chars_py_lower s : chars (py_lower s) = lower_char <$> chars s.
Proof. unfold py_lower. by rewrite chars_join. Qed.

(** [strip] removes a prefix of characters of the set, up to the first
    character outside it. *)
Lemma lstrip_chars_spec set l :
  ∃ pre, l = pre ++ lstrip_chars set l ∧ Forall (λ c, c ∈ set) pre.
Proof.
  induction l as [|c l (pre & Hl & Hpre)]; simpl.
  - by exists [].
  - case_bool_decide as Hc.
    + exists (c :: pre). split; [by rewrite <- app_comm_cons, <- Hl|].
      by constructor.
    + by exists [].
Qed.

Lemma lstrip_chars_prefix set pre c rest :
  Forall (λ c, c ∈ set) pre → c ∉ set →
  lstrip_chars set (pre ++ c :: rest) = c :: rest.
Proof.
  intros Hpre Hc. induction Hpre as [|x pre Hx _ IH]; simpl.
  - by rewrite bool_decide_eq_false_2.
  - by rewrite bool_decide_eq_true_2.
Qed.

Lemma py_strip_inv set tok :
  ∃ pre post,
    chars tok = pre ++ chars (py_strip set tok) ++ post
    ∧ Forall (λ c, c ∈ chars set) pre ∧ Forall (λ c, c ∈ chars set) post.
Proof.
  unfold py_strip. rewrite chars_join.
  destruct (lstrip_chars_spec (chars set) (chars tok)) as (pre & Hl & Hpre).
  set (m := lstrip_chars (chars set) (chars tok)) in *.
  destruct (lstrip_chars_spec (chars set) (reverse m)) as (post & Hm & Hpost).
  exists pre, (reverse post). split_and!.
  - rewrite Hl at 1. f_equal.
    rewrite <- (reverse_involutive m) at 1. rewrite Hm at 1.
    by rewrite reverse_app.
  - done.
  - by apply Forall_reverse.
Qed.

Lemma py_strip_core set tok pre core post :
  chars tok = pre ++ core ++ post →
  Forall (λ c, c ∈ chars set) pre → Forall (λ c, c ∈ chars set) post →
  core ≠ [] → Forall (λ c, c ∉ chars set) core →
  py_strip set tok = join core.
Proof.
  intros Htok Hpre Hpost Hne Hcore. unfold py_strip. rewrite Htok. f_equal.
  destruct core as [|c core]; [done|].
  apply Forall_cons in Hcore as Hc. destruct Hc as [Hc _].
  rewrite <- app_comm_cons, lstrip_chars_prefix by done.
  rewrite app_comm_cons.
  destruct (c :: core) as [|x l _] using rev_ind; [done|].
  apply Forall_app in Hcore as [_ [Hx _]%Forall_cons].
  rewrite reverse_app, reverse_snoc.
  rewrite lstrip_chars_prefix; [|by apply Forall_reverse|done].
  by rewrite <- reverse_snoc, reverse_involutive.
Qed.

(** Cutting into runs commutes with a change of the characters that keeps
    their class. *)
Lemma runs_fmap keep (f : ascii → ascii) s :
  (∀ c, keep (f c) = keep c) →
  runs keep (join (f <$> chars s))
  = (λ t, join (f <$> chars t)) <$> runs keep s.
Proof.
  intros Hf. unfold runs. rewrite chars_join.
  set (g := λ t, join (f <$> chars t)).
  assert (∀ l tok cur,
    foldl (run_step keep) (g <$> tok, f <$> cur) (f <$> l)
    = (g <$> (foldl (run_step keep) (tok, cur) l).1,
       f <$> (foldl (run_step keep) (tok, cur) l).2)) as Hfold.
  { induction l as [|c l IH]; intros tok cur; [done|].
    csimpl. rewrite Hf. destruct (keep c).
    - rewrite <- IH. by rewrite fmap_app.
    - destruct cur as [|x cur]; csimpl.
      + by rewrite <- IH.
      + rewrite <- IH. rewrite fmap_app. csimpl. do 3 f_equal.
        change (String x (join cur)) with (join (x :: cur)).
        unfold g. by rewrite chars_join. }
  specialize (Hfold (chars s) [] []). csimpl in Hfold. rewrite Hfold.
  destruct (foldl (run_step keep) ([], []) (chars s)) as [tok cur]. simpl.
  destruct cur as [|x cur]; csimpl; [done|].
  rewrite fmap_app. csimpl. do 2 f_equal.
  change (String x (join cur)) with (join (x :: cur)).
  unfold g. by rewrite chars_join.
Qed.

Lemma py_split_lower s : py_split (py_lower s) = py_lower <$> py_split s.
Proof.
  unfold py_split, py_lower.
  apply (runs_fmap (λ c, negb (is_space c)) lower_char).
  intros c. by rewrite lower_char_space.
Qed.

(** The title of a word of small letters: the first letter becomes a
    capital. *)
Lemma title_chars_lower l :
  Forall (λ c, is_lower_az c = true) l → title_chars true l = l.
Proof.
  induction 1 as [|c l Hc _ IH]; simpl; [done|].
  rewrite lower_char_lower by done.
  by rewrite (is_lower_az_alpha c Hc), IH.
Qed.

Lemma py_title_lower w c rest :
  chars w = c :: rest → Forall (λ c, is_lower_az c = true) (chars w) →
  chars (py_title w) = ascii_of_nat (nat_of_ascii c - 32) :: rest.
Proof.
  intros Hw Hl. unfold py_title. rewrite chars_join, Hw. rewrite Hw in Hl.
  apply Forall_cons in Hl as [Hc Hrest]. simpl.
  rewrite upper_char_lower by done. f_equal.
  rewrite (is_lower_az_alpha c Hc). by apply title_chars_lower.
Qed.

(** The counted words of a text, in terms of the tokens of the text as it
    is. *)
Lemma elem_of_text_words_raw text w :
  w ∈ text_words text
  ↔ ∃ tok pre core post,
      tok ∈ py_split text
      ∧ chars tok = pre ++ core ++ post
      ∧ Forall (λ c, c ∈ chars text_punctuation) pre
      ∧ Forall (λ c, c ∈ chars text_punctuation) post
      ∧ chars w = lower_char <$> core
      ∧ (3 < length core)%nat
      ∧ (w ∉ text_stopwords)
      ∧ Forall (λ c, is_alpha c = true) core.
Proof.
  rewrite elem_of_text_words. split.
  - intros ((Hlen & Hstop & Halpha) & tok' & Htok' & Hw).
    rewrite py_split_lower in Htok'.
    apply list_elem_of_fmap in Htok' as (tok & -> & Htok).
    destruct (py_strip_inv text_punctuation (py_lower tok))
      as (pre' & post' & Hc & Hpre' & Hpost').
    rewrite <- Hw, chars_py_lower in Hc.
    apply fmap_app_inv in Hc as (pre & l & -> & Hl & Hc).
    symmetry in Hl.
    apply fmap_app_inv in Hl as (core & post & Hcore & -> & ->).
    assert (∀ l, Forall (λ c, c ∈ chars text_punctuation) (lower_char <$> l)
                 → Forall (λ c, c ∈ chars text_punctuation) l) as Hp.
    { intros l. rewrite Forall_fmap. intros HF.
      eapply Forall_impl; [exact HF|]. intros c Hin.
      by apply lower_char_punctuation_iff. }
    exists tok, pre, core, post. split_and!; [done|done|by apply Hp|by apply Hp
      |done| |done|].
    + unfold py_len in Hlen. rewrite Hcore, length_fmap in Hlen. done.
    + apply py_isalpha_chars in Halpha. rewrite Hcore, Forall_fmap in Halpha.
      eapply Forall_impl; [exact Halpha|]. intros c Hca. simpl in Hca.
      by rewrite (proj1 (lower_char_alpha c)) in Hca.
  - intros (tok & pre & core & post & Htok & Hc & Hpre & Hpost & Hw & Hlen
            & Hstop & Halpha).
    assert (w = join (lower_char <$> core)) as Hw'.
    { by rewrite <- Hw, join_chars. }
    assert (∀ l, Forall (λ c, c ∈ chars text_punctuation) l →
                 Forall (λ c, c ∈ chars text_punctuation) (lower_char <$> l))
      as Hp.
    { intros l. rewrite Forall_fmap. intros HF.
      eapply Forall_impl; [exact HF|]. intros c Hin.
      by apply lower_char_punctuation_iff. }
    assert (Forall (λ c, is_alpha c = true) (lower_char <$> core)) as Halpha'.
    { rewrite Forall_fmap. eapply Forall_impl; [exact Halpha|].
      intros c Hca. simpl. by rewrite (proj1 (lower_char_alpha c)). }
    split.
    + split_and!.
      * unfold py_len. by rewrite Hw, length_fmap.
      * done.
      * unfold py_isalpha. rewrite Hw.
        destruct core as [|c core]; [simpl in Hlen; lia|]. csimpl.
        rewrite fmap_cons in Halpha'.
        apply Forall_cons in Halpha' as [-> Hrest]. simpl.
        apply forallb_forall. intros x Hx%list_elem_of_In.
        rewrite Forall_forall in Hrest. by apply Hrest.
    + exists (py_lower tok). split.
      * rewrite py_split_lower. apply list_elem_of_fmap. eauto.
      * rewrite Hw'. symmetry.
        apply (py_strip_core _ _ (lower_char <$> pre) _ (lower_char <$> post)).
        -- by rewrite chars_py_lower, Hc, !fmap_app.
        -- by apply Hp.
        -- by apply Hp.
        -- destruct core; [simpl in Hlen; lia|done].
        -- eapply Forall_impl; [exact Halpha'|].
           intros c. apply alpha_not_punctuation.
Qed.

(** A counted word is made of small letters. *)
Lemma text_words_lower text w :
  w ∈ text_words text → Forall (λ c, is_lower_az c = true) (chars w).
Proof.
  intros (tok & pre & core & post & _ & _ & _ & _ & -> & _ & _ & Halpha)
    %elem_of_text_words_raw.
  rewrite Forall_fmap. eapply Forall_impl; [exact Halpha|].
  intros c Hc. simpl. by apply lower_char_alpha.
Qed.

(** C6. Over ASCII texts. [get_text_cluster_label] samples the first ten
    items: the preview of each, or the first 500 characters of its file when
    it has no preview. A word is counted exactly when a whitespace-separated
    token of a sampled text consists of punctuation characters, then a core
    of more than three letters and nothing else, then punctuation
    characters, and the word is the core in lower case and no stopword. So a
    counted word is made of the letters a to z. The label is "misc" when no
    word is counted, and otherwise a most frequent counted word with its
    first letter as a capital. Case and punctuation do not separate words:
    the previews "Stone, GARDEN! (garden) Garden; stone" give "Garden". For a
    cluster whose sampled previews all are the fox sentence the label is
    "Quick": the title of the five-letter word "quick", which is no
    stopword. *)
Theorem get_text_cluster_label_spec
    (read_text : string → option string) (items : list item) :
  let sampled := take 10 items in
  let texts := omap (item_text read_text) sampled in
  let words := mjoin (text_words <$> texts) in
  let count := λ w, length (filter (λ x, x = w) words) in
  let label := get_text_cluster_label read_text items in
  let punctuation := chars text_punctuation in
  let garden := "Stone, GARDEN! (garden) Garden; stone" in
  let fox := "the quick brown fox jumps over the lazy dog" in
  Forall (λ it, ascii_text (item_preview it)
                ∧ ∀ t, read_text (item_content it) = Some t → ascii_text t)
    sampled →
  (∀ text, text ∈ texts ↔
     ∃ it, it ∈ sampled
       ∧ ((item_preview it ≠ EmptyString ∧ text = item_preview it)
          ∨ (item_preview it = EmptyString
             ∧ ∃ t, read_text (item_content it) = Some t
                    ∧ chars text = take 500 (chars t))))
  ∧ (∀ w, w ∈ words ↔
       ∃ text tok pre core post,
         text ∈ texts ∧ tok ∈ py_split text
         ∧ chars tok = pre ++ core ++ post
         ∧ Forall (λ c, c ∈ punctuation) pre
         ∧ Forall (λ c, c ∈ punctuation) post
         ∧ chars w = lower_char <$> core
         ∧ (3 < length core)%nat
         ∧ (w ∉ text_stopwords)
         ∧ Forall (λ c, is_alpha c = true) core)
  ∧ (∀ w, w ∈ words →
       (3 < length (chars w))%nat
       ∧ Forall (λ c, (97 ≤ nat_of_ascii c ≤ 122)%nat) (chars w))
  ∧ (words = [] → label = "misc")
  ∧ (words ≠ [] →
       ∃ w c rest, w ∈ words
         ∧ (∀ w', (count w' ≤ count w)%nat)
         ∧ label = py_title w
         ∧ chars w = c :: rest
         ∧ chars label = ascii_of_nat (nat_of_ascii c - 32) :: rest)
  ∧ (items ≠ [] → Forall (λ it, item_preview it = garden) sampled →
       label = "Garden")
  ∧ (items ≠ [] → Forall (λ it, item_preview it = fox) sampled →
       label = "Quick" ∧ label = py_title "quick"
       ∧ py_len "quick" = 5%nat ∧ ("quick" ∉ text_stopwords)
       ∧ "quick" ∈ py_split (py_lower fox)).
Proof.
  intros sampled texts words count label punctuation garden fox _.
  assert (∀ w, w ∈ words ↔ ∃ text, text ∈ texts ∧ w ∈ text_words text)
    as Hwords.
  { intros w. unfold words. rewrite list_elem_of_join. split.
    - intros (ws & Hw & (text & -> & Htext)%list_elem_of_fmap). eauto.
    - intros (text & Htext & Hw). exists (text_words text).
      split; [done|]. apply list_elem_of_fmap. eauto. }
  assert (∀ w, w ∈ words →
            (3 < length (chars w))%nat
            ∧ Forall (λ c, is_lower_az c = true) (chars w)) as Hlower.
  { intros w (text & _ & Hw)%Hwords. split; [|by eapply text_words_lower].
    by apply elem_of_text_words in Hw as [(? & _) _]. }
  assert (∀ text : string, text ≠ EmptyString →
    Forall (λ it, item_preview it = text) sampled → items ≠ [] →
    ∃ k, (k < 10)%nat
         ∧ label = match fst <$> most_common 3
                           (counter_update []
                              (mjoin (text_words <$> replicate (S k) text)))
                   with
                   | w :: _ => py_title w
                   | [] => "misc"
                   end) as Hsame.
  { intros text Hne Hall Hitems.
    unfold label, get_text_cluster_label. rewrite text_counts_words.
    fold sampled. rewrite (omap_item_text_preview read_text _ text) by done.
    pose proof (length_take items 10) as Hle. fold sampled in Hle.
    assert (length sampled ≠ 0%nat) as Hpos.
    { unfold sampled. destruct items; [done|]. simpl. lia. }
    destruct (length sampled) as [|k]; [done|].
    exists k. split; [lia|done]. }
  split_and!.
  - intros text. unfold texts. rewrite list_elem_of_omap. split.
    + intros (it & Hit & Htext). exists it. split; [done|].
      unfold item_text in Htext.
      destruct (item_preview it) as [|c s] eqn:Hp.
      * right. split; [done|].
        destruct (read_text (item_content it)) as [t|]; [|done].
        injection Htext as <-. exists t. split; [done|].
        by rewrite chars_join.
      * left. injection Htext as <-. done.
    + intros (it & Hit & [[Hne ->]|(Hp & t & Ht & Htext)]); exists it;
        (split; [done|]); unfold item_text.
      * by destruct (item_preview it).
      * rewrite Hp, Ht. f_equal. by rewrite <- Htext, join_chars.
  - intros w. rewrite Hwords. split.
    + intros (text & Htext & Hw). apply elem_of_text_words_raw in Hw
        as (tok & pre & core & post & Hw).
      by exists text, tok, pre, core, post.
    + intros (text & tok & pre & core & post & Htext & Hw).
      exists text. split; [done|]. apply elem_of_text_words_raw.
      by exists tok, pre, core, post.
  - intros w Hw. destruct (Hlower w Hw) as [Hlen Hl]. split; [done|].
    eapply Forall_impl; [exact Hl|]. intros c. apply is_lower_az_code.
  - intros Hnil.
    destruct (text_label_cases read_text items) as [[_ ?]|(w & Hw & _)];
      [done|].
    fold sampled texts words in Hw. rewrite Hnil in Hw.
    by apply not_elem_of_nil in Hw.
  - intros Hne.
    destruct (text_label_cases read_text items) as [[? _]|(w & Hw & Hl & Hmax)];
      [done|].
    fold sampled texts words in Hw.
    destruct (Hlower w Hw) as [Hlen Hlow].
    destruct (chars w) as [|c rest] eqn:Ew; [simpl in Hlen; lia|].
    exists w, c, rest. split_and!; [done..|].
    unfold label. rewrite Hl. apply py_title_lower; [done|].
    by rewrite Ew.
  - intros Hne Hall.
    destruct (Hsame garden) as (k & Hk & ->); [done..|].
    do 10 (destruct k as [|k]; [vm_compute; reflexivity|]). lia.
  - intros Hne Hfox.
    assert (label = "Quick") as Hlabel.
    { destruct (Hsame fox) as (k & Hk & ->); [done..|].
      do 10 (destruct k as [|k]; [vm_compute; reflexivity|]). lia. }
    split_and!; [done|by rewrite Hlabel|done| |].
    + apply (bool_decide_unpack _). vm_compute. exact I.
    + apply (bool_decide_unpack _). vm_compute. exact I.
Qed.

Lemma get_text_cluster_label_spec_witness :
  let it := {| item_id := "a"; item_content := "a.txt";
               item_preview := "Stone, GARDEN! (garden) Garden; stone";
               item_timestamp := 0; item_cluster := 0 |} in
  get_text_cluster_label (λ _, None) [it; it] = "Garden".
Proof.
  intros it.
  destruct (get_text_cluster_label_spec (λ _, None) [it; it])
    as (_ & _ & _ & _ & _ & Hgarden & _).
  - assert (ascii_text (item_preview it)) as Hascii.
    { apply Forall_forall. intros c Hc. apply Nat.ltb_lt.
      revert c Hc. apply Forall_forall.
      repeat (constructor; [reflexivity|]). constructor. }
    repeat (constructor; [split; [exact Hascii|intros t Ht; discriminate Ht]|]).
    constructor.
  - apply Hgarden; [done|]. repeat (constructor; [reflexivity|]). constructor.
Defined.

(** ** Traversals with results *)

Lemma result_mapM_Ok {A B} (f : A → result B) l r :
  result_mapM f l = Ok r ↔ Forall2 (λ x y, f x = Ok y) l r.
Proof.
  revert r. induction l as [|x l IH]; intros r; simpl.
  - split; [intros [= <-]; constructor|by intros ->%Forall2_nil_inv_l].
  - rewrite rbind_Ok. split.
    + intros (y & Hy & (r' & Hr' & [= <-])%rbind_Ok).
      constructor; [done|by apply IH].
    + intros (y & r' & Hy & Hr' & ->)%Forall2_cons_inv_l.
      exists y. split; [done|]. apply rbind_Ok. exists r'.
      split; [by apply IH|done].
Qed.

Lemma result_mapM_total {A B} (f : A → result B) l :
  (∀ x, x ∈ l → ∃ y, f x = Ok y) → ∃ r, result_mapM f l = Ok r.
Proof.
  induction l as [|x l IH]; intros Hf; simpl; [by eexists|].
  destruct (Hf x) as [y Hy]; [left|].
  destruct IH as [r Hr]; [intros z Hz; apply Hf; by right|].
  exists (y :: r). by rewrite Hy, Hr.
Qed.

(** ** The cluster ids *)

Lemma elem_of_insert_unique x l y :
  y ∈ insert_unique x l ↔ y = x ∨ y ∈ l.
Proof.
  induction l as [|z l IH]; simpl.
  - rewrite list_elem_of_singleton. set_solver.
  - destruct (x <? z) eqn:E1; [set_solver|].
    destruct (x =? z) eqn:E2.
    + apply Z.eqb_eq in E2 as ->. set_solver.
    + rewrite elem_of_cons, IH. set_solver.
Qed.

Lemma insert_unique_sorted x l :
  StronglySorted Z.lt l → StronglySorted Z.lt (insert_unique x l).
Proof.
  induction l as [|z l IH]; simpl; intros Hl.
  - repeat constructor.
  - apply StronglySorted_cons in Hl as [Hz Hl].
    destruct (x <? z) eqn:E1.
    + apply Z.ltb_lt in E1. apply StronglySorted_cons. split.
      * constructor; [done|]. eapply Forall_impl; [exact Hz|].
        simpl. intros; lia.
      * by apply StronglySorted_cons.
    + apply Z.ltb_ge in E1. destruct (x =? z) eqn:E2.
      * by apply StronglySorted_cons.
      * apply Z.eqb_neq in E2. apply StronglySorted_cons. split; [|by apply IH].
        apply Forall_forall. intros y [->|Hy]%elem_of_insert_unique; [lia|].
        rewrite Forall_forall in Hz. by apply Hz.
Qed.

Lemma sorted_unique_labels_sorted labels :
  StronglySorted Z.lt (sorted_unique_labels labels).
Proof.
  unfold sorted_unique_labels.
  induction (filter _ labels) as [|x l IH]; simpl; [constructor|].
  by apply insert_unique_sorted.
Qed.

Lemma elem_of_sorted_unique_labels labels x :
  x ∈ sorted_unique_labels labels ↔ x ∈ labels ∧ x ≠ -1.
Proof.
  unfold sorted_unique_labels.
  transitivity (x ∈ filter (λ l, l ≠ -1) labels).
  - induction (filter _ labels) as [|y l IH]; simpl; [done|].
    rewrite elem_of_insert_unique, IH. set_solver.
  - rewrite list_elem_of_filter. tauto.
Qed.

Lemma StronglySorted_lt_NoDup (l : list Z) : StronglySorted Z.lt l → NoDup l.
Proof.
  induction 1 as [|x l _ IH Hx]; constructor; [|done].
  intros Hin. rewrite Forall_forall in Hx. apply Hx in Hin. lia.
Qed.

Lemma sorted_unique_labels_NoDup labels : NoDup (sorted_unique_labels labels).
Proof. apply StronglySorted_lt_NoDup, sorted_unique_labels_sorted. Qed.

(** ** Counting the members *)

(** The classes of a list under distinct keys that cover it add up to its
    length. *)
Lemma sum_count_classes (ks l : list Z) :
  NoDup ks → (∀ x, x ∈ l → x ∈ ks) →
  sum_list ((λ k, length (filter (λ x, x = k) l)) <$> ks) = length l.
Proof.
  revert l. induction ks as [|k ks IH]; intros l Hnd Hcov; csimpl.
  - destruct l as [|x l]; [done|]. exfalso.
    eapply not_elem_of_nil, (Hcov x). left.
  - apply NoDup_cons in Hnd as [Hk Hnd].
    specialize (IH (filter (λ x, x ≠ k) l) Hnd).
    assert ((λ k', length (filter (λ x, x = k') l)) <$> ks
            = (λ k', length (filter (λ x, x = k') (filter (λ x, x ≠ k) l)))
              <$> ks) as ->.
    { apply Forall_fmap_ext, Forall_forall. intros k' Hk'. f_equal.
      symmetry. apply list_filter_filter_l. intros x -> ->. done. }
    rewrite IH.
    + clear. induction l as [|x l IHl]; [done|].
      destruct (decide (x = k)) as [->|Hne].
      * rewrite filter_cons_True by done.
        rewrite (filter_cons_False (λ x, x ≠ k)) by tauto. simpl. lia.
      * rewrite filter_cons_False by done.
        rewrite (filter_cons_True (λ x, x ≠ k)) by done. simpl. lia.
    + intros x [Hne Hx]%list_elem_of_filter.
      apply Hcov in Hx. apply elem_of_cons in Hx as [?|?]; [done|done].
Qed.

Lemma length_filter_noise (labels : list Z) :
  length (filter (λ l, l ≠ -1) labels)
  = (length labels - length (filter (λ l, l = (-1)%Z) labels))%nat.
Proof.
  induction labels as [|x l IH]; [done|].
  pose proof (length_filter (λ l, l = -1) l) as Hle.
  destruct (decide (x = -1)) as [->|Hne].
  - rewrite filter_cons_False by tauto. rewrite filter_cons_True by done.
    simpl. lia.
  - rewrite filter_cons_True by done. rewrite filter_cons_False by done.
    simpl. lia.
Qed.

Lemma mask_count (labels : list Z) cid :
  length (filter (λ b, b = true) ((λ l, bool_decide (l = cid)) <$> labels))
  = length (filter (λ l, l = cid) labels).
Proof.
  induction labels as [|x l IH]; [done|]. csimpl.
  destruct (decide (x = cid)) as [->|Hne].
  - rewrite bool_decide_eq_true_2 by done.
    rewrite !filter_cons_True by done. simpl. by rewrite IH.
  - rewrite bool_decide_eq_false_2 by done.
    rewrite !filter_cons_False by done. done.
Qed.

Lemma select_mask_members {A} (labels : list Z) (a : list A) cid :
  select_mask ((λ l, bool_decide (l = cid)) <$> labels) a
  = snd <$> filter (λ p : Z * A, p.1 = cid) (zip labels a).
Proof.
  unfold select_mask. revert a.
  induction labels as [|x l IH]; intros [|y a]; csimpl; [done..|].
  destruct (decide (x = cid)) as [->|Hne].
  - rewrite bool_decide_eq_true_2 by done.
    rewrite !filter_cons_True by done. csimpl. by rewrite IH.
  - rewrite bool_decide_eq_false_2 by done.
    rewrite !filter_cons_False by done. apply IH.
Qed.

Lemma length_members {A} (labels : list Z) (a : list A) cid :
  length labels = length a →
  length (filter (λ p : Z * A, p.1 = cid) (zip labels a))
  = length (filter (λ l, l = cid) labels).
Proof.
  revert a. induction labels as [|x l IH]; intros [|y a] Hlen; try done.
  simpl in Hlen. simpl zip.
  destruct (decide (x = cid)) as [->|Hne].
  - rewrite !filter_cons_True by done. simpl. f_equal. apply IH. lia.
  - rewrite !filter_cons_False by done. apply IH. lia.
Qed.

(** ** The mean *)

Lemma mean_axis0_sum (a : list (Q * Q)) :
  a ≠ [] →
  let k := inject_Z (Z.of_nat (length a)) in
  (k * (mean_axis0 a).1 == Qsum (fst <$> a))%Q
  ∧ (k * (mean_axis0 a).2 == Qsum (snd <$> a))%Q.
Proof.
  intros Hne k. unfold mean_axis0. fold k. simpl.
  assert (¬ (k == 0)%Q) as Hk.
  { unfold k. destruct a; [done|]. simpl length.
    intros H. unfold Qeq in H. simpl in H. lia. }
  split; by apply Qmult_div_r.
Qed.

(** ** Selecting the items of a cluster *)

Lemma select_items_total items mask :
  (length items ≤ length mask)%nat → ∃ r, select_items items mask = Ok r.
Proof.
  unfold select_items.
  induction items as [|it items IH] using rev_ind; intros Hlen.
  - by eexists.
  - rewrite length_app in Hlen. simpl in Hlen.
    destruct IH as [r Hr]; [lia|].
    rewrite imap_app, foldl_app, Hr. simpl.
    rewrite Nat.add_0_r.
    destruct (lookup_lt_is_Some_2 mask (length items)) as [b Hb]; [lia|].
    rewrite Hb. destruct b; by eexists.
Qed.

Lemma filter_unique_key {A} (f : A → Z) (l : list A) x :
  NoDup (f <$> l) → x ∈ l → filter (λ y, f y = f x) l = [x].
Proof.
  induction l as [|y l IH]; csimpl; intros Hnd Hin.
  - by apply not_elem_of_nil in Hin.
  - apply NoDup_cons in Hnd as [Hy Hnd].
    apply elem_of_cons in Hin as [->|Hin].
    + rewrite filter_cons_True by done. f_equal.
      clear IH Hnd. induction l as [|z l IH]; [done|].
      csimpl in Hy. apply not_elem_of_cons in Hy as [Hz Hl].
      rewrite filter_cons_False by congruence. by apply IH.
    + rewrite filter_cons_False; [by apply IH|].
      intros Heq. apply Hy. rewrite Heq. apply list_elem_of_fmap. eauto.
Qed.

Section clustering_facts.
Context {image clip_model clip_processor : Type}.
Variable open_image : string → option image.
Variable torch_available : bool.
Variable zero_shot_topk :
  clip_model → clip_processor → list image → nat → result (list nat).
Variable read_text : string → option string.
Variable fit_predict : list (Q * Q) → result (nat → Z).

Lemma cluster_record_Ok coords items mode model processor labels cid c :
  cluster_record image clip_model clip_processor open_image torch_available
    zero_shot_topk read_text coords items mode model processor labels cid
  = Ok c →
  cluster_id c = cid
  ∧ cluster_size c = length (filter (λ l, l = cid) labels)
  ∧ cluster_centroid c
    = mean_axis0 (snd <$> filter (λ p : Z * (Q * Q), p.1 = cid)
                                 (zip labels coords)).
Proof.
  unfold cluster_record.
  intros (its & _ & (label & _ & [= <-])%rbind_Ok)%rbind_Ok. simpl.
  by rewrite mask_count, select_mask_members.
Qed.

Lemma cluster_record_text_total coords items mode model processor labels cid :
  mode ≠ "image" → (length items ≤ length labels)%nat →
  ∃ c, cluster_record image clip_model clip_processor open_image
         torch_available zero_shot_topk read_text coords items mode model
         processor labels cid
       = Ok c.
Proof.
  intros Hmode Hlen. unfold cluster_record.
  destruct (select_items_total items ((λ l, bool_decide (l = cid)) <$> labels))
    as [its ->]; [by rewrite length_fmap|].
  simpl. rewrite decide_False by done. simpl. by eexists.
Qed.

(** In a mode other than "image", and with no more items than points,
    [run_clustering] returns when the labelling does. *)
Lemma run_clustering_text_returns coords items mode model processor labels_of :
  fit_predict coords = Ok labels_of →
  mode ≠ "image" → (length items ≤ length coords)%nat →
  ∃ clusters,
    run_clustering image clip_model clip_processor open_image torch_available
      zero_shot_topk read_text fit_predict coords items mode model processor
    = Ok (labels_of <$> seq 0 (length coords), clusters).
Proof.
  intros Hfit Hmode Hlen. unfold run_clustering. rewrite Hfit. cbn [rbind].
  edestruct (result_mapM_total
    (cluster_record image clip_model clip_processor open_image
       torch_available zero_shot_topk read_text coords items mode model
       processor (labels_of <$> seq 0 (length coords))))
    as [clusters ->]; [|by eexists].
  intros cid _. apply cluster_record_text_total; [done|].
  by rewrite length_fmap, length_seq.
Qed.

Lemma run_clustering_records coords items mode model processor labels clusters :
  run_clustering image clip_model clip_processor open_image torch_available
    zero_shot_topk read_text fit_predict coords items mode model processor
  = Ok (labels, clusters) →
  (∃ labels_of, fit_predict coords = Ok labels_of
                ∧ labels = labels_of <$> seq 0 (length coords))
  ∧ cluster_id <$> clusters = sorted_unique_labels labels
  ∧ cluster_size <$> clusters
    = (λ cid, length (filter (λ l, l = cid) labels))
      <$> sorted_unique_labels labels
  ∧ ∀ c, c ∈ clusters →
      cluster_size c = length (filter (λ l, l = cluster_id c) labels)
      ∧ cluster_centroid c
        = mean_axis0 (snd <$> filter (λ p : Z * (Q * Q), p.1 = cluster_id c)
                                     (zip labels coords)).
Proof.
  unfold run_clustering.
  intros (labels_of & Hfit & (cs & Hcs & [= <- <-])%rbind_Ok)%rbind_Ok.
  split; [by exists labels_of|].
  apply result_mapM_Ok in Hcs.
  induction Hcs as [|cid c cids cs' Hc _ IH]; csimpl.
  - split_and!; [done..|]. by intros c ?%not_elem_of_nil.
  - apply cluster_record_Ok in Hc as (Hid & Hsize & Hcen).
    destruct IH as (IH1 & IH2 & IH3).
    split_and!; [by rewrite Hid, IH1|by rewrite Hsize, IH2|].
    intros c' [->|Hin]%elem_of_cons; [by rewrite Hid|by apply IH3].
Qed.
End clustering_facts.

Lemma filter_length_pos {A} (P : A → Prop) `{∀ x, Decision (P x)} l x :
  x ∈ l → P x → (0 < length (filter P l))%nat.
Proof.
  intros Hx HP.
  assert (x ∈ filter P l) as Hf by (by apply list_elem_of_filter).
  destruct (filter P l) as [|y l'] eqn:E.
  - by apply not_elem_of_nil in Hf.
  - simpl. lia.
Qed.

(** C3. When [run_clustering] returns the labels and the cluster records,
    every label other than the noise label -1 is the id of exactly one
    record, no record has the id -1 or an id that labels no point, the
    recorded sizes add up to the number of labels minus the number of noise
    labels, and each record's size is the number of its members and its
    centroid is the mean of the members' coordinates. *)
Theorem run_clustering_partition
    (image clip_model clip_processor : Type)
    (open_image : string → option image) (torch_available : bool)
    (zero_shot_topk :
       clip_model → clip_processor → list image → nat → result (list nat))
    (read_text : string → option string)
    (fit_predict : list (Q * Q) → result (nat → Z))
    (coords : list (Q * Q)) (items : list item) (mode : string)
    (model : option clip_model) (processor : option clip_processor)
    (labels : list Z) (clusters : list cluster) :
  run_clustering image clip_model clip_processor open_image torch_available
    zero_shot_topk read_text fit_predict coords items mode model processor
  = Ok (labels, clusters) →
  let members := λ cid,
    snd <$> filter (λ p : Z * (Q * Q), p.1 = cid) (zip labels coords) in
  let noise := length (filter (λ l, l = -1) labels) in
  length labels = length coords
  ∧ (∀ l, l ∈ labels → l ≠ -1 →
       ∃ c, filter (λ c, cluster_id c = l) clusters = [c])
  ∧ filter (λ c, cluster_id c = -1) clusters = []
  ∧ (∀ c, c ∈ clusters → cluster_id c ∈ labels)
  ∧ StronglySorted Z.lt (cluster_id <$> clusters)
  ∧ sum_list (cluster_size <$> clusters) = (length labels - noise)%nat
  ∧ ∀ c, c ∈ clusters →
      let k := inject_Z (Z.of_nat (cluster_size c)) in
      cluster_size c = length (members (cluster_id c))
      ∧ (0 < cluster_size c)%nat
      ∧ (k * (cluster_centroid c).1
         == Qsum (fst <$> members (cluster_id c)))%Q
      ∧ (k * (cluster_centroid c).2
         == Qsum (snd <$> members (cluster_id c)))%Q.
Proof.
  intros Hrun members noise.
  apply run_clustering_records in Hrun
    as ((labels_of & _ & Hlabels) & Hids & Hsizes & Hrec).
  assert (length labels = length coords) as Hlen.
  { by rewrite Hlabels, length_fmap, length_seq. }
  assert (NoDup (cluster_id <$> clusters)) as Hnd.
  { rewrite Hids. apply sorted_unique_labels_NoDup. }
  assert (∀ c, c ∈ clusters → cluster_id c ∈ labels ∧ cluster_id c ≠ -1)
    as Hin.
  { intros c Hc. apply elem_of_sorted_unique_labels. rewrite <- Hids.
    apply list_elem_of_fmap. eauto. }
  split_and!.
  - done.
  - intros l Hl Hne.
    assert (l ∈ cluster_id <$> clusters) as Hc.
    { rewrite Hids. by apply elem_of_sorted_unique_labels. }
    apply list_elem_of_fmap in Hc as (c & -> & Hc).
    exists c. by apply filter_unique_key.
  - destruct (filter _ clusters) as [|c cs] eqn:E; [done|]. exfalso.
    assert (c ∈ filter (λ c, cluster_id c = -1) clusters) as Hc
      by (rewrite E; left).
    apply list_elem_of_filter in Hc as [Hid Hc]. by apply Hin in Hc as [_ ?].
  - intros c Hc. by apply Hin.
  - rewrite Hids. apply sorted_unique_labels_sorted.
  - rewrite Hsizes. unfold noise. rewrite <- length_filter_noise.
    rewrite <- (sum_count_classes (sorted_unique_labels labels)
                  (filter (λ l, l ≠ -1) labels)).
    + f_equal. apply Forall_fmap_ext, Forall_forall. intros cid Hcid.
      f_equal. symmetry. apply list_filter_filter_l. intros x ->.
      by apply elem_of_sorted_unique_labels in Hcid as [_ ?].
    + apply sorted_unique_labels_NoDup.
    + intros x [Hne Hx]%list_elem_of_filter.
      by apply elem_of_sorted_unique_labels.
  - intros c Hc k. destruct (Hrec c Hc) as [Hsize Hcen].
    assert (cluster_size c = length (members (cluster_id c))) as Hmem.
    { unfold members. by rewrite length_fmap, length_members. }
    assert (0 < cluster_size c)%nat as Hpos.
    { rewrite Hsize. apply Hin in Hc as [Hc _].
      by apply (filter_length_pos _ _ (cluster_id c)). }
    split_and!; [done..| |].
    + unfold k. rewrite Hmem, Hcen.
      apply mean_axis0_sum. fold (members (cluster_id c)).
      intros Hnil. rewrite Hmem, Hnil in Hpos. simpl in Hpos. lia.
    + unfold k. rewrite Hmem, Hcen.
      apply mean_axis0_sum. fold (members (cluster_id c)).
      intros Hnil. rewrite Hmem, Hnil in Hpos. simpl in Hpos. lia.
Qed.

Lemma run_clustering_partition_witness :
  let it := λ name, {| item_id := name; item_content := name;
                       item_preview := "alpha notes"; item_timestamp := 0;
                       item_cluster := 0 |} in
  let coords := [(0 # 1, 0 # 1); (2 # 1, 4 # 1); (9 # 1, 9 # 1)]%Q in
  let items := [it "a"; it "b"; it "c"] in
  let fit_predict := λ _ : list (Q * Q),
    Ok (λ i : nat, if (i <? 2)%nat then 0 else -1) in
  ∃ labels clusters,
    run_clustering unit unit unit (λ _, None) false (λ _ _ _ _, Ok [])
      (λ _, None) fit_predict coords items "text" None None
    = Ok (labels, clusters)
    ∧ labels = [0; 0; -1]
    ∧ sum_list (cluster_size <$> clusters)
      = (length labels - length (filter (λ l, l = (-1)%Z) labels))%nat.
Proof.
  intros it coords items fit_predict.
  eexists _, _. split; [vm_compute; reflexivity|]. split; [reflexivity|].
  eapply (run_clustering_partition unit unit unit (λ _, None) false
            (λ _ _ _ _, Ok []) (λ _, None) fit_predict coords items "text"
            None None).
  vm_compute. reflexivity.
Defined.

(** ** [argmin] *)

Lemma argmin_from_spec l best bv i :
  (best < i)%nat →
  ∃ v, let r := argmin_from best bv i l in
    ((r = best ∧ v = bv)
     ∨ ((i ≤ r)%nat ∧ l !! (r - i)%nat = Some v ∧ v < bv))
    ∧ Forall (λ x, v ≤ x) l
    ∧ ∀ k y, l !! k = Some y → (i + k < r)%nat → v < y.
Proof.
  revert best bv i. induction l as [|x l IH]; intros best bv i Hlt; simpl.
  - exists bv. split_and!; [by left|constructor|]. intros k y Hk. done.
  - destruct (x <? bv) eqn:E.
    + apply Z.ltb_lt in E.
      destruct (IH i x (S i)) as (v & Hr & Hall & Hfirst); [lia|].
      exists v. simpl in *. split_and!.
      * right. destruct Hr as [[-> ->]|(Hle & Hv & Hvx)].
        -- split_and!; [lia| |done]. by rewrite Nat.sub_diag.
        -- split_and!; [lia| |lia].
           replace (argmin_from i x (S i) l - i)%nat
             with (S (argmin_from i x (S i) l - S i)) by lia.
           done.
      * constructor; [|done]. destruct Hr as [[_ ->]|(_ & _ & ?)]; lia.
      * intros [|k] y Hk Hik; simpl in Hk.
        -- injection Hk as <-. destruct Hr as [[Hr _]|(_ & _ & ?)]; lia.
        -- apply (Hfirst k); [done|lia].
    + apply Z.ltb_ge in E.
      destruct (IH best bv (S i)) as (v & Hr & Hall & Hfirst); [lia|].
      exists v. simpl in *. split_and!.
      * destruct Hr as [[-> ->]|(Hle & Hv & Hvx)]; [by left|right].
        split_and!; [lia| |lia].
        replace (argmin_from best bv (S i) l - i)%nat
          with (S (argmin_from best bv (S i) l - S i)) by lia.
        done.
      * constructor; [|done]. destruct Hr as [[_ ->]|(_ & _ & ?)]; lia.
      * intros [|k] y Hk Hik; simpl in Hk.
        -- injection Hk as <-. destruct Hr as [[Hr _]|(_ & _ & ?)]; lia.
        -- apply (Hfirst k); [done|lia].
Qed.

(** [argmin] returns the first index that holds the minimum. *)
Lemma argmin_spec l :
  l ≠ [] →
  ∃ r v, argmin l = Ok r ∧ l !! r = Some v
    ∧ Forall (λ x, v ≤ x) l
    ∧ ∀ k y, (k < r)%nat → l !! k = Some y → v < y.
Proof.
  destruct l as [|x l]; [done|]. intros _.
  destruct (argmin_from_spec l 0 x 1) as (v & Hr & Hall & Hfirst); [lia|].
  exists (argmin_from 0 x 1 l), v. simpl in *. split_and!.
  - done.
  - destruct Hr as [[-> ->]|(Hle & Hv & _)]; [done|].
    destruct (argmin_from 0 x 1 l) as [|r]; [lia|].
    simpl in *. by rewrite Nat.sub_0_r in Hv.
  - constructor; [|done]. destruct Hr as [[_ ->]|(_ & _ & ?)]; lia.
  - intros [|k] y Hk Hy; simpl in Hy.
    + injection Hy as <-. destruct Hr as [[Hr _]|(_ & _ & ?)]; lia.
    + apply (Hfirst k); [done|lia].
Qed.

(** ** Counting the entries of [visited] *)

Lemma count_insert_true (vis : list bool) i :
  vis !! i = Some false →
  length (filter (λ b, b = true) (<[i:=true]> vis))
  = S (length (filter (λ b, b = true) vis))
  ∧ S (length (filter (λ b, b = false) (<[i:=true]> vis)))
    = length (filter (λ b, b = false) vis).
Proof.
  revert i. induction vis as [|b vis IH]; intros [|i] Hi; simpl in Hi;
    try done.
  - injection Hi as ->. simpl.
    repeat (first [rewrite filter_cons_True by done
                  |rewrite filter_cons_False by done]).
    done.
  - destruct (IH i Hi) as [IH1 IH2]. destruct b; simpl.
    all: repeat (first [rewrite filter_cons_True by done
                       |rewrite filter_cons_False by done]).
    all: simpl; split; lia.
Qed.

Lemma count_true_le (vis : list bool) :
  (length (filter (λ b, b = true) vis) ≤ length vis)%nat.
Proof. apply length_filter. Qed.

Lemma count_true_false (vis : list bool) :
  (length (filter (λ b, b = true) vis)
   + length (filter (λ b, b = false) vis))%nat = length vis.
Proof.
  induction vis as [|[] vis IH]; [done| |].
  all: repeat (first [rewrite filter_cons_True by done
                     |rewrite filter_cons_False by done]).
  all: simpl; lia.
Qed.

Lemma count_replicate_false k :
  length (filter (λ b, b = true) (replicate k false)) = 0%nat.
Proof.
  induction k as [|k IH]; [done|]. simpl.
  by repeat (first [rewrite filter_cons_True by done
                   |rewrite filter_cons_False by done]).
Qed.

(** ** Paths *)

Lemma nsteps_subrel {A} (R R' : relation A) k x y :
  (∀ a b, R a b → R' a b) → nsteps R k x y → nsteps R' k x y.
Proof.
  intros Hsub. induction 1 as [|k x y z Hxy _ IH]; [constructor|].
  econstructor; [by apply Hsub|done].
Qed.

Section traversal_facts.
Variable mst_symmetric : nat → nat → Q.
Variable n : nat.
Variable root_idx : nat.

Lemma visit_neighbor_cases node st neighbor :
  (neighbor < length (visited st))%nat →
  (visit_neighbor mst_symmetric node st neighbor = st
   ∧ ((mst_symmetric node neighbor <= 0)%Q
      ∨ visited st !! neighbor = Some true))
  ∨ (visit_neighbor mst_symmetric node st neighbor
     = {| visited := <[neighbor:=true]> (visited st);
          parent := <[neighbor:=Z.of_nat node]> (parent st);
          queue := queue st ++ [neighbor] |}
     ∧ (0 < mst_symmetric node neighbor)%Q
     ∧ visited st !! neighbor = Some false).
Proof.
  intros Hlt. unfold visit_neighbor.
  destruct (lookup_lt_is_Some_2 _ _ Hlt) as [b Hb].
  rewrite (list_lookup_total_correct _ _ _ Hb).
  destruct (Qlt_bool 0 (mst_symmetric node neighbor)) eqn:E; simpl.
  - apply Qlt_bool_iff in E. destruct b; simpl; [left|right]; auto.
  - left. split; [done|]. left.
    apply Qnot_lt_le. intros Hlt'%Qlt_bool_iff. congruence.
Qed.

Lemma visit_neighbor_inv node st neighbor :
  (neighbor < n)%nat →
  visited st !! node = Some true →
  bfs_inv mst_symmetric n root_idx st →
  bfs_inv mst_symmetric n root_idx
    (visit_neighbor mst_symmetric node st neighbor)
  ∧ visited (visit_neighbor mst_symmetric node st neighbor) !! node
    = Some true
  ∧ bfs_measure (visit_neighbor mst_symmetric node st neighbor)
    = bfs_measure st.
Proof.
  intros Hnb Hnode (Hlv & Hlp & Hroot & Hproot & Hq & Hpath).
  destruct (visit_neighbor_cases node st neighbor) as [[-> _]|(-> & Hpos & Hnv)];
    [lia|by repeat split|].
  assert (∀ i, visited st !! i = Some true →
               <[neighbor:=true]> (visited st) !! i = Some true) as Hmono.
  { intros i Hi. destruct (decide (i = neighbor)) as [->|Hne].
    - congruence.
    - by rewrite list_lookup_insert_ne. }
  assert (∀ a b, tree_edge mst_symmetric (visited st) (parent st) a b →
                 tree_edge mst_symmetric (<[neighbor:=true]> (visited st))
                   (<[neighbor:=Z.of_nat node]> (parent st)) a b) as Hsub.
  { intros a b (Ha & Hp & Hb & Hw). split_and!; [by apply Hmono| |by apply Hmono|done].
    rewrite list_lookup_insert_ne; [done|]. intros <-. congruence. }
  destruct (count_insert_true (visited st) neighbor Hnv) as [Hct Hcf].
  split_and!; simpl.
  - unfold bfs_inv. simpl. split_and!.
    + by rewrite length_insert.
    + by rewrite length_insert.
    + by apply Hmono.
    + rewrite list_lookup_insert_ne; [done|]. intros <-. congruence.
    + apply Forall_app. split.
      * eapply Forall_impl; [exact Hq|]. intros q. apply Hmono.
      * constructor; [|constructor].
        apply list_lookup_insert_eq. lia.
    + intros i Hi. unfold count_visited. rewrite Hct.
      destruct (decide (i = neighbor)) as [->|Hne].
      * destruct (Hpath node Hnode) as (k & Hk & Hlt).
        exists (S k). split; [|unfold count_visited in Hlt; lia].
        eapply nsteps_l; [|eapply nsteps_subrel; [exact Hsub|exact Hk]].
        split_and!.
        -- apply list_lookup_insert_eq. lia.
        -- apply list_lookup_insert_eq. lia.
        -- by apply Hmono.
        -- done.
      * rewrite list_lookup_insert_ne in Hi by done.
        destruct (Hpath i Hi) as (k & Hk & Hlt).
        exists k. split; [|unfold count_visited in Hlt; lia].
        eapply nsteps_subrel; [exact Hsub|exact Hk].
  - by apply Hmono.
  - unfold bfs_measure. simpl. rewrite length_app. simpl. lia.
Qed.

Lemma visit_neighbors_inv node l st :
  Forall (λ x, x < n)%nat l →
  visited st !! node = Some true →
  bfs_inv mst_symmetric n root_idx st →
  bfs_inv mst_symmetric n root_idx
    (foldl (visit_neighbor mst_symmetric node) st l)
  ∧ bfs_measure (foldl (visit_neighbor mst_symmetric node) st l)
    = bfs_measure st.
Proof.
  revert st. induction l as [|x l IH]; intros st Hl Hnode Hinv; [done|].
  apply Forall_cons in Hl as [Hx Hl]. cbn [foldl].
  destruct (visit_neighbor_inv node st x Hx Hnode Hinv) as (Hinv' & Hnode' & Hm).
  destruct (IH _ Hl Hnode' Hinv') as [Hinv'' Hm'].
  split; [done|congruence].
Qed.

Lemma bfs_step_inv node rest st :
  queue st = node :: rest →
  bfs_inv mst_symmetric n root_idx st →
  bfs_inv mst_symmetric n root_idx (bfs_step mst_symmetric n node rest st)
  ∧ S (bfs_measure (bfs_step mst_symmetric n node rest st)) = bfs_measure st.
Proof.
  intros Hq (Hlv & Hlp & Hroot & Hproot & Hqs & Hpath).
  rewrite Hq in Hqs. apply Forall_cons in Hqs as [Hnode Hrest].
  unfold bfs_step.
  destruct (visit_neighbors_inv node (seq 0 n)
              {| visited := visited st; parent := parent st; queue := rest |})
    as [Hinv Hm].
  - apply Forall_forall. intros x Hx%elem_of_seq. lia.
  - done.
  - by repeat split.
  - split; [done|]. rewrite Hm. unfold bfs_measure. simpl. by rewrite Hq.
Qed.

(** The loop ends within the fuel of the number of queued and unvisited
    indices, and keeps the invariant. *)
Lemma bfs_loop_inv fuel st :
  (bfs_measure st ≤ fuel)%nat →
  bfs_inv mst_symmetric n root_idx st →
  ∃ st', bfs_loop mst_symmetric n fuel st = Ok st'
         ∧ bfs_inv mst_symmetric n root_idx st'.
Proof.
  revert st. induction fuel as [|fuel IH]; intros st Hm Hinv.
  - unfold bfs_measure in Hm. simpl.
    destruct (queue st) as [|node rest] eqn:E; [by exists st|].
    simpl in Hm. lia.
  - simpl. destruct (queue st) as [|node rest] eqn:E; [by exists st|].
    destruct (bfs_step_inv node rest st E Hinv) as [Hinv' Hm'].
    apply IH; [lia|done].
Qed.

Lemma bfs_init_inv :
  (root_idx < n)%nat →
  bfs_inv mst_symmetric n root_idx (bfs_init n root_idx)
  ∧ bfs_measure (bfs_init n root_idx) = n.
Proof.
  intros Hroot.
  assert (replicate n false !! root_idx = Some false) as Hr.
  { apply lookup_replicate_2. lia. }
  destruct (count_insert_true _ _ Hr) as [Hct Hcf].
  rewrite count_replicate_false in Hct.
  pose proof (count_true_false (<[root_idx:=true]> (replicate n false))) as Hsum.
  rewrite length_insert, length_replicate in Hsum.
  split.
  - unfold bfs_inv, bfs_init. simpl. split_and!.
    + by rewrite length_insert, length_replicate.
    + by rewrite length_replicate.
    + apply list_lookup_insert_eq. rewrite length_replicate. lia.
    + apply lookup_replicate_2. lia.
    + constructor; [|constructor].
      apply list_lookup_insert_eq. rewrite length_replicate. lia.
    + intros i Hi. destruct (decide (i = root_idx)) as [->|Hne].
      * exists 0%nat. split; [constructor|]. unfold count_visited. lia.
      * rewrite list_lookup_insert_ne in Hi by done.
        apply lookup_replicate in Hi as [? _]. done.
  - unfold bfs_measure, bfs_init. simpl. lia.
Qed.

(** ** The fallback loop *)

Lemma attach_unvisited_step_length vis par x :
  length (attach_unvisited root_idx vis par x) = length par.
Proof.
  unfold attach_unvisited. case_match; [|done]. by rewrite length_insert.
Qed.

Lemma attach_unvisited_step_lookup vis par x i :
  attach_unvisited root_idx vis par x !! i
  = if decide (i = x ∧ vis !!! i = false ∧ (i < length par)%nat)
    then Some (Z.of_nat root_idx) else par !! i.
Proof.
  unfold attach_unvisited. destruct (vis !!! x) eqn:Ex; simpl.
  - rewrite decide_False; [done|]. intros (-> & ? & ?). congruence.
  - destruct (decide (i = x)) as [->|Hne].
    + destruct (decide (x < length par)%nat) as [Hlt|Hge].
      * rewrite list_lookup_insert_eq by done. by rewrite decide_True.
      * rewrite decide_False by (intros (? & ? & ?); lia).
        rewrite list_insert_ge; [done|]. lia.
    + rewrite list_lookup_insert_ne by done.
      rewrite decide_False; [done|]. by intros (? & ? & ?).
Qed.

Lemma attach_unvisited_length vis l par :
  length (foldl (attach_unvisited root_idx vis) par l) = length par.
Proof.
  revert par. induction l as [|x l IH]; intros par; cbn [foldl]; [done|].
  by rewrite IH, attach_unvisited_step_length.
Qed.

Lemma attach_unvisited_lookup vis l par i :
  (foldl (attach_unvisited root_idx vis) par l) !! i
  = if decide (i ∈ l ∧ vis !!! i = false ∧ (i < length par)%nat)
    then Some (Z.of_nat root_idx) else par !! i.
Proof.
  revert par. induction l as [|x l IH]; intros par; cbn [foldl].
  - rewrite decide_False; [done|]. intros [?%not_elem_of_nil _]. done.
  - rewrite IH, attach_unvisited_step_length, attach_unvisited_step_lookup.
    destruct (decide (i ∈ l ∧ _)) as [(? & ? & ?)|Hn1].
    + rewrite decide_True; [done|]. split_and!; [by right|done..].
    + destruct (decide (i = x ∧ _)) as [(-> & ? & ?)|Hn2].
      * rewrite decide_True; [done|]. split_and!; [left|done..].
      * rewrite decide_False; [done|].
        intros ([->|?]%elem_of_cons & ? & ?); [by apply Hn2|by apply Hn1].
Qed.
End traversal_facts.

Section tree_facts.
Variable mst_symmetric : nat → nat → Q.
Variable n : nat.
Variable root_idx : nat.

(** What the two loops of the traversal leave in [visited] and [parent]. *)
Lemma tree_parents_spec :
  (root_idx < n)%nat →
  ∃ vis par,
    tree_parents mst_symmetric n root_idx = Ok (vis, par)
    ∧ length vis = n ∧ length par = n
    ∧ vis !! root_idx = Some true
    ∧ par !! root_idx = Some (-1)
    ∧ (∀ i, vis !! i = Some false → par !! i = Some (Z.of_nat root_idx))
    ∧ ∀ i, vis !! i = Some true →
        ∃ k, nsteps (tree_edge mst_symmetric vis par) k i root_idx
             ∧ (k < count_visited vis)%nat.
Proof.
  intros Hroot. unfold tree_parents.
  destruct (bfs_init_inv mst_symmetric n root_idx Hroot) as [Hinv0 Hm0].
  destruct (bfs_loop_inv mst_symmetric n root_idx n (bfs_init n root_idx))
    as (st & -> & Hlv & Hlp & Hvroot & Hproot & _ & Hpath); [lia|done|].
  simpl. eexists _, _. split; [done|].
  assert (∀ i, visited st !! i = Some true →
    foldl (attach_unvisited root_idx (visited st)) (parent st) (seq 0 n) !! i
    = parent st !! i) as Hkeep.
  { intros i Hi. rewrite attach_unvisited_lookup.
    rewrite decide_False; [done|]. intros (_ & Hf & _).
    rewrite (list_lookup_total_correct _ _ _ Hi) in Hf. done. }
  split_and!.
  - done.
  - by rewrite attach_unvisited_length.
  - done.
  - by rewrite Hkeep.
  - intros i Hi. rewrite attach_unvisited_lookup.
    assert (i < n)%nat as Hlt.
    { apply lookup_lt_Some in Hi. lia. }
    rewrite decide_True; [done|]. split_and!.
    + apply elem_of_seq. lia.
    + by rewrite (list_lookup_total_correct _ _ _ Hi).
    + lia.
  - intros i Hi. destruct (Hpath i Hi) as (k & Hk & Hlt).
    exists k. split; [|done].
    eapply nsteps_subrel; [|exact Hk].
    intros a b (Ha & Hp & Hb & Hw). split_and!; [done| |done..].
    by rewrite Hkeep.
Qed.

(** The parent list describes a tree rooted at [root_idx]: every visited
    index other than the root has a visited parent across a positive entry,
    every unvisited index has the root as parent, and the parents lead from
    every index to the root in at most [n] steps. *)
Lemma tree_parents_tree :
  (root_idx < n)%nat →
  ∃ vis par,
    tree_parents mst_symmetric n root_idx = Ok (vis, par)
    ∧ length vis = n ∧ length par = n
    ∧ vis !! root_idx = Some true
    ∧ par !! root_idx = Some (-1)
    ∧ (∀ i, vis !! i = Some false → par !! i = Some (Z.of_nat root_idx))
    ∧ (∀ i, vis !! i = Some true → i ≠ root_idx →
         ∃ j, par !! i = Some (Z.of_nat j) ∧ vis !! j = Some true
              ∧ (0 < mst_symmetric j i)%Q)
    ∧ (∀ i, vis !! i = Some true →
         ∃ k, nsteps (tree_edge mst_symmetric vis par) k i root_idx)
    ∧ (∀ i, (i < n)%nat → i ≠ root_idx →
         ∃ j, par !! i = Some (Z.of_nat j) ∧ (j < n)%nat)
    ∧ ∀ i, (i < n)%nat →
        ∃ k, (k ≤ n)%nat
             ∧ nsteps (λ a b, par !! a = Some (Z.of_nat b)) k i root_idx.
Proof.
  intros Hroot.
  destruct (tree_parents_spec Hroot)
    as (vis & par & Htp & Hlv & Hlp & Hvroot & Hproot & Hunv & Hpath).
  exists vis, par.
  assert (∀ i, vis !! i = Some true → i ≠ root_idx →
            ∃ j, par !! i = Some (Z.of_nat j) ∧ vis !! j = Some true
                 ∧ (0 < mst_symmetric j i)%Q) as Hedge.
  { intros i Hi Hne. destruct (Hpath i Hi) as (k & Hk & _).
    inversion Hk as [|k' ? j ? (_ & Hp & Hj & Hw) _]; subst; [done|].
    by exists j. }
  split_and!; try done.
  - intros i Hi. destruct (Hpath i Hi) as (k & Hk & _). by exists k.
  - intros i Hi Hne.
    destruct (lookup_lt_is_Some_2 vis i) as [[] Hb]; [lia| |].
    + destruct (Hedge i Hb Hne) as (j & Hp & Hj & _).
      exists j. split; [done|]. apply lookup_lt_Some in Hj. lia.
    + exists root_idx. split; [by apply Hunv|done].
  - intros i Hi.
    destruct (lookup_lt_is_Some_2 vis i) as [[] Hb]; [lia| |].
    + destruct (Hpath i Hb) as (k & Hk & Hlt).
      exists k. split.
      * pose proof (count_true_le vis). unfold count_visited in Hlt. lia.
      * eapply nsteps_subrel; [|exact Hk]. by intros a b (_ & Hp & _).
    + exists 1%nat. split; [lia|]. apply nsteps_once. by apply Hunv.
Qed.
End tree_facts.

(** ** The traversal and the reads of the array *)

Section traversal_array_facts.
Variable mst_symmetric : square_array.
Variable n : nat.

Lemma sq_get_Ok i j :
  (i < sq_dim mst_symmetric)%nat → (j < sq_dim mst_symmetric)%nat →
  sq_get mst_symmetric i j = Ok (sq_entry mst_symmetric i j).
Proof. intros Hi Hj. unfold sq_get. by rewrite decide_True. Qed.

Lemma sq_get_IndexError i j :
  (sq_dim mst_symmetric ≤ i)%nat ∨ (sq_dim mst_symmetric ≤ j)%nat →
  sq_get mst_symmetric i j = Raise IndexError.
Proof. intros Hij. unfold sq_get. rewrite decide_False; [done|lia]. Qed.

Lemma visit_neighbors_read_failed node (r : result bfs_state) l :
  failure r ≠ None → foldl (visit_neighbor_read mst_symmetric node) r l = r.
Proof.
  intros Hr. induction l as [|x l IH]; cbn [foldl]; [done|].
  assert (visit_neighbor_read mst_symmetric node r x = r) as ->; [|done].
  by destruct r.
Qed.

(** Within the array the reads return, and the loop is the one over the
    entries. *)
Lemma visit_neighbors_read_Ok node st l :
  (node < sq_dim mst_symmetric)%nat →
  Forall (λ x, x < sq_dim mst_symmetric)%nat l →
  foldl (visit_neighbor_read mst_symmetric node) (Ok st) l
  = Ok (foldl (visit_neighbor (sq_entry mst_symmetric) node) st l).
Proof.
  intros Hnode Hl. revert st.
  induction Hl as [|x l Hx Hl IH]; intros st; cbn [foldl]; [done|].
  assert (visit_neighbor_read mst_symmetric node (Ok st) x
          = Ok (visit_neighbor (sq_entry mst_symmetric) node st x)) as ->.
  { unfold visit_neighbor_read, visit_neighbor. cbn [rbind].
    by rewrite sq_get_Ok. }
  apply IH.
Qed.

Lemma bfs_step_read_Ok node rest st :
  (n ≤ sq_dim mst_symmetric)%nat → (node < n)%nat →
  bfs_step_read mst_symmetric n node rest st
  = Ok (bfs_step (sq_entry mst_symmetric) n node rest st).
Proof.
  intros Hn Hnode. apply visit_neighbors_read_Ok; [lia|].
  apply Forall_forall. intros x Hx%elem_of_seq. lia.
Qed.

(** An array with fewer rows than items: the first pass over the neighbours
    reads beyond it. *)
Lemma bfs_step_read_IndexError node rest st :
  (sq_dim mst_symmetric < n)%nat →
  bfs_step_read mst_symmetric n node rest st = Raise IndexError.
Proof.
  intros Hn. unfold bfs_step_read.
  set (d := sq_dim mst_symmetric).
  set (st0 := {| visited := visited st; parent := parent st; queue := rest |}).
  destruct (decide (node < d)%nat) as [Hnode|Hnode].
  - replace n with (d + S (n - S d))%nat by lia.
    rewrite seq_app, foldl_app. cbn [seq foldl].
    rewrite visit_neighbors_read_Ok; [|done|].
    + assert (visit_neighbor_read mst_symmetric node
                (Ok (foldl (visit_neighbor (sq_entry mst_symmetric) node) st0
                       (seq 0 d))) (0 + d)%nat = Raise IndexError) as ->.
      { unfold visit_neighbor_read. cbn [rbind].
        rewrite sq_get_IndexError; [done|]. fold d. lia. }
      by apply visit_neighbors_read_failed.
    + apply Forall_forall. intros x Hx%elem_of_seq. fold d. lia.
  - replace n with (S (n - 1))%nat by lia. cbn [seq foldl].
    assert (visit_neighbor_read mst_symmetric node (Ok st0) 0%nat
            = Raise IndexError) as ->.
    { unfold visit_neighbor_read. cbn [rbind].
      rewrite sq_get_IndexError; [done|]. fold d. lia. }
    by apply visit_neighbors_read_failed.
Qed.

Lemma bfs_loop_read_Ok root_idx fuel st :
  (n ≤ sq_dim mst_symmetric)%nat →
  bfs_inv (sq_entry mst_symmetric) n root_idx st →
  bfs_loop_read mst_symmetric n fuel st
  = bfs_loop (sq_entry mst_symmetric) n fuel st.
Proof.
  intros Hn. revert st. induction fuel as [|fuel IH]; intros st Hinv.
  - done.
  - cbn [bfs_loop_read bfs_loop].
    destruct (queue st) as [|node rest] eqn:E; [done|].
    assert (node < n)%nat as Hnode.
    { destruct Hinv as (Hlv & _ & _ & _ & Hq & _). rewrite E in Hq.
      apply Forall_cons in Hq as [Hq _]. apply lookup_lt_Some in Hq. lia. }
    rewrite bfs_step_read_Ok by done. cbn [rbind]. apply IH.
    by apply (bfs_step_inv (sq_entry mst_symmetric) n root_idx node rest st).
Qed.

(** With an array that covers the items the traversal is the one over its
    entries. *)
Lemma tree_parents_read_Ok root_idx :
  (n ≤ sq_dim mst_symmetric)%nat → (root_idx < n)%nat →
  tree_parents_read mst_symmetric n root_idx
  = tree_parents (sq_entry mst_symmetric) n root_idx.
Proof.
  intros Hn Hroot. unfold tree_parents_read, tree_parents.
  rewrite (bfs_loop_read_Ok root_idx); [done..|].
  by apply bfs_init_inv.
Qed.

Lemma bfs_loop_read_IndexError fuel st :
  (sq_dim mst_symmetric < n)%nat → queue st ≠ [] → fuel ≠ 0%nat →
  bfs_loop_read mst_symmetric n fuel st = Raise IndexError.
Proof.
  intros Hn Hq Hfuel. destruct fuel as [|fuel]; [done|].
  cbn [bfs_loop_read]. destruct (queue st) as [|node rest]; [done|].
  by rewrite bfs_step_read_IndexError.
Qed.

Lemma tree_parents_read_IndexError root_idx :
  (sq_dim mst_symmetric < n)%nat →
  tree_parents_read mst_symmetric n root_idx = Raise IndexError.
Proof.
  intros Hn. unfold tree_parents_read.
  rewrite bfs_loop_read_IndexError; [done..|lia].
Qed.
End traversal_array_facts.

Lemma parent_id_none items p : p < 0 → parent_id items p = Ok None.
Proof.
  intros Hp. unfold parent_id.
  destruct (0 <=? p) eqn:E; [apply Z.leb_le in E; lia|done].
Qed.

Lemma parent_id_index items j it :
  items !! j = Some it → parent_id items (Z.of_nat j) = Ok (Some (item_id it)).
Proof.
  intros Hj. unfold parent_id.
  destruct (0 <=? Z.of_nat j) eqn:E; [|apply Z.leb_gt in E; lia].
  by rewrite Nat2Z.id, Hj.
Qed.

Lemma result_mapM_failure {A B} (f : A → result B) l fl :
  failure (result_mapM f l) = Some fl → ∃ x, x ∈ l ∧ failure (f x) = Some fl.
Proof.
  induction l as [|x l IH]; cbn [result_mapM]; [done|].
  destruct (f x) as [y| |] eqn:Hx; cbn [rbind].
  - destruct (result_mapM f l) as [ys| |]; cbn [rbind]; [done| |].
    + intros Hf. destruct (IH Hf) as (x' & Hin & Hf').
      exists x'. split; [by right|done].
    + intros Hf. destruct (IH Hf) as (x' & Hin & Hf').
      exists x'. split; [by right|done].
  - intros Hf. exists x. split; [left|by rewrite Hx].
  - intros Hf. exists x. split; [left|by rewrite Hx].
Qed.

Section phylogeny_facts.
Variable minimum_spanning_tree : matrix Q → result square_array.
Variable strftime : string → Z → result string.

Lemma make_node_inv items par i it nd :
  make_node strftime items par (i, it) = Ok nd →
  node_id nd = item_id it
  ∧ node_timestamp nd = item_timestamp it
  ∧ node_cluster nd = item_cluster it
  ∧ strftime "%Y-%m-%d" (item_timestamp it) = Ok (node_date nd).
Proof.
  unfold make_node. intros (d & Hd & H)%rbind_Ok.
  destruct (par !! i) as [p|]; [|done].
  by apply rbind_Ok in H as (pid & _ & [= <-]).
Qed.

(** With a parent index to read, a node fails only as the formatting of
    its date does. *)
Lemma make_node_failure items par i it p pid f :
  par !! i = Some p → parent_id items p = Ok pid →
  failure (make_node strftime items par (i, it)) = Some f →
  failure (strftime "%Y-%m-%d" (item_timestamp it)) = Some f.
Proof.
  intros Hp Hpid. unfold make_node. rewrite Hp, Hpid.
  by destruct (strftime _ _).
Qed.

(** When scipy returns an array that covers the items and the dates of the
    items can be formatted, [build_phylogeny_tree] returns for every
    non-empty list of items; the root is the first item with the least
    timestamp, and every node carries the id of the item at its parent
    index. *)
Lemma build_phylogeny_tree_spec distances items mst_array :
  items ≠ [] →
  minimum_spanning_tree (distances_fallback distances) = Ok mst_array →
  (length items ≤ sq_dim mst_array)%nat →
  (∀ it, it ∈ items → ∃ d, strftime "%Y-%m-%d" (item_timestamp it) = Ok d) →
  ∃ tree root_idx root vis par,
    build_phylogeny_tree minimum_spanning_tree strftime distances items
    = Ok tree
    ∧ argmin (item_timestamp <$> items) = Ok root_idx
    ∧ items !! root_idx = Some root
    ∧ Forall (λ it, item_timestamp root ≤ item_timestamp it) items
    ∧ (∀ k it, (k < root_idx)%nat → items !! k = Some it →
         item_timestamp root < item_timestamp it)
    ∧ tree_parents_read (sq_add_transpose mst_array) (length items) root_idx
      = Ok (vis, par)
    ∧ tree_parents (sq_entry (sq_add_transpose mst_array)) (length items)
        root_idx
      = Ok (vis, par)
    ∧ phylogeny_root_id tree = item_id root
    ∧ length (phylogeny_nodes tree) = length items
    ∧ ∀ i it, items !! i = Some it →
        ∃ nd p, phylogeny_nodes tree !! i = Some nd
          ∧ par !! i = Some p
          ∧ parent_id items p = Ok (node_parent nd)
          ∧ node_id nd = item_id it
          ∧ node_timestamp nd = item_timestamp it
          ∧ node_cluster nd = item_cluster it.
Proof.
  intros Hne Hmst Hdim Hfmt.
  destruct (argmin_spec (item_timestamp <$> items))
    as (root_idx & v & Hargmin & Hv & Hmin & Hfirst).
  { by destruct items. }
  apply list_lookup_fmap_Some in Hv as (root & -> & Hroot).
  assert (root_idx < length items)%nat as Hlt by (by eapply lookup_lt_Some).
  destruct (tree_parents_tree (sq_entry (sq_add_transpose mst_array))
              (length items) root_idx Hlt)
    as (vis & par & Htp & Hlv & Hlp & Hvroot & Hproot & Hunv & Hedge & _
        & Hpar & _).
  assert (tree_parents_read (sq_add_transpose mst_array) (length items)
            root_idx = Ok (vis, par)) as Htpr.
  { by rewrite tree_parents_read_Ok. }
  destruct (py_min_spec (item_timestamp <$> items)) as (mn & Hmn & Hmn' & _).
  { by destruct items. }
  destruct (py_max_spec (item_timestamp <$> items)) as (mx & Hmx & Hmx' & _).
  { by destruct items. }
  assert (∀ ts, ts ∈ item_timestamp <$> items →
            ∃ d, strftime "%Y-%m-%d" ts = Ok d) as Hfmt'.
  { intros ts (it & -> & Hit)%list_elem_of_fmap. by apply Hfmt. }
  destruct (Hfmt' mn Hmn') as [dmn Hdmn].
  destruct (Hfmt' mx Hmx') as [dmx Hdmx].
  assert (∀ i it, items !! i = Some it →
            ∃ p pid, par !! i = Some p ∧ parent_id items p = Ok pid) as Hpid.
  { intros i it Hi.
    assert (i < length items)%nat as Hi' by (by eapply lookup_lt_Some).
    destruct (decide (i = root_idx)) as [->|Hir].
    - exists (-1), None. split; [done|]. by apply parent_id_none.
    - destruct (Hpar i Hi' Hir) as (j & Hp & Hj).
      destruct (lookup_lt_is_Some_2 items j Hj) as [pit Hpit].
      exists (Z.of_nat j), (Some (item_id pit)). split; [done|].
      by apply parent_id_index. }
  destruct (result_mapM_total (make_node strftime items par) (imap pair items))
    as [nodes Hnodes].
  { intros [i it] Hin.
    apply elem_of_lookup_imap in Hin as (i' & it' & [= <- <-] & Hi).
    destruct (Hpid i it Hi) as (p & pid & Hp & Hpid').
    destruct (Hfmt it) as [d Hd]; [by eapply list_elem_of_lookup_2|].
    unfold make_node. rewrite Hd, Hp, Hpid'. simpl. by eexists. }
  eexists _, root_idx, root, vis, par. split_and!.
  - unfold build_phylogeny_tree. rewrite Hmst. cbn [rbind].
    rewrite Hargmin, Hmn. cbn [rbind]. rewrite Hdmn. cbn [rbind].
    rewrite Htpr. cbn [rbind snd]. rewrite Hnodes. cbn [rbind].
    rewrite Hroot. cbn [rbind]. rewrite ?Hdmn. cbn [rbind].
    rewrite Hmx. cbn [rbind]. rewrite Hdmx. cbn [rbind]. reflexivity.
  - done.
  - done.
  - apply Forall_forall. intros it Hit. rewrite Forall_forall in Hmin.
    apply Hmin, list_elem_of_fmap. eauto.
  - intros k it Hk Hit. apply (Hfirst k); [done|].
    by rewrite list_lookup_fmap, Hit.
  - done.
  - done.
  - done.
  - simpl. apply result_mapM_Ok, Forall2_length in Hnodes.
    by rewrite <- Hnodes, length_imap.
  - intros i it Hi. simpl.
    apply result_mapM_Ok in Hnodes.
    assert (imap pair items !! i = Some (i, it)) as Himap.
    { by rewrite list_lookup_imap, Hi. }
    destruct (Forall2_lookup_l _ _ _ _ _ Hnodes Himap) as (nd & Hnd & Hmk).
    destruct (Hpid i it Hi) as (p & pid & Hp & Hpid').
    pose proof (make_node_inv _ _ _ _ _ Hmk) as (Hid & Hts & Hcl & _).
    unfold make_node in Hmk.
    apply rbind_Ok in Hmk as (d & Hd & Hmk).
    rewrite Hp, Hpid' in Hmk. simpl in Hmk.
    injection Hmk as <-. eexists _, p. split_and!; done.
Qed.
End phylogeny_facts.

Section traversal_complete.
Variable mst_symmetric : nat → nat → Q.
Variable n : nat.
Variable root_idx : nat.

Lemma visit_neighbor_mono node st neighbor i :
  (neighbor < length (visited st))%nat →
  visited st !! i = Some true →
  visited (visit_neighbor mst_symmetric node st neighbor) !! i = Some true.
Proof.
  intros Hlt Hi.
  destruct (visit_neighbor_cases mst_symmetric node st neighbor Hlt)
    as [[-> _]|(-> & _ & Hnv)]; [done|]. simpl.
  destruct (decide (i = neighbor)) as [->|Hne]; [congruence|].
  by rewrite list_lookup_insert_ne.
Qed.

Lemma visit_neighbor_length node st neighbor :
  length (visited (visit_neighbor mst_symmetric node st neighbor))
  = length (visited st).
Proof.
  unfold visit_neighbor. case_match; [|done]. simpl.
  by rewrite length_insert.
Qed.

(** The inner loop: the indices other than [node] stay closed, and the
    positive neighbours of [node] met so far are visited. *)
Lemma visit_neighbors_closed node l st :
  length (visited st) = n →
  Forall (λ x, x < n)%nat l →
  (∀ a b, a ≠ node → visited st !! a = Some true → a ∉ queue st →
          (b < n)%nat → (0 < mst_symmetric a b)%Q →
          visited st !! b = Some true) →
  let st' := foldl (visit_neighbor mst_symmetric node) st l in
  length (visited st') = n
  ∧ (∀ i, visited st !! i = Some true → visited st' !! i = Some true)
  ∧ (∀ a b, a ≠ node → visited st' !! a = Some true → a ∉ queue st' →
            (b < n)%nat → (0 < mst_symmetric a b)%Q →
            visited st' !! b = Some true)
  ∧ (∀ b, b ∈ l → (0 < mst_symmetric node b)%Q →
          visited st' !! b = Some true).
Proof.
  revert st. induction l as [|x l IH]; intros st Hlen Hl Hcl; cbn [foldl].
  - cbv zeta. split_and!; [done..|]. by intros b ?%not_elem_of_nil.
  - apply Forall_cons in Hl as [Hx Hl].
    assert (x < length (visited st))%nat as Hx' by lia.
    destruct (IH (visit_neighbor mst_symmetric node st x))
      as (Hlen' & Hmono & Hcl' & Hdone).
    + by rewrite visit_neighbor_length.
    + done.
    + intros a b Ha Hva Hq Hb Hw.
      destruct (visit_neighbor_cases mst_symmetric node st x Hx')
        as [[Heq _]|(Heq & _ & Hnv)]; rewrite Heq in *; [by eapply Hcl|].
      simpl in *. apply not_elem_of_app in Hq as [Hq Hax].
      apply not_elem_of_cons in Hax as [Hax _].
      rewrite list_lookup_insert_ne in Hva by done.
      pose proof (Hcl a b Ha Hva Hq Hb Hw) as Hvb.
      destruct (decide (b = x)) as [->|Hbx]; [congruence|].
      by rewrite list_lookup_insert_ne.
    + cbv zeta. split_and!; [done| |done|].
      * intros i Hi. by apply Hmono, visit_neighbor_mono.
      * intros b [->|Hb]%elem_of_cons Hw; [|by apply Hdone].
        apply Hmono.
        destruct (visit_neighbor_cases mst_symmetric node st x Hx')
          as [[-> [Hle|Hv]]|(-> & _ & _)].
        -- exfalso. by apply (Qlt_not_le _ _ Hw).
        -- done.
        -- simpl. by apply list_lookup_insert_eq.
Qed.

Lemma bfs_step_closed node rest st :
  queue st = node :: rest →
  length (visited st) = n →
  bfs_closed mst_symmetric n st →
  bfs_closed mst_symmetric n (bfs_step mst_symmetric n node rest st).
Proof.
  intros Hq Hlen Hcl. unfold bfs_step.
  destruct (visit_neighbors_closed node (seq 0 n)
              {| visited := visited st; parent := parent st; queue := rest |})
    as (_ & _ & Hcl' & Hdone).
  - done.
  - apply Forall_forall. intros x Hx%elem_of_seq. lia.
  - intros a b Ha Hva Hqa Hb Hw. simpl in *.
    apply (Hcl a b); [done| |done..].
    rewrite Hq. by apply not_elem_of_cons.
  - intros a b Hva Hqa Hb Hw.
    destruct (decide (a = node)) as [->|Ha].
    + apply Hdone; [|done]. apply elem_of_seq. lia.
    + by apply (Hcl' a b).
Qed.

Lemma bfs_loop_closed fuel st :
  (bfs_measure st ≤ fuel)%nat →
  bfs_inv mst_symmetric n root_idx st →
  bfs_closed mst_symmetric n st →
  ∃ st', bfs_loop mst_symmetric n fuel st = Ok st'
         ∧ bfs_inv mst_symmetric n root_idx st'
         ∧ bfs_closed mst_symmetric n st'
         ∧ queue st' = [].
Proof.
  revert st. induction fuel as [|fuel IH]; intros st Hm Hinv Hcl.
  - unfold bfs_measure in Hm. simpl.
    destruct (queue st) as [|node rest] eqn:E; [by exists st|].
    simpl in Hm. lia.
  - simpl. destruct (queue st) as [|node rest] eqn:E; [by exists st|].
    destruct (bfs_step_inv mst_symmetric n root_idx node rest st E Hinv)
      as [Hinv' Hm'].
    apply IH; [lia|done|].
    apply bfs_step_closed; [done| |done]. by destruct Hinv.
Qed.

Lemma bfs_init_closed :
  (root_idx < n)%nat → bfs_closed mst_symmetric n (bfs_init n root_idx).
Proof.
  intros Hroot a b Ha Hq. unfold bfs_init in *. simpl in *.
  exfalso. apply Hq. apply list_elem_of_singleton.
  destruct (decide (a = root_idx)) as [|Hne]; [done|].
  rewrite list_lookup_insert_ne in Ha by done.
  apply lookup_replicate in Ha as [? _]. done.
Qed.

Lemma tree_path_rtc vis par k i r :
  length vis = n →
  nsteps (tree_edge mst_symmetric vis par) k i r →
  rtc (λ a b, (0 < mst_symmetric a b)%Q ∧ (b < n)%nat) r i.
Proof.
  intros Hlen. induction 1 as [|k x y z (Hx & _ & _ & Hw) _ IH]; [done|].
  eapply rtc_r; [exact IH|]. split; [done|].
  apply lookup_lt_Some in Hx. lia.
Qed.

(** The traversal visits exactly the indices that a chain of positive
    entries joins to the root. *)
Lemma tree_parents_visited :
  (root_idx < n)%nat →
  ∃ vis par,
    tree_parents mst_symmetric n root_idx = Ok (vis, par)
    ∧ ∀ i, (i < n)%nat →
        (vis !! i = Some true
         ↔ rtc (λ a b, (0 < mst_symmetric a b)%Q ∧ (b < n)%nat) root_idx i).
Proof.
  intros Hroot.
  destruct (tree_parents_tree mst_symmetric n root_idx Hroot)
    as (vis & par & Htp & Hlv & Hlp & Hvroot & Hproot & Hunv & Hedge & Hpath
        & _).
  exists vis, par. split; [done|].
  unfold tree_parents in Htp.
  destruct (bfs_init_inv mst_symmetric n root_idx Hroot) as [Hinv0 Hm0].
  destruct (bfs_loop_closed n (bfs_init n root_idx))
    as (st & Hst & Hinv & Hcl & Hq);
    [lia|done|by apply bfs_init_closed|].
  rewrite Hst in Htp. simpl in Htp. injection Htp as <- _.
  intros i Hi. split.
  - intros Hv. destruct (Hpath i Hv) as (k & Hk).
    by eapply tree_path_rtc.
  - intros Hr. clear Hi. revert i Hr.
    apply (rtc_ind_r (λ i, visited st !! i = Some true)); [done|].
    intros y z Hry [Hw Hz] IH.
    apply (Hcl y z); [done| |done..].
    rewrite Hq. apply not_elem_of_nil.
Qed.
End traversal_complete.

(** No positive entry crosses the cut: an index that a chain of positive
    entries joins to the root lies on the root's side. *)
Lemma reach_same_side (mst_symmetric : nat → nat → Q) (n : nat)
    (far : nat → bool) root_idx b :
  (∀ a b, far a = false → far b = true → ¬ (0 < mst_symmetric a b)%Q) →
  far root_idx = false →
  rtc (λ a b, (0 < mst_symmetric a b)%Q ∧ (b < n)%nat) root_idx b →
  far b = false.
Proof.
  intros Hcut Hroot Hreach.
  revert Hreach. apply (rtc_ind_r (λ b, far b = false) root_idx); [done|].
  intros x y _ [Hw _] Hx. destruct (far y) eqn:Ey; [|done].
  exfalso. by apply (Hcut x y).
Qed.

(** C1. When scipy returns a spanning-tree array that covers the items and
    the dates of the items can be formatted, [build_phylogeny_tree] returns
    for a non-empty list of items a tree with one node per item. The node of
    the first item with the least timestamp is the root and the only node
    with parent None; every other node has as parent the id of the item at
    its parent index; following the parent indices from any index reaches
    the root within N steps; and every index the traversal left unvisited
    has the root as its parent index. *)
Theorem build_phylogeny_tree_rooted
    (minimum_spanning_tree : matrix Q → result square_array)
    (strftime : string → Z → result string)
    (distances : matrix xfloat) (items : list item)
    (mst_array : square_array) :
  items ≠ [] →
  minimum_spanning_tree (distances_fallback distances) = Ok mst_array →
  (length items ≤ sq_dim mst_array)%nat →
  (∀ it, it ∈ items → ∃ d, strftime "%Y-%m-%d" (item_timestamp it) = Ok d) →
  let n := length items in
  let mst_symmetric := sq_add_transpose mst_array in
  ∃ tree root_idx root vis par,
    build_phylogeny_tree minimum_spanning_tree strftime distances items
    = Ok tree
    ∧ argmin (item_timestamp <$> items) = Ok root_idx
    ∧ items !! root_idx = Some root
    ∧ Forall (λ it, item_timestamp root ≤ item_timestamp it) items
    ∧ phylogeny_root_id tree = item_id root
    ∧ length (phylogeny_nodes tree) = n
    ∧ tree_parents_read mst_symmetric n root_idx = Ok (vis, par)
    ∧ (∀ i it, items !! i = Some it →
         ∃ nd, phylogeny_nodes tree !! i = Some nd
           ∧ node_id nd = item_id it
           ∧ (node_parent nd = None ↔ i = root_idx)
           ∧ (i ≠ root_idx →
                ∃ j pit, par !! i = Some (Z.of_nat j)
                  ∧ items !! j = Some pit
                  ∧ node_parent nd = Some (item_id pit)))
    ∧ (∀ i, (i < n)%nat →
         ∃ k, (k ≤ n)%nat
           ∧ nsteps (λ a b, par !! a = Some (Z.of_nat b)) k i root_idx)
    ∧ (∀ i, vis !! i = Some false → par !! i = Some (Z.of_nat root_idx)).
Proof.
  intros Hne Hmst Hdim Hfmt n mst_symmetric.
  destruct (build_phylogeny_tree_spec minimum_spanning_tree strftime
              distances items mst_array Hne Hmst Hdim Hfmt)
    as (tree & root_idx & root & vis & par & Hbuild & Hargmin & Hroot & Hmin
        & _ & Htpr & Htp & Hrid & Hlen & Hnodes).
  assert (root_idx < n)%nat as Hlt by (by eapply lookup_lt_Some).
  destruct (tree_parents_tree (sq_entry mst_symmetric) n root_idx Hlt)
    as (vis' & par' & Htp' & Hlv & Hlp & Hvroot & Hproot & Hunv & _ & _
        & Hpar & Hreach).
  fold n mst_symmetric in Htp. rewrite Htp in Htp'.
  injection Htp' as <- <-.
  exists tree, root_idx, root, vis, par. split_and!; try done.
  intros i it Hi.
  destruct (Hnodes i it Hi) as (nd & p & Hnd & Hp & Hpid & Hid & _).
  exists nd. split_and!; [done..| |].
  - split.
    + intros Hnone. destruct (decide (i = root_idx)) as [|Hir]; [done|].
      exfalso.
      destruct (Hpar i) as (j & Hj & Hjn); [by eapply lookup_lt_Some|done|].
      destruct (lookup_lt_is_Some_2 items j Hjn) as [pit Hpit].
      rewrite Hp in Hj. injection Hj as ->.
      rewrite (parent_id_index _ _ _ Hpit) in Hpid. congruence.
    + intros ->. rewrite Hproot in Hp. injection Hp as <-.
      rewrite parent_id_none in Hpid by lia. congruence.
  - intros Hir.
    destruct (Hpar i) as (j & Hj & Hjn); [by eapply lookup_lt_Some|done|].
    destruct (lookup_lt_is_Some_2 items j Hjn) as [pit Hpit].
    exists j, pit. split_and!; [done..|].
    rewrite Hp in Hj. injection Hj as ->.
    rewrite (parent_id_index _ _ _ Hpit) in Hpid. congruence.
Qed.

Lemma build_phylogeny_tree_rooted_witness :
  let it := λ name ts, {| item_id := name; item_content := name;
                          item_preview := EmptyString; item_timestamp := ts;
                          item_cluster := 0 |} in
  let items := [it "a" 20; it "b" 10; it "c" 30] in
  let distances :=
    [[PosInf; Finite (1 # 2); Finite (3 # 4)];
     [Finite (1 # 2); PosInf; Finite (1 # 4)];
     [Finite (3 # 4); Finite (1 # 4); PosInf]] in
  let mst_array :=
    {| sq_dim := 3;
       sq_entry := λ i j,
         if decide (i = 0 ∧ j = 1)%nat then 1 # 2
         else if decide (i = 1 ∧ j = 2)%nat then 1 # 4 else 0%Q |} in
  ∃ tree,
    build_phylogeny_tree (λ _, Ok mst_array) (λ _ _, Ok "1970-01-01")
      distances items
    = Ok tree
    ∧ phylogeny_root_id tree = "b"
    ∧ node_parent <$> phylogeny_nodes tree = [Some "b"; None; Some "b"].
Proof.
  intros it items distances mst_array.
  destruct (build_phylogeny_tree_rooted (λ _, Ok mst_array)
              (λ _ _, Ok "1970-01-01") distances items mst_array)
    as (tree & _ & _ & _ & _ & Hbuild & _).
  - done.
  - reflexivity.
  - simpl. lia.
  - intros ? _. by eexists.
  - exists tree. split; [exact Hbuild|].
    vm_compute in Hbuild. injection Hbuild as <-. split; reflexivity.
Defined.

(** C9, as stated, fails. The items a and b have distance exactly 0 and
    both have distance 1 to c; the spanning tree joins a and b to c, since a
    zero entry of the dense distance array is no edge. The traversal from
    the root a reaches c and from c reaches b across positive entries: b is
    visited, and its parent is c, not the root. *)
Lemma bfs_zero_distance_counterexample :
  let it := λ name ts, {| item_id := name; item_content := name;
                          item_preview := EmptyString; item_timestamp := ts;
                          item_cluster := 0 |} in
  let items := [it "a" 5; it "b" 5; it "c" 5] in
  let distances :=
    [[PosInf; Finite 0; Finite 1];
     [Finite 0; PosInf; Finite 1];
     [Finite 1; Finite 1; PosInf]] in
  let mst_array :=
    {| sq_dim := 3;
       sq_entry := λ i j,
         if decide (i < 2 ∧ j = 2)%nat then 1%Q else 0%Q |} in
  mat_get distances 0 1 = Some (Finite 0)
  ∧ tree_parents_read (sq_add_transpose mst_array) 3 0
    = Ok ([true; true; true], [-1; 2; 0])
  ∧ ∃ tree nd,
      build_phylogeny_tree (λ _, Ok mst_array) (λ _ _, Ok "1970-01-01")
        distances items
      = Ok tree
      ∧ phylogeny_root_id tree = "a"
      ∧ phylogeny_nodes tree !! 1%nat = Some nd
      ∧ node_parent nd = Some "c".
Proof.
  split; [reflexivity|]. split; [vm_compute; reflexivity|].
  eexists _, _. split; [vm_compute; reflexivity|].
  split; [reflexivity|]. split; reflexivity.
Qed.

(** C9 (amended). The traversal follows only the strictly positive entries
    of the symmetrized MST. When scipy returns an array that covers the
    items and the dates can be formatted, an item other than the root that a
    chain of positive entries joins to the root is visited and has as parent
    the item it was discovered from, across a positive entry; an item that
    no such chain reaches is left unvisited and gets the root as parent from
    the fallback loop. So the parent of j is an item i whose entry with j is
    0 only if i is the root and j was not reached; and when no positive
    entry joins the root's side of the items to a far side, every item of
    the far side gets the root as its parent. *)
Theorem bfs_skips_zero_weight_edge
    (minimum_spanning_tree : matrix Q → result square_array)
    (strftime : string → Z → result string)
    (distances : matrix xfloat) (items : list item)
    (mst_array : square_array) :
  items ≠ [] →
  minimum_spanning_tree (distances_fallback distances) = Ok mst_array →
  (length items ≤ sq_dim mst_array)%nat →
  (∀ it, it ∈ items → ∃ d, strftime "%Y-%m-%d" (item_timestamp it) = Ok d) →
  let n := length items in
  let mst_symmetric := sq_entry (sq_add_transpose mst_array) in
  ∃ tree root_idx root vis par,
    let reach :=
      rtc (λ a b, (0 < mst_symmetric a b)%Q ∧ (b < n)%nat) root_idx in
    let parent_is := λ (b : nat) (pit : item),
      ∃ nd, phylogeny_nodes tree !! b = Some nd
            ∧ node_parent nd = Some (item_id pit) in
    build_phylogeny_tree minimum_spanning_tree strftime distances items
    = Ok tree
    ∧ argmin (item_timestamp <$> items) = Ok root_idx
    ∧ items !! root_idx = Some root
    ∧ tree_parents_read (sq_add_transpose mst_array) n root_idx
      = Ok (vis, par)
    ∧ (∀ b, (b < n)%nat → b ≠ root_idx → reach b →
         vis !! b = Some true
         ∧ ∃ a pit, par !! b = Some (Z.of_nat a) ∧ reach a
                    ∧ (0 < mst_symmetric a b)%Q
                    ∧ items !! a = Some pit ∧ parent_is b pit)
    ∧ (∀ b, (b < n)%nat → ¬ reach b →
         vis !! b = Some false
         ∧ par !! b = Some (Z.of_nat root_idx)
         ∧ parent_is b root)
    ∧ (∀ i j, (j < n)%nat → j ≠ root_idx → (mst_symmetric i j == 0)%Q →
         par !! j = Some (Z.of_nat i) → i = root_idx ∧ ¬ reach j)
    ∧ ∀ far : nat → bool,
        far root_idx = false →
        (∀ a b, far a = false → far b = true → (mst_symmetric a b == 0)%Q) →
        ∀ b, (b < n)%nat → far b = true →
          vis !! b = Some false
          ∧ par !! b = Some (Z.of_nat root_idx)
          ∧ parent_is b root.
Proof.
  intros Hne Hmst Hdim Hfmt n mst_symmetric.
  destruct (build_phylogeny_tree_spec minimum_spanning_tree strftime
              distances items mst_array Hne Hmst Hdim Hfmt)
    as (tree & root_idx & root & vis & par & Hbuild & Hargmin & Hroot & _
        & _ & Htpr & Htp & _ & _ & Hnodes).
  assert (root_idx < n)%nat as Hlt by (by eapply lookup_lt_Some).
  destruct (tree_parents_tree mst_symmetric n root_idx Hlt)
    as (vis' & par' & Htp' & Hlv & Hlp & Hvroot & Hproot & Hunv & Hedge
        & Hpath & _).
  fold n mst_symmetric in Htp. rewrite Htp in Htp'.
  injection Htp' as <- <-.
  destruct (tree_parents_visited mst_symmetric n root_idx Hlt)
    as (vis' & par' & Htp' & Hvis).
  rewrite Htp in Htp'. injection Htp' as <- <-.
  exists tree, root_idx, root, vis, par. intros reach parent_is.
  assert (∀ b pit p, (b < n)%nat → par !! b = Some (Z.of_nat p) →
            items !! p = Some pit → parent_is b pit) as Hparent.
  { intros b pit p Hb Hpb Hpit.
    destruct (lookup_lt_is_Some_2 items b Hb) as [it Hit].
    destruct (Hnodes b it Hit) as (nd & p' & Hnd & Hp & Hpid & _).
    exists nd. split; [done|].
    rewrite Hpb in Hp. injection Hp as <-.
    rewrite (parent_id_index _ _ _ Hpit) in Hpid. congruence. }
  assert (∀ b, (b < n)%nat → ¬ reach b →
            vis !! b = Some false
            ∧ par !! b = Some (Z.of_nat root_idx)
            ∧ parent_is b root) as Hunreached.
  { intros b Hb Hnr.
    assert (vis !! b = Some false) as Hvb.
    { destruct (lookup_lt_is_Some_2 vis b) as [[] Hvb]; [lia| |done].
      exfalso. by apply Hnr, Hvis. }
    split_and!; [done|by apply Hunv|].
    apply (Hparent b root root_idx); [done|by apply Hunv|done]. }
  split_and!; [done..| | | |].
  - intros b Hb Hbr Hreach. apply Hvis in Hreach as Hvb; [|done].
    split; [done|].
    destruct (Hedge b Hvb Hbr) as (a & Hpa & Hva & Hw).
    assert (a < n)%nat as Ha by (apply lookup_lt_Some in Hva; lia).
    destruct (lookup_lt_is_Some_2 items a Ha) as [pit Hpit].
    exists a, pit. split_and!; [done|by apply Hvis|done|done|].
    by apply (Hparent b pit a).
  - done.
  - intros i j Hj Hjr Hz Hpj.
    destruct (lookup_lt_is_Some_2 vis j) as [[] Hvj]; [lia| |].
    + exfalso. destruct (Hedge j Hvj Hjr) as (a & Hpa & _ & Hw).
      rewrite Hpj in Hpa. injection Hpa as Hia.
      apply Nat2Z.inj in Hia as <-. rewrite Hz in Hw.
      by apply Qlt_irrefl in Hw.
    + pose proof (Hunv j Hvj) as Hpr. rewrite Hpj in Hpr.
      injection Hpr as Hir. apply Nat2Z.inj in Hir. split; [done|].
      intros Hreach. apply Hvis in Hreach; [|done]. congruence.
  - intros far Hfroot Hcut b Hb Hfb. apply Hunreached; [done|].
    intros Hreach.
    assert (far b = false) as Hfb'; [|congruence].
    apply (reach_same_side mst_symmetric n far root_idx b); [|done|done].
    intros x y Hx Hy Hpos. rewrite (Hcut x y Hx Hy) in Hpos.
    by apply Qlt_irrefl in Hpos.
Qed.

Lemma bfs_skips_zero_weight_edge_witness :
  let it := λ name, {| item_id := name; item_content := name;
                       item_preview := EmptyString; item_timestamp := 5;
                       item_cluster := 0 |} in
  let items := [it "a"; it "b"] in
  let mst_array := {| sq_dim := 2; sq_entry := λ _ _, 0%Q |} in
  ∃ tree nd,
    build_phylogeny_tree (λ _, Ok mst_array) (λ _ _, Ok "1970-01-01")
      [[PosInf; Finite 0]; [Finite 0; PosInf]] items
    = Ok tree
    ∧ phylogeny_nodes tree !! 1%nat = Some nd
    ∧ node_parent nd = Some "a".
Proof.
  intros it items mst_array.
  destruct (bfs_skips_zero_weight_edge (λ _, Ok mst_array)
              (λ _ _, Ok "1970-01-01")
              [[PosInf; Finite 0]; [Finite 0; PosInf]] items mst_array)
    as (tree & root_idx & root & vis & par & Hbuild & Hargmin & Hroot & _ & _
        & _ & _ & Hfar).
  - done.
  - reflexivity.
  - simpl. lia.
  - intros ? _. by eexists.
  - injection Hargmin as <-. injection Hroot as <-.
    destruct (Hfar (λ k, (k =? 1)%nat)) with (b := 1%nat)
      as (_ & _ & nd & Hnd & Hparent).
    + reflexivity.
    + intros a b _ _. reflexivity.
    + simpl. lia.
    + reflexivity.
    + exists tree, nd. split_and!; [exact Hbuild|exact Hnd|exact Hparent].
Defined.

(** ** The shape of the distance graph *)

Lemma mat_set_shape {A} (M : matrix A) n i j x :
  length M = n ∧ Forall (λ row, length row = n) M →
  length (mat_set M i j x) = n
  ∧ Forall (λ row, length row = n) (mat_set M i j x).
Proof.
  unfold mat_set. intros [Hlen Hrows]. split.
  - by rewrite length_alter.
  - apply Forall_lookup. intros k row Hk.
    rewrite Forall_lookup in Hrows.
    destruct (decide (k = i)) as [->|Hne].
    + rewrite list_lookup_alter_eq in Hk.
      destruct (M !! i) as [row'|] eqn:E; [|done].
      simpl in Hk. injection Hk as <-. rewrite length_insert.
      by apply (Hrows i).
    + rewrite list_lookup_alter_ne in Hk by done. by apply (Hrows k).
Qed.

Lemma mat_full_shape {A} n (x : A) :
  length (mat_full n x) = n ∧ Forall (λ row, length row = n) (mat_full n x).
Proof.
  unfold mat_full. split; [by rewrite length_replicate|].
  apply Forall_forall. intros row [-> _]%elem_of_replicate.
  by rewrite length_replicate.
Qed.

Lemma mat_get_shape {A} (M : matrix A) n a b x :
  length M = n → Forall (λ row, length row = n) M →
  mat_get M a b = Some x → (a < n)%nat ∧ (b < n)%nat.
Proof.
  unfold mat_get. intros Hlen Hrows Hget.
  destruct (M !! a) as [row|] eqn:Ha; [|done]. simpl in Hget.
  rewrite Forall_lookup in Hrows. specialize (Hrows a row Ha).
  apply lookup_lt_Some in Ha, Hget. lia.
Qed.

Section graph_shape.
Variable similarity : nat → nat → Q.
Variable timestamps : list Z.

Lemma graph_inner_shape i D j :
  length D = length timestamps
  ∧ Forall (λ row, length row = length timestamps) D →
  length (graph_inner similarity timestamps i D j) = length timestamps
  ∧ Forall (λ row, length row = length timestamps)
      (graph_inner similarity timestamps i D j).
Proof.
  intros HD. unfold graph_inner. case_match; [|done].
  by do 2 apply mat_set_shape.
Qed.

Lemma graph_outer_shape k D i :
  length D = length timestamps
  ∧ Forall (λ row, length row = length timestamps) D →
  length (graph_outer similarity timestamps k D i) = length timestamps
  ∧ Forall (λ row, length row = length timestamps)
      (graph_outer similarity timestamps k D i).
Proof.
  unfold graph_outer. generalize (seq (S i) (k - S i)). intros l.
  revert D. induction l as [|j l IH]; intros D HD; [done|].
  cbn [foldl]. by apply IH, graph_inner_shape.
Qed.

Lemma build_constrained_graph_shape :
  length (build_constrained_graph similarity timestamps) = length timestamps
  ∧ Forall (λ row, length row = length timestamps)
      (build_constrained_graph similarity timestamps).
Proof.
  unfold build_constrained_graph.
  generalize (seq 0 (length timestamps)). intros l.
  generalize (mat_full_shape (length timestamps) PosInf).
  generalize (mat_full (length timestamps) PosInf).
  induction l as [|i l IH]; intros D HD; [done|].
  cbn [foldl]. by apply IH, graph_outer_shape.
Qed.
End graph_shape.

(** X1. The graph is a square matrix over the items, it is symmetric, and its
    diagonal keeps the infinite distance. *)
Theorem build_constrained_graph_square_symmetric
    (similarity : nat → nat → Q) (timestamps : list Z) :
  let n := length timestamps in
  let distances := build_constrained_graph similarity timestamps in
  length distances = n
  ∧ Forall (λ row, length row = n) distances
  ∧ (∀ a b, mat_get distances a b = mat_get distances b a)
  ∧ (∀ a, (a < n)%nat → mat_get distances a a = Some PosInf).
Proof.
  intros n distances.
  destruct (build_constrained_graph_shape similarity timestamps)
    as [Hlen Hrows].
  split_and!; [done..| |].
  - assert (∀ a b x, mat_get distances a b = Some x →
                     mat_get distances b a = Some x) as Hsym.
    { intros a b x Hx.
      destruct (mat_get_shape _ _ _ _ _ Hlen Hrows Hx) as [Ha Hb].
      unfold distances in *.
      rewrite build_constrained_graph_entry in * by done.
      rewrite <- Hx. f_equal. repeat case_decide; try done; try lia.
      by rewrite Nat.min_comm, Nat.max_comm. }
    intros a b.
    destruct (mat_get distances a b) as [x|] eqn:E1.
    { symmetry. by apply Hsym. }
    destruct (mat_get distances b a) as [y|] eqn:E2; [|done].
    apply Hsym in E2. congruence.
  - intros a Ha. unfold distances.
    rewrite build_constrained_graph_entry by done.
    by rewrite decide_True.
Qed.

(** X2. Only the entries of [similarity] above the diagonal are read. *)
Theorem build_constrained_graph_upper_triangle
    (similarity similarity' : nat → nat → Q) (timestamps : list Z) :
  (∀ i j, (i < j < length timestamps)%nat →
          similarity i j = similarity' i j) →
  build_constrained_graph similarity timestamps
  = build_constrained_graph similarity' timestamps.
Proof.
  intros Hsim.
  destruct (build_constrained_graph_shape similarity timestamps)
    as [Hlen Hrows].
  destruct (build_constrained_graph_shape similarity' timestamps)
    as [Hlen' Hrows'].
  apply list_eq. intros a.
  destruct (decide (a < length timestamps)%nat) as [Ha|Ha].
  2:{ rewrite !lookup_ge_None_2; [done|lia|lia]. }
  destruct (lookup_lt_is_Some_2
              (build_constrained_graph similarity timestamps) a)
    as [row Hrow]; [lia|].
  destruct (lookup_lt_is_Some_2
              (build_constrained_graph similarity' timestamps) a)
    as [row' Hrow']; [lia|].
  rewrite Hrow, Hrow'. f_equal.
  rewrite Forall_lookup in Hrows, Hrows'.
  specialize (Hrows a row Hrow). specialize (Hrows' a row' Hrow').
  apply list_eq. intros b.
  destruct (decide (b < length timestamps)%nat) as [Hb|Hb].
  2:{ rewrite !lookup_ge_None_2; [done|lia|lia]. }
  pose proof (build_constrained_graph_entry similarity timestamps a b Ha Hb)
    as H1.
  pose proof (build_constrained_graph_entry similarity' timestamps a b Ha Hb)
    as H2.
  unfold mat_get in H1, H2. rewrite Hrow in H1. rewrite Hrow' in H2.
  simpl in H1, H2. rewrite H1, H2. f_equal.
  case_decide; [done|].
  unfold pair_entry, highly_similar, edge_weight.
  rewrite Hsim by lia. done.
Qed.

Lemma build_constrained_graph_upper_triangle_witness :
  build_constrained_graph (λ i j, if (i <? j)%nat then 9 # 10 else 0%Q)
    [0; 100; 200]
  = build_constrained_graph (λ _ _, 9 # 10) [0; 100; 200].
Proof.
  apply (build_constrained_graph_upper_triangle
           (λ i j, if (i <? j)%nat then 9 # 10 else 0%Q) (λ _ _, 9 # 10)
           [0; 100; 200]).
  intros i j Hij. destruct (i <? j)%nat eqn:E; [done|].
  apply Nat.ltb_ge in E. lia.
Defined.

(** The temporal penalty is never negative, and vanishes only for equal
    timestamps. *)
Lemma temporal_penalty_nonneg (td : Z) :
  0 ≤ td →
  (0 <= (inject_Z td / inject_Z TEMPORAL_THRESHOLD) * (1 # 100))%Q
  ∧ (((inject_Z td / inject_Z TEMPORAL_THRESHOLD) * (1 # 100) == 0)%Q
     → td = 0).
Proof.
  intros Htd.
  assert (0 <= inject_Z td)%Q as Hq.
  { change 0%Q with (inject_Z 0). by rewrite <- Zle_Qle. }
  assert ((inject_Z td / inject_Z TEMPORAL_THRESHOLD) * (1 # 100)
          == inject_Z td * (1 # 259200000))%Q as ->.
  { change (inject_Z TEMPORAL_THRESHOLD) with (2592000 # 1)%Q. field. }
  split; [lra|].
  intros Hz. assert (inject_Z td == 0)%Q as Hz' by lra.
  apply (inject_Z_injective td 0). exact Hz'.
Qed.

(** X3. With similarities of at most 1, as between normalized embeddings, no
    edge has a negative weight; the weight 0 is the weight of a pair with
    similarity 1 and equal timestamps, and such a pair always has an edge. *)
Theorem build_constrained_graph_nonneg
    (similarity : nat → nat → Q) (timestamps : list Z) (i j : nat) :
  Forall (λ t, 0 ≤ t < 2 ^ 63) timestamps →
  (i < j < length timestamps)%nat →
  (similarity i j <= 1)%Q →
  let distances := build_constrained_graph similarity timestamps in
  (∀ w, mat_get distances i j = Some (Finite w) →
        (0 <= w)%Q
        ∧ ((w == 0)%Q →
           (similarity i j == 1)%Q ∧ timestamps !!! i = timestamps !!! j))
  ∧ ((similarity i j == 1)%Q → timestamps !!! i = timestamps !!! j →
     ∃ w, mat_get distances i j = Some (Finite w) ∧ (w == 0)%Q).
Proof.
  intros Hts Hij Hsim distances.
  assert (Hget : mat_get distances i j
                 = Some (pair_entry similarity timestamps i j)).
  { unfold distances. rewrite build_constrained_graph_entry by lia.
    rewrite decide_False by lia. do 2 f_equal; lia. }
  assert (Htd : time_diff timestamps i j
                = Z.abs (timestamps !!! i - timestamps !!! j)).
  { apply time_diff_abs; [done|lia..]. }
  destruct (temporal_penalty_nonneg (time_diff timestamps i j))
    as [Hpen Hzero]; [rewrite Htd; lia|].
  split.
  - intros w Hw. rewrite Hget in Hw. injection Hw as Hw.
    destruct (pair_entry_cases similarity timestamps i j)
      as [[_ He]|[_ He]]; rewrite He in Hw; [|done].
    injection Hw as <-. unfold edge_weight. split; [lra|].
    intros Hz. split; [lra|].
    assert (time_diff timestamps i j = 0) as H0 by (apply Hzero; lra).
    rewrite Htd in H0. lia.
  - intros Hone Heq. rewrite Hget.
    assert (time_diff timestamps i j = 0) as H0 by (rewrite Htd; lia).
    exists (edge_weight similarity timestamps i j). split.
    + unfold pair_entry, temporally_close. by rewrite H0.
    + unfold edge_weight. rewrite H0, Hone. reflexivity.
Qed.

Lemma build_constrained_graph_nonneg_witness :
  ∃ w, mat_get (build_constrained_graph (λ _ _, 1%Q) [7; 7]) 0 1
       = Some (Finite w) ∧ (w == 0)%Q.
Proof.
  assert (H1 : Forall (λ t, 0 ≤ t < 2 ^ 63) [7; 7]).
  { repeat constructor; lia. }
  assert (H2 : (0 < 1 < length [7; 7])%nat) by (simpl; lia).
  assert (H3 : ((λ _ _ : nat, 1%Q) 0%nat 1%nat <= 1)%Q) by (simpl; lra).
  exact (proj2 (build_constrained_graph_nonneg (λ _ _, 1%Q) [7; 7] 0 1
                  H1 H2 H3) (Qeq_refl 1) eq_refl).
Defined.

(** [min] is the value at [argmin]. *)
Lemma py_min_argmin l r m :
  argmin l = Ok r → py_min l = Ok m → l !! r = Some m.
Proof.
  intros Hr Hm.
  assert (l ≠ []) as Hne by (by destruct l).
  destruct (argmin_spec l Hne) as (r' & v & Hr' & Hv & Hall & _).
  destruct (py_min_spec l Hne) as (m' & Hm' & Hin & Hall').
  assert (r' = r) as -> by congruence.
  assert (m' = m) as -> by congruence.
  rewrite Hv. f_equal.
  rewrite Forall_forall in Hall, Hall'.
  apply list_elem_of_lookup_2 in Hv.
  specialize (Hall m Hin). specialize (Hall' v Hv). lia.
Qed.

Section phylogeny_document.
Variable minimum_spanning_tree : matrix Q → result square_array.
Variable strftime : string → Z → result string.

Lemma make_nodes_mirror items par (l : list item) k nodes :
  Forall2 (λ e nd, make_node strftime items par e = Ok nd)
    (imap (λ i, pair (k + i)%nat) l) nodes →
  node_id <$> nodes = item_id <$> l
  ∧ node_timestamp <$> nodes = item_timestamp <$> l
  ∧ node_cluster <$> nodes = item_cluster <$> l
  ∧ Ok <$> (node_date <$> nodes)
    = (λ it, strftime "%Y-%m-%d" (item_timestamp it)) <$> l.
Proof.
  revert k nodes. induction l as [|it l IH]; intros k nodes HF; csimpl in *.
  - by apply Forall2_nil_inv_l in HF as ->.
  - apply Forall2_cons_inv_l in HF as (nd & nodes' & Hnd & HF & ->).
    apply make_node_inv in Hnd as (H1 & H2 & H3 & H4).
    destruct (IH (S k) nodes') as (IH1 & IH2 & IH3 & IH4).
    { erewrite imap_ext; [exact HF|]. intros i x _. simpl. f_equal. lia. }
    csimpl. by rewrite H1, H2, H3, H4, IH1, IH2, IH3, IH4.
Qed.

(** The parts of a returned document. *)
Lemma build_phylogeny_tree_Ok distances items tree :
  build_phylogeny_tree minimum_spanning_tree strftime distances items
  = Ok tree →
  ∃ mst_array root_idx root vp mn mx,
    minimum_spanning_tree (distances_fallback distances) = Ok mst_array
    ∧ argmin (item_timestamp <$> items) = Ok root_idx
    ∧ items !! root_idx = Some root
    ∧ py_min (item_timestamp <$> items) = Ok mn
    ∧ py_max (item_timestamp <$> items) = Ok mx
    ∧ tree_parents_read (sq_add_transpose mst_array) (length items) root_idx
      = Ok vp
    ∧ result_mapM (make_node strftime items vp.2) (imap pair items)
      = Ok (phylogeny_nodes tree)
    ∧ phylogeny_root_id tree = item_id root
    ∧ strftime "%Y-%m-%d" mn = Ok (phylogeny_root_date tree)
    ∧ strftime "%Y-%m-%d" mn = Ok (phylogeny_date_min tree)
    ∧ strftime "%Y-%m-%d" mx = Ok (phylogeny_date_max tree).
Proof.
  unfold build_phylogeny_tree.
  intros (mst_array & Hmst & (root_idx & Hargmin & (mn & Hmn & (rd & Hrd
    & (vp & Hvp & (nodes & Hnodes & H)
    %rbind_Ok)%rbind_Ok)%rbind_Ok)%rbind_Ok)%rbind_Ok)%rbind_Ok.
  destruct (items !! root_idx) as [root|] eqn:Hroot; [|done].
  apply rbind_Ok in H as (mn' & Hmn' & (dmn & Hdmn & (mx & Hmx
    & (dmx & Hdmx & [= <-])%rbind_Ok)%rbind_Ok)%rbind_Ok).
  assert (mn' = mn) as -> by congruence.
  exists mst_array, root_idx, root, vp, mn, mx. simpl.
  split_and!; first [done|congruence].
Qed.

(** What a returned document tells about the arguments. *)
Lemma build_phylogeny_tree_Ok_inv distances items tree :
  build_phylogeny_tree minimum_spanning_tree strftime distances items
  = Ok tree →
  items ≠ []
  ∧ ∃ mst_array,
      minimum_spanning_tree (distances_fallback distances) = Ok mst_array
      ∧ (length items ≤ sq_dim mst_array)%nat
      ∧ ∀ it, it ∈ items →
          ∃ d, strftime "%Y-%m-%d" (item_timestamp it) = Ok d.
Proof.
  intros Hbuild.
  destruct (build_phylogeny_tree_Ok _ _ _ Hbuild)
    as (mst_array & root_idx & root & vp & mn & mx & Hmst & Hargmin & Hroot
        & Hmn & Hmx & Htpr & Hnodes & _).
  assert (items ≠ []) as Hne by (by destruct items).
  split; [done|]. exists mst_array. split; [done|]. split.
  - destruct (decide (length items ≤ sq_dim mst_array)%nat); [done|].
    rewrite tree_parents_read_IndexError in Htpr; [done|].
    simpl. lia.
  - intros it (i & Hi)%list_elem_of_lookup.
    apply result_mapM_Ok in Hnodes.
    assert (imap pair items !! i = Some (i, it)) as Himap.
    { by rewrite list_lookup_imap, Hi. }
    destruct (Forall2_lookup_l _ _ _ _ _ Hnodes Himap) as (nd & _ & Hmk).
    apply make_node_inv in Hmk as (_ & _ & _ & Hd). by eexists.
Qed.

(** How [build_phylogeny_tree] can fail. *)
Lemma build_phylogeny_tree_fails distances items f :
  failure (build_phylogeny_tree minimum_spanning_tree strftime distances
             items) = Some f →
  failure (minimum_spanning_tree (distances_fallback distances)) = Some f
  ∨ ∃ mst_array,
      minimum_spanning_tree (distances_fallback distances) = Ok mst_array
      ∧ ((items = [] ∧ f = Some ValueError)
         ∨ (∃ it, it ∈ items
              ∧ failure (strftime "%Y-%m-%d" (item_timestamp it)) = Some f)
         ∨ (items ≠ [] ∧ (sq_dim mst_array < length items)%nat
            ∧ f = Some IndexError)).
Proof.
  unfold build_phylogeny_tree.
  destruct (minimum_spanning_tree (distances_fallback distances))
    as [mst_array| |] eqn:Hmst; cbn [rbind]; [|by left|by left].
  intros Hbuild. right. exists mst_array. split; [done|].
  destruct (decide (items = [])) as [->|Hne].
  { left. split; [done|]. simpl in Hbuild. congruence. }
  right.
  destruct (argmin_spec (item_timestamp <$> items))
    as (root_idx & v & Hargmin & Hv & _).
  { by destruct items. }
  apply list_lookup_fmap_Some in Hv as (root & -> & Hroot).
  destruct (py_min_spec (item_timestamp <$> items)) as (mn & Hmn & Hmn' & _).
  { by destruct items. }
  destruct (py_max_spec (item_timestamp <$> items)) as (mx & Hmx & Hmx' & _).
  { by destruct items. }
  apply list_elem_of_fmap in Hmn' as (imn & -> & Himn).
  apply list_elem_of_fmap in Hmx' as (imx & -> & Himx).
  rewrite Hargmin, Hmn in Hbuild. cbn [rbind] in Hbuild.
  destruct (failure (strftime "%Y-%m-%d" (item_timestamp imn)))
    as [f'|] eqn:Hfmn.
  { left. exists imn. split; [done|]. rewrite Hfmn.
    by rewrite (failure_rbind _ _ _ Hfmn) in Hbuild. }
  apply failure_Ok in Hfmn as [dmn Hdmn].
  rewrite Hdmn in Hbuild. cbn [rbind] in Hbuild.
  destruct (decide (length items ≤ sq_dim mst_array)%nat) as [Hdim|Hdim].
  2:{ right. rewrite tree_parents_read_IndexError in Hbuild by (simpl; lia).
      simpl in Hbuild. split_and!; [done|lia|congruence]. }
  left.
  assert (root_idx < length items)%nat as Hlt by (by eapply lookup_lt_Some).
  destruct (tree_parents_tree (sq_entry (sq_add_transpose mst_array))
              (length items) root_idx Hlt)
    as (vis & par & Htp & Hlv & Hlp & Hvroot & Hproot & Hunv & Hedge & _
        & Hpar & _).
  rewrite tree_parents_read_Ok, Htp in Hbuild by done.
  cbn [rbind snd] in Hbuild.
  destruct (failure (result_mapM (make_node strftime items par)
                       (imap pair items))) as [f'|] eqn:Hfn.
  { rewrite (failure_rbind _ _ _ Hfn) in Hbuild. injection Hbuild as ->.
    destruct (result_mapM_failure _ _ _ Hfn) as ([i it] & Hin & Hf).
    apply elem_of_lookup_imap in Hin as (i' & it' & [= <- <-] & Hi).
    exists it. split; [by eapply list_elem_of_lookup_2|].
    assert (i < length items)%nat as Hi' by (by eapply lookup_lt_Some).
    destruct (decide (i = root_idx)) as [->|Hir].
    - eapply make_node_failure; [exact Hproot| |exact Hf].
      by apply parent_id_none.
    - destruct (Hpar i Hi' Hir) as (j & Hp & Hj).
      destruct (lookup_lt_is_Some_2 items j Hj) as [pit Hpit].
      eapply make_node_failure; [exact Hp| |exact Hf].
      by apply parent_id_index. }
  apply failure_Ok in Hfn as [nodes Hnodes].
  rewrite Hnodes in Hbuild. cbn [rbind] in Hbuild.
  rewrite Hroot in Hbuild. cbn [rbind] in Hbuild.
  rewrite Hmx in Hbuild. cbn [rbind] in Hbuild.
  destruct (failure (strftime "%Y-%m-%d" (item_timestamp imx)))
    as [f'|] eqn:Hfmx.
  { exists imx. split; [done|]. rewrite Hfmx.
    by rewrite (failure_rbind _ _ _ Hfmx) in Hbuild. }
  apply failure_Ok in Hfmx as [dmx Hdmx].
  by rewrite Hdmx in Hbuild.
Qed.
End phylogeny_document.

(** X5. [build_phylogeny_tree] returns exactly when scipy returns a
    spanning-tree array, the list of items is not empty, the array has a row
    for every item and the date of every item can be formatted. Otherwise
    it fails as scipy does, with the [ValueError] of [np.argmin] on the empty
    list, as the formatting of the date of an item does, or with the
    [IndexError] of a read beyond an array with fewer rows than items; the
    traversal itself never needs more iterations than there are items. *)
Theorem build_phylogeny_tree_failure
    (minimum_spanning_tree : matrix Q → result square_array)
    (strftime : string → Z → result string)
    (distances : matrix xfloat) (items : list item) :
  let mst := minimum_spanning_tree (distances_fallback distances) in
  let date := λ it, strftime "%Y-%m-%d" (item_timestamp it) in
  let returns := λ mst_array,
    items ≠ [] ∧ mst = Ok mst_array
    ∧ (length items ≤ sq_dim mst_array)%nat
    ∧ ∀ it, it ∈ items → ∃ d, date it = Ok d in
  let run :=
    build_phylogeny_tree minimum_spanning_tree strftime distances items in
  ((∃ tree, run = Ok tree) ↔ ∃ mst_array, returns mst_array)
  ∧ ∀ f, failure run = Some f →
      failure mst = Some f
      ∨ ∃ mst_array, mst = Ok mst_array
          ∧ ((items = [] ∧ f = Some ValueError)
             ∨ (∃ it, it ∈ items ∧ failure (date it) = Some f)
             ∨ (items ≠ [] ∧ (sq_dim mst_array < length items)%nat
                ∧ f = Some IndexError)).
Proof.
  intros mst date returns run. split; [split|].
  - intros [tree Hbuild].
    apply build_phylogeny_tree_Ok_inv in Hbuild as (Hne & a & Hmst & Hdim & Hd).
    by exists a.
  - intros (a & Hne & Hmst & Hdim & Hd).
    destruct (build_phylogeny_tree_spec minimum_spanning_tree strftime
                distances items a Hne Hmst Hdim Hd) as (tree & _ & _ & _ & _
                & Hbuild & _).
    by exists tree.
  - apply build_phylogeny_tree_fails.
Qed.

(** X6. The nodes of a returned document repeat the items in their order, with
    their ids, timestamps, clusters and dates; the root date is the least
    date of the range and the date of the root node, which is the node at
    the root index and carries the root id. *)
Theorem build_phylogeny_tree_nodes
    (minimum_spanning_tree : matrix Q → result square_array)
    (strftime : string → Z → result string)
    (distances : matrix xfloat) (items : list item) (tree : phylogeny) :
  build_phylogeny_tree minimum_spanning_tree strftime distances items
  = Ok tree →
  let nodes := phylogeny_nodes tree in
  node_id <$> nodes = item_id <$> items
  ∧ node_timestamp <$> nodes = item_timestamp <$> items
  ∧ node_cluster <$> nodes = item_cluster <$> items
  ∧ Ok <$> (node_date <$> nodes)
    = (λ it, strftime "%Y-%m-%d" (item_timestamp it)) <$> items
  ∧ phylogeny_root_date tree = phylogeny_date_min tree
  ∧ ∃ root_idx nd,
      argmin (item_timestamp <$> items) = Ok root_idx
      ∧ nodes !! root_idx = Some nd
      ∧ node_id nd = phylogeny_root_id tree
      ∧ node_date nd = phylogeny_root_date tree
      ∧ Forall (λ nd', node_timestamp nd ≤ node_timestamp nd') nodes.
Proof.
  intros Hbuild nodes.
  destruct (build_phylogeny_tree_Ok _ _ _ _ _ Hbuild)
    as (mst_array & root_idx & root & vp & mn & mx & _ & Hargmin & Hroot
        & Hmn & Hmx & _ & Hnodes & Hrid & Hrdate & Hdmin & _).
  apply result_mapM_Ok in Hnodes.
  destruct (make_nodes_mirror strftime items vp.2 items 0 nodes)
    as (Hids & Hts & Hcl & Hdates); [done|].
  split_and!; [done..|congruence|].
  assert (root_idx < length nodes)%nat as Hlt.
  { apply Forall2_length in Hnodes. rewrite length_imap in Hnodes.
    unfold nodes. rewrite <- Hnodes. by eapply lookup_lt_Some. }
  destruct (lookup_lt_is_Some_2 nodes root_idx Hlt) as [nd Hnd].
  exists root_idx, nd.
  assert (node_id nd = item_id root) as Hid.
  { apply (f_equal (λ l, l !! root_idx)) in Hids.
    rewrite !list_lookup_fmap, Hnd, Hroot in Hids. by injection Hids. }
  assert (node_timestamp nd = item_timestamp root) as Hnts.
  { apply (f_equal (λ l, l !! root_idx)) in Hts.
    rewrite !list_lookup_fmap, Hnd, Hroot in Hts. by injection Hts. }
  assert (Ok (node_date nd) = strftime "%Y-%m-%d" (item_timestamp root))
    as Hnd'.
  { apply (f_equal (λ l, l !! root_idx)) in Hdates.
    rewrite !list_lookup_fmap, Hnd, Hroot in Hdates. by injection Hdates. }
  pose proof (py_min_argmin _ _ _ Hargmin Hmn) as Hmin.
  rewrite list_lookup_fmap, Hroot in Hmin. injection Hmin as Hmin.
  split_and!; [done..|congruence|congruence|].
  assert (Forall (λ t, node_timestamp nd ≤ t) (node_timestamp <$> nodes))
    as HF.
  { rewrite Hts, Hnts, Hmin.
    destruct (py_min_spec (item_timestamp <$> items)) as (m & Hm & _ & Hall).
    { by destruct items. }
    assert (m = mn) as -> by congruence. exact Hall. }
  apply Forall_forall. intros nd' Hnd''. rewrite Forall_forall in HF.
  apply HF, list_elem_of_fmap. eauto.
Qed.

Lemma build_phylogeny_tree_nodes_witness :
  let it := λ name ts, {| item_id := name; item_content := name;
                          item_preview := EmptyString; item_timestamp := ts;
                          item_cluster := 0 |} in
  node_id <$> phylogeny_nodes
    {| phylogeny_nodes :=
         [Build_node "a" (Some "b") 20 "d" 0; Build_node "b" None 10 "d" 0];
       phylogeny_root_id := "b"; phylogeny_root_date := "d";
       phylogeny_date_min := "d"; phylogeny_date_max := "d" |}
  = item_id <$> [it "a" 20; it "b" 10].
Proof.
  intros it.
  apply (build_phylogeny_tree_nodes
           (λ _, Ok {| sq_dim := 2;
                       sq_entry := λ i j,
                         if decide (i = 0 ∧ j = 1)%nat then 1%Q else 0%Q |})
           (λ _ _, Ok "d")
           [[PosInf; Finite 1]; [Finite 1; PosInf]]
           [it "a" 20; it "b" 10]).
  vm_compute. reflexivity.
Defined.

(** X4. The two loops of the traversal always end, and they mark exactly the
    indices that a chain of positive entries of the symmetrized MST joins to
    the root. Such an index other than the root has as parent a marked
    neighbour across a positive entry; every other index has the root. *)
Theorem tree_parents_reachable
    (mst_symmetric : nat → nat → Q) (n root_idx : nat) :
  (root_idx < n)%nat →
  let reach :=
    rtc (λ a b, (0 < mst_symmetric a b)%Q ∧ (b < n)%nat) root_idx in
  ∃ vis par,
    tree_parents mst_symmetric n root_idx = Ok (vis, par)
    ∧ length vis = n ∧ length par = n
    ∧ ∀ i, (i < n)%nat →
        (vis !! i = Some true ↔ reach i)
        ∧ (reach i → i ≠ root_idx →
           ∃ j, par !! i = Some (Z.of_nat j) ∧ reach j
                ∧ (0 < mst_symmetric j i)%Q)
        ∧ (¬ reach i → par !! i = Some (Z.of_nat root_idx)).
Proof.
  intros Hroot reach.
  destruct (tree_parents_tree mst_symmetric n root_idx Hroot)
    as (vis & par & Htp & Hlv & Hlp & Hvroot & Hproot & Hunv & Hedge & _).
  destruct (tree_parents_visited mst_symmetric n root_idx Hroot)
    as (vis' & par' & Htp' & Hvis).
  rewrite Htp in Htp'. injection Htp' as <- <-.
  exists vis, par. split_and!; [done..|].
  intros i Hi. split_and!.
  - by apply Hvis.
  - intros Hr Hne. apply Hvis in Hr; [|done].
    destruct (Hedge i Hr Hne) as (j & Hp & Hj & Hw).
    exists j. split_and!; [done| |done].
    apply Hvis; [|done]. apply lookup_lt_Some in Hj. lia.
  - intros Hnr. apply Hunv.
    destruct (lookup_lt_is_Some_2 vis i) as [[] Hb]; [lia| |done].
    exfalso. by apply Hnr, Hvis.
Qed.

Lemma tree_parents_reachable_witness :
  ∃ vis par,
    tree_parents
      (λ a b, if decide (a + b = 1)%nat then 1 # 2 else 0%Q) 3 0
    = Ok (vis, par)
    ∧ vis = [true; true; false] ∧ par = [-1; 0; 0].
Proof.
  destruct (tree_parents_reachable
              (λ a b, if decide (a + b = 1)%nat then 1 # 2 else 0%Q) 3 0)
    as (vis & par & Htp & _); [lia|].
  exists vis, par. split; [exact Htp|].
  vm_compute in Htp. injection Htp as <- <-. done.
Defined.

(** ** The species share out the items *)

Lemma group_append_join (P : Z → Prop) `{∀ k, Decision (P k)} k it g :
  mjoin (snd <$> filter (λ e : Z * list item, P e.1) (group_append k it g))
  ≡ₚ mjoin (snd <$> filter (λ e : Z * list item, P e.1) g)
     ++ (if decide (P k) then [it] else []).
Proof.
  induction g as [|[k' its] g IH]; simpl.
  - destruct (decide (P k)) as [Hk|Hk].
    + by rewrite filter_cons_True.
    + by rewrite filter_cons_False.
  - destruct (decide (k = k')) as [->|Hne].
    + destruct (decide (P k')) as [Hk|Hk].
      * rewrite !filter_cons_True by done. csimpl.
        rewrite <- !app_assoc. f_equiv. apply Permutation_app_comm.
      * rewrite !filter_cons_False by done. by rewrite app_nil_r.
    + destruct (decide (P k')) as [Hk|Hk].
      * rewrite !filter_cons_True by done. csimpl.
        rewrite IH. by rewrite app_assoc.
      * rewrite !filter_cons_False by done. apply IH.
Qed.

Lemma cluster_items_of_join (P : Z → Prop) `{∀ k, Decision (P k)} items :
  mjoin (snd <$> filter (λ e : Z * list item, P e.1) (cluster_items_of items))
  ≡ₚ filter (λ it, 0 ≤ item_cluster it ∧ P (item_cluster it)) items.
Proof.
  induction items as [|it items IH] using rev_ind; [done|].
  rewrite cluster_items_of_snoc, filter_app. unfold group_step.
  destruct (0 <=? item_cluster it) eqn:E.
  - apply Z.leb_le in E. rewrite group_append_join, IH. f_equiv.
    destruct (decide (P (item_cluster it))) as [Hk|Hk].
    + by rewrite filter_cons_True.
    + rewrite filter_cons_False; [done|]. tauto.
  - apply Z.leb_gt in E. rewrite IH.
    rewrite filter_cons_False by lia. by rewrite filter_nil, app_nil_r.
Qed.

Lemma species_for_item_ids strftime cluster_map g sp :
  Forall2 (species_for strftime cluster_map) g sp →
  mjoin (species_item_ids <$> sp) = item_id <$> mjoin (snd <$> g)
  ∧ species_count <$> sp = length <$> (species_item_ids <$> sp).
Proof.
  induction 1 as [|e s g sp (c & mn & mx & d1 & d2 & _ & _ & _ & _ & _ & ->)
                    _ [IH1 IH2]];
    csimpl; [done|].
  rewrite IH1, IH2, fmap_app, length_fmap. done.
Qed.

(** X7. When [generate_species] returns, the species share out the items that
    have a non-negative cluster with an entry in the clusters list: together
    their id lists hold the ids of exactly these items, each as often as it
    occurs, so the counts add up to the number of these items; items of
    noise and of unlisted clusters are in no species, and no species is
    empty. *)
Theorem generate_species_shares_items
    (strftime : string → Z → result string) (items : list item)
    (clusters : list cluster) (sp : list species) :
  generate_species strftime items clusters = Ok sp →
  let listed := λ it,
    0 ≤ item_cluster it ∧ item_cluster it ∈ cluster_id <$> clusters in
  mjoin (species_item_ids <$> sp) ≡ₚ item_id <$> filter listed items
  ∧ sum_list (species_count <$> sp) = length (filter listed items)
  ∧ Forall (λ s, (0 < species_count s)%nat) sp.
Proof.
  intros Hgen listed.
  destruct (generate_species_unsorted strftime items clusters sp Hgen)
    as (sp0 & -> & HF).
  pose proof (sort_by_perm species_min_timestamp sp0) as Hperm.
  destruct (species_for_item_ids _ _ _ _ HF) as [Hids Hcounts].
  assert (mjoin (species_item_ids <$> sp0)
          ≡ₚ item_id <$> filter listed items) as Hjoin.
  { rewrite Hids.
    pose proof (cluster_items_of_join
                  (λ k, is_Some (cluster_map_of clusters !! k)) items) as Hj.
    cbv beta in Hj. rewrite Hj.
    f_equiv. apply Permutation_refl'. apply list_filter_iff. intros it.
    unfold listed. rewrite cluster_map_of_is_Some, list_elem_of_fmap.
    naive_solver. }
  split_and!.
  - by rewrite Hperm.
  - rewrite Hperm, Hcounts, <- length_join.
    rewrite Hjoin. by rewrite length_fmap.
  - rewrite Hperm. clear Hperm Hgen Hids Hcounts Hjoin.
    assert (Forall (λ e : Z * list item, e.2 ≠ [])
              (filter (λ e, is_Some (cluster_map_of clusters !! e.1))
                 (cluster_items_of items))) as Hne.
    { apply Forall_forall. intros [k its] [_ Hin]%list_elem_of_filter.
      apply elem_of_cluster_items_of in Hin. simpl. tauto. }
    induction HF as [|e s g sp (c & mn & mx & d1 & d2 & _ & _ & _ & _ & _ & ->)
                       _ IH];
      [constructor|].
    apply Forall_cons in Hne as [He Hne].
    constructor; [|by apply IH]. simpl.
    destruct (e.2); [done|simpl; lia].
Qed.

Lemma generate_species_shares_items_witness :
  let it := λ name k, {| item_id := name; item_content := name;
                         item_preview := EmptyString; item_timestamp := 7;
                         item_cluster := k |} in
  let items := [it "a" 0; it "b" (-1); it "c" 3; it "d" 0] in
  let clusters := [ {| cluster_id := 0; cluster_label := "dog";
                       cluster_centroid := (0, 0)%Q;
                       cluster_size := 2%nat |} ] in
  let sp := [ {| species_id := "species_0"; species_cluster_id := 0;
                 species_name := "dog"; species_date_range := "1970-01";
                 species_min_timestamp := 7; species_max_timestamp := 7;
                 species_centroid := (0, 0)%Q; species_count := 2%nat;
                 species_item_ids := ["a"; "d"] |} ] in
  sum_list (species_count <$> sp)
  = length (filter (λ it, 0 ≤ item_cluster it
                          ∧ item_cluster it ∈ cluster_id <$> clusters) items).
Proof.
  intros it items clusters sp.
  apply (generate_species_shares_items (λ _ _, Ok "1970-01") items clusters sp).
  vm_compute. reflexivity.
Defined.

(** ** From the clusters to the species *)

Lemma assign_clusters_Ok items labels items' :
  assign_clusters items labels = Ok items' →
  (length items ≤ length labels)%nat
  ∧ item_cluster <$> items' = take (length items) labels
  ∧ item_id <$> items' = item_id <$> items
  ∧ item_timestamp <$> items' = item_timestamp <$> items.
Proof.
  unfold assign_clusters. intros HF%result_mapM_Ok.
  assert (∀ k (l : list item) l',
    Forall2 (λ (e : nat * item) y,
               match labels !! e.1 with
               | Some label => Ok (set_cluster e.2 label)
               | None => Raise IndexError
               end = Ok y) (imap (λ i, pair (k + i)%nat) l) l' →
    (l ≠ [] → k + length l ≤ length labels)%nat
    ∧ item_cluster <$> l' = take (length l) (drop k labels)
    ∧ item_id <$> l' = item_id <$> l
    ∧ item_timestamp <$> l' = item_timestamp <$> l) as Hgen.
  { intros k l. revert k. induction l as [|it l IH]; intros k l' H; csimpl in *.
    - apply Forall2_nil_inv_l in H as ->. split_and!; done.
    - apply Forall2_cons_inv_l in H as (y & l'' & Hy & H & ->). simpl in Hy.
      rewrite Nat.add_0_r in Hy.
      destruct (labels !! k) as [label|] eqn:Hk; [|done].
      injection Hy as <-.
      destruct (IH (S k) l'') as (Hlen & Hcl & Hid & Hts).
      { erewrite imap_ext; [exact H|]. intros i x _. simpl. f_equal. lia. }
      split_and!.
      + intros _. apply lookup_lt_Some in Hk.
        destruct l; [simpl; lia|]. specialize (Hlen ltac:(done)). lia.
      + csimpl. rewrite Hcl. rewrite (drop_S _ _ _ Hk). done.
      + csimpl. by rewrite Hid.
      + csimpl. by rewrite Hts. }
  destruct (Hgen 0%nat items items' HF) as (Hlen & ? & ? & ?).
  split_and!; [|done..].
  destruct items; [simpl; lia|]. specialize (Hlen ltac:(done)). lia.
Qed.

Section pipeline_facts.
Context {image clip_model clip_processor : Type}.
Variable open_image : string → option image.
Variable torch_available : bool.
Variable zero_shot_topk :
  clip_model → clip_processor → list image → nat → result (list nat).
Variable read_text : string → option string.
Variable fit_predict : list (Q * Q) → result (nat → Z).
Variable strftime : string → Z → result string.

(** X8. With one point per item, labels from -1 upwards, as HDBSCAN assigns
    them, and timestamps whose month can be formatted, the species that
    [generate_species] builds from the output of [main] of cluster.py are
    the clusters: one species for every cluster record, with its id, label,
    centroid and size. *)
Lemma cluster_main_species coords items mode model processor labels_of items'
    clusters :
  length coords = length items →
  fit_predict coords = Ok labels_of →
  (∀ i, -1 ≤ labels_of i) →
  (∀ it, it ∈ items → ∃ d, strftime "%Y-%m" (item_timestamp it) = Ok d) →
  cluster_main_items image clip_model clip_processor open_image
    torch_available zero_shot_topk read_text fit_predict coords items mode
    model processor = Ok (items', clusters) →
  ∃ sp,
    generate_species strftime items' clusters = Ok sp
    ∧ species_cluster_id <$> sp ≡ₚ cluster_id <$> clusters
    ∧ ∀ s, s ∈ sp →
        ∃ c, c ∈ clusters
          ∧ cluster_id c = species_cluster_id s
          ∧ species_name s = cluster_label c
          ∧ species_centroid s = cluster_centroid c
          ∧ species_count s = cluster_size c.
Proof.
  intros Hlen Hfit Hlabels Hfmt. unfold cluster_main_items.
  intros ([labels clusters'] & Hrun & (its & Hassign & [= <- <-])%rbind_Ok)
    %rbind_Ok.
  simpl in *.
  apply run_clustering_records in Hrun
    as ((labels_of' & Hfit' & Hl) & Hids & _ & Hrec).
  assert (labels_of' = labels_of) as -> by congruence.
  apply assign_clusters_Ok in Hassign as (_ & Hcl & _ & Hts).
  assert (length labels = length items) as Hll.
  { by rewrite Hl, length_fmap, length_seq. }
  rewrite <- Hll, firstn_all in Hcl.
  assert (∀ l, l ∈ labels → -1 ≤ l) as Hge.
  { intros l. rewrite Hl. intros (i & -> & _)%list_elem_of_fmap. done. }
  assert (∀ cid, length (filter (λ it, item_cluster it = cid) its)
                 = length (filter (λ l, l = cid) labels)) as Hcount.
  { intros cid. rewrite <- Hcl. clear.
    induction its as [|it its IH]; [done|]. csimpl.
    destruct (decide (item_cluster it = cid)) as [Heq|Hne].
    - rewrite !filter_cons_True by done. simpl. by rewrite IH.
    - rewrite !filter_cons_False by done. done. }
  pose proof (sorted_unique_labels_NoDup labels) as Hnd.
  rewrite <- Hids in Hnd.
  destruct (generate_species_returns strftime its clusters') as [sp Hgen].
  { intros it Hit _ _.
    assert (item_timestamp it ∈ item_timestamp <$> items) as Hin.
    { rewrite <- Hts. apply list_elem_of_fmap. eauto. }
    apply list_elem_of_fmap in Hin as (it' & -> & Hit'). by apply Hfmt. }
  destruct (generate_species_groups strftime its clusters' sp Hgen)
    as (_ & Hndsp & _ & Hin).
  pose proof (generate_species_ids strftime its clusters' sp Hgen) as Hspids.
  exists sp. split_and!; [done| |].
  - apply NoDup_Permutation; [done..|]. intros cid.
    rewrite Hspids. split.
    + intros [_ (c & Hc & <-)]. apply list_elem_of_fmap. eauto.
    + intros Hcid. split.
      * rewrite Hids in Hcid.
        apply elem_of_sorted_unique_labels in Hcid as [Hcid Hne].
        split; [specialize (Hge _ Hcid); lia|].
        rewrite <- Hcl in Hcid.
        apply list_elem_of_fmap in Hcid as (it & -> & Hit). eauto.
      * apply list_elem_of_fmap in Hcid as (c & -> & Hc). eauto.
  - intros s Hs. apply Hin in Hs as ([k members] & He & Hes).
    destruct Hes as (c & mn & mx & d1 & d2 & Hc & _ & _ & _ & _ & ->).
    simpl in *.
    rewrite cluster_map_of_lookup in Hc.
    apply elem_of_cluster_items_of in He as (_ & _ & ->).
    assert (c ∈ filter (λ c, cluster_id c = k) clusters') as Hcin.
    { apply last_Some in Hc as [l' ->]. apply elem_of_app. right. left. }
    apply list_elem_of_filter in Hcin as [Hck Hcin].
    exists c. split_and!; [done..|].
    destruct (Hrec c Hcin) as [-> _]. rewrite Hck. apply Hcount.
Qed.
End pipeline_facts.

Lemma cluster_main_species_witness :
  let it := λ name, {| item_id := name; item_content := name;
                       item_preview := "alpha notes"; item_timestamp := 0;
                       item_cluster := 0 |} in
  let coords := [(0 # 1, 0 # 1); (2 # 1, 4 # 1); (9 # 1, 9 # 1)]%Q in
  let items := [it "a"; it "b"; it "c"] in
  let labels_of := λ i : nat, if (i <? 2)%nat then 0 else -1 in
  let fit_predict := λ _ : list (Q * Q), Ok labels_of in
  ∃ items' clusters sp,
    cluster_main_items unit unit unit (λ _, None) false (λ _ _ _ _, Ok [])
      (λ _, None) fit_predict coords items "text" None None
    = Ok (items', clusters)
    ∧ generate_species (λ _ _, Ok "1970-01") items' clusters = Ok sp
    ∧ species_cluster_id <$> sp ≡ₚ cluster_id <$> clusters.
Proof.
  intros it coords items labels_of fit_predict.
  destruct (cluster_main_items unit unit unit (λ _, None) false
              (λ _ _ _ _, Ok []) (λ _, None) fit_predict coords items "text"
              None None) as [[items' clusters]| |] eqn:E;
    [|vm_compute in E; discriminate E..].
  destruct (cluster_main_species (image:=unit) (clip_model:=unit)
              (clip_processor:=unit) (λ _, None) false (λ _ _ _ _, Ok [])
              (λ _, None) fit_predict (λ _ _, Ok "1970-01") coords items "text"
              None None labels_of items' clusters) as (sp & Hgen & Hperm & _).
  - reflexivity.
  - reflexivity.
  - intros i. unfold labels_of. destruct (i <? 2)%nat; lia.
  - intros ? _. by eexists.
  - exact E.
  - exists items', clusters, sp. split; [reflexivity|].
    split; [exact Hgen|exact Hperm].
Defined.

(** ** Edge cases of the clustering *)

Lemma sorted_unique_labels_nil labels :
  sorted_unique_labels labels = [] ↔ Forall (λ l, l = -1) labels.
Proof.
  split.
  - intros Hnil. apply Forall_forall. intros l Hl.
    destruct (decide (l = -1)) as [|Hne]; [done|]. exfalso.
    assert (l ∈ sorted_unique_labels labels) as Hin
      by (by apply elem_of_sorted_unique_labels).
    rewrite Hnil in Hin. by apply not_elem_of_nil in Hin.
  - intros Hall. destruct (sorted_unique_labels labels) as [|l ls] eqn:E;
      [done|]. exfalso.
    assert (l ∈ sorted_unique_labels labels) as Hin by (rewrite E; left).
    apply elem_of_sorted_unique_labels in Hin as [Hin Hne].
    rewrite Forall_forall in Hall. by apply Hall in Hin.
Qed.

Lemma select_items_snoc items it mask :
  select_items (items ++ [it]) mask
  = rbind (select_items items mask) (λ r,
      match mask !! length items with
      | None => Raise IndexError
      | Some true => Ok (r ++ [it])
      | Some false => Ok r
      end).
Proof.
  unfold select_items. rewrite imap_app, foldl_app. simpl.
  by rewrite Nat.add_0_r.
Qed.

(** With a mask that is too short the selection raises [IndexError]. *)
Lemma select_items_short items mask :
  (length mask < length items)%nat →
  select_items items mask = Raise IndexError.
Proof.
  induction items as [|it items IH] using rev_ind; intros Hlen.
  - simpl in Hlen. lia.
  - rewrite length_app in Hlen. simpl in Hlen.
    rewrite select_items_snoc.
    destruct (decide (length mask < length items)%nat) as [Hlt|Hge].
    + by rewrite IH.
    + destruct (select_items_total items mask) as [r ->]; [lia|]. simpl.
      rewrite lookup_ge_None_2; [done|lia].
Qed.

Lemma zip_snoc_lookup {A B} (mask : list A) (items : list B) it b :
  mask !! length items = Some b →
  zip mask (items ++ [it]) = zip mask items ++ [(b, it)].
Proof.
  revert mask. induction items as [|x xs IH]; intros [|m ms] Hb;
    simpl in *; try done.
  - injection Hb as ->. by rewrite zip_with_nil_r.
  - by rewrite IH.
Qed.

(** With a mask that covers the items the selection is the masked list. *)
Lemma select_items_mask items mask :
  (length items ≤ length mask)%nat →
  select_items items mask = Ok (select_mask mask items).
Proof.
  induction items as [|it items IH] using rev_ind; intros Hlen.
  - unfold select_mask. by rewrite zip_with_nil_r.
  - rewrite length_app in Hlen. simpl in Hlen.
    rewrite select_items_snoc, IH by lia. simpl.
    destruct (lookup_lt_is_Some_2 mask (length items)) as [b Hb]; [lia|].
    rewrite Hb. unfold select_mask.
    rewrite (zip_snoc_lookup _ _ _ _ Hb), filter_app, fmap_app.
    destruct b.
    + by rewrite filter_cons_True.
    + rewrite filter_cons_False by done. by rewrite app_nil_r.
Qed.

Section clustering_edges.
Context {image clip_model clip_processor : Type}.
Variable open_image : string → option image.
Variable zero_shot_topk :
  clip_model → clip_processor → list image → nat → result (list nat).
Variable read_text : string → option string.
Variable fit_predict : list (Q * Q) → result (nat → Z).

Lemma image_label_without_processor torch_available model paths top_k p img :
  torch_available = true →
  head paths = Some p → open_image p = Some img →
  get_image_semantic_label image clip_model clip_processor open_image
    torch_available zero_shot_topk model None paths top_k
  = Raise TypeError.
Proof.
  intros -> Hp Himg. unfold get_image_semantic_label.
  destruct paths as [|p' paths]; [done|]. injection Hp as ->.
  csimpl. by rewrite Himg.
Qed.

Lemma labels_some_cluster (coords : list (Q * Q)) (labels_of : nat → Z) :
  (∃ i, (i < length coords)%nat ∧ labels_of i ≠ -1) →
  ∃ cid cids,
    sorted_unique_labels (labels_of <$> seq 0 (length coords))
    = cid :: cids
    ∧ cid ∈ labels_of <$> seq 0 (length coords).
Proof.
  intros (i & Hi & Hne).
  destruct (sorted_unique_labels _) as [|cid cids] eqn:E.
  - exfalso. apply sorted_unique_labels_nil in E.
    rewrite Forall_forall in E. apply Hne, E.
    apply list_elem_of_fmap. exists i. split; [done|].
    apply elem_of_seq. lia.
  - exists cid, cids. split; [done|].
    assert (cid ∈ sorted_unique_labels
                    (labels_of <$> seq 0 (length coords))) as Hin
      by (rewrite E; left).
    by apply elem_of_sorted_unique_labels in Hin as [? _].
Qed.

(** X9. When the labelling returns and marks every point as noise, no cluster
    is built and no label is computed, whatever the items and the mode. *)
Lemma run_clustering_all_noise torch_available coords items mode model
    processor labels_of :
  fit_predict coords = Ok labels_of →
  (∀ i, (i < length coords)%nat → labels_of i = -1) →
  run_clustering image clip_model clip_processor open_image torch_available
    zero_shot_topk read_text fit_predict coords items mode model processor
  = Ok (replicate (length coords) (-1), []).
Proof.
  intros Hfit Hnoise. unfold run_clustering. rewrite Hfit. cbn [rbind].
  assert (labels_of <$> seq 0 (length coords)
          = replicate (length coords) (-1)) as ->.
  { apply list_eq. intros i. rewrite list_lookup_fmap.
    destruct (decide (i < length coords)%nat) as [Hi|Hi].
    - rewrite lookup_seq_lt by done. simpl.
      rewrite lookup_replicate_2 by done. f_equal. by apply Hnoise.
    - rewrite lookup_seq_ge by lia. simpl.
      symmetry. apply lookup_replicate_None. lia. }
  assert (sorted_unique_labels (replicate (length coords) (-1)) = []) as ->.
  { apply sorted_unique_labels_nil, Forall_forall.
    by intros l [-> _]%elem_of_replicate. }
  done.
Qed.

(** X10. When the labelling returns, with more items than points and at least
    one point that is not noise, reading the mask at the index of an item
    beyond the points raises [IndexError]. *)
Lemma run_clustering_too_many_items torch_available coords items mode model
    processor labels_of :
  fit_predict coords = Ok labels_of →
  (length coords < length items)%nat →
  (∃ i, (i < length coords)%nat ∧ labels_of i ≠ -1) →
  run_clustering image clip_model clip_processor open_image torch_available
    zero_shot_topk read_text fit_predict coords items mode model processor
  = Raise IndexError.
Proof.
  intros Hfit Hlen Hsome. unfold run_clustering. rewrite Hfit. cbn [rbind].
  destruct (labels_some_cluster coords labels_of Hsome)
    as (cid & cids & -> & _).
  simpl. unfold cluster_record at 1.
  rewrite select_items_short; [done|].
  by rewrite !length_fmap, length_seq.
Qed.

(** X11. In image mode without a processor, with [torch] importable, one point
    per item and every item an image that opens, the first cluster already
    raises [TypeError]: clustering fails as soon as the labelling returns a
    point that is not noise. *)
Lemma run_clustering_without_processor coords items model labels_of :
  fit_predict coords = Ok labels_of →
  length coords = length items →
  (∀ it, it ∈ items → is_Some (open_image (item_content it))) →
  (∃ i, (i < length coords)%nat ∧ labels_of i ≠ -1) →
  run_clustering image clip_model clip_processor open_image true
    zero_shot_topk read_text fit_predict coords items "image" model None
  = Raise TypeError.
Proof.
  intros Hfit Hlen Hopen Hsome. unfold run_clustering.
  rewrite Hfit. cbn [rbind].
  destruct (labels_some_cluster coords labels_of Hsome)
    as (cid & cids & -> & Hcid).
  set (labels := labels_of <$> seq 0 (length coords)) in *.
  assert (length labels = length items) as Hll.
  { unfold labels. by rewrite length_fmap, length_seq. }
  simpl. unfold cluster_record at 1.
  rewrite select_items_mask by (rewrite length_fmap; lia).
  simpl. rewrite select_mask_members.
  pose proof (length_members labels items cid Hll) as Hcount.
  pose proof (filter_length_pos (λ l, l = cid) labels cid Hcid eq_refl)
    as Hpos.
  destruct (filter (λ p : Z * item, p.1 = cid) (zip labels items))
    as [|[l it] rest] eqn:E; [simpl in Hcount; lia|].
  assert (it ∈ items) as Hit.
  { assert ((l, it) ∈ filter (λ p : Z * item, p.1 = cid) (zip labels items))
      as Hin by (rewrite E; left).
    apply list_elem_of_filter in Hin as [_ Hin].
    by apply elem_of_zip_r in Hin. }
  destruct (Hopen it Hit) as [img Himg].
  csimpl.
  rewrite (image_label_without_processor true model _ 1
             (item_content it) img); done.
Qed.
End clustering_edges.

Lemma run_clustering_all_noise_witness :
  run_clustering unit unit unit (λ _, None) true (λ _ _ _ _, Ok [])
    (λ _, None) (λ _, Ok (λ _, -1)) [(1 # 1, 2 # 1); (3 # 1, 4 # 1)]%Q []
    "image" None None
  = Ok (replicate (length [(1 # 1, 2 # 1); (3 # 1, 4 # 1)]%Q) (-1), []).
Proof.
  apply (run_clustering_all_noise (image:=unit) (clip_model:=unit)
           (clip_processor:=unit) _ _ _ _ _ _ _ _ _ _ (λ _, -1)).
  - reflexivity.
  - intros i _. reflexivity.
Defined.

Lemma run_clustering_too_many_items_witness :
  let it := {| item_id := "a"; item_content := "a.png";
               item_preview := EmptyString; item_timestamp := 0;
               item_cluster := 0 |} in
  run_clustering unit unit unit (λ _, None) true (λ _ _ _ _, Ok [])
    (λ _, None) (λ _, Ok (λ _, 0)) [(1 # 1, 2 # 1)]%Q [it; it] "text" None
    None
  = Raise IndexError.
Proof.
  intros it.
  apply (run_clustering_too_many_items (image:=unit) (clip_model:=unit)
           (clip_processor:=unit) _ _ _ _ _ _ _ _ _ _ (λ _, 0)).
  - reflexivity.
  - simpl. lia.
  - exists 0%nat. split; [simpl; lia|done].
Defined.

Lemma run_clustering_without_processor_witness :
  let it := {| item_id := "a"; item_content := "a.png";
               item_preview := EmptyString; item_timestamp := 0;
               item_cluster := 0 |} in
  run_clustering unit unit unit (λ _, Some ()) true (λ _ _ _ _, Ok [])
    (λ _, None) (λ _, Ok (λ _, 0)) [(1 # 1, 2 # 1)]%Q [it] "image" None None
  = Raise TypeError.
Proof.
  intros it.
  apply (run_clustering_without_processor (image:=unit) (clip_model:=unit)
           (clip_processor:=unit) _ _ _ _ _ _ _ (λ _, 0)).
  - reflexivity.
  - reflexivity.
  - intros it' _. by eexists.
  - exists 0%nat. split; [simpl; lia|done].
Defined.

(** ** The order of [most_common] *)

(** The stable sort puts first the earliest element with the least key. *)
Lemma sort_by_head {A} (key : A → Z) l x t :
  sort_by key l = x :: t →
  ∃ pre post, l = pre ++ x :: post
    ∧ Forall (λ y, key x < key y) pre
    ∧ Forall (λ y, key x ≤ key y) post.
Proof.
  revert x t. induction l as [|a l IH]; intros x t Hs; [done|].
  simpl in Hs. destruct (sort_by key l) as [|h t'] eqn:E.
  - pose proof (sort_by_perm key l) as Hperm. rewrite E in Hperm.
    apply Permutation_nil_l in Hperm. subst l.
    simpl in Hs. injection Hs as <- <-.
    exists [], []. by repeat constructor.
  - destruct (IH h t' eq_refl) as (pre & post & -> & Hpre & Hpost).
    simpl in Hs. destruct (key a <=? key h) eqn:Le.
    + apply Z.leb_le in Le. injection Hs as <- <-.
      exists [], (pre ++ h :: post). split_and!; [done|constructor|].
      apply Forall_app. split.
      * eapply Forall_impl; [exact Hpre|]. simpl. intros; lia.
      * constructor; [done|].
        eapply Forall_impl; [exact Hpost|]. simpl. intros; lia.
    + apply Z.leb_gt in Le. injection Hs as <- <-.
      exists (a :: pre), post. split_and!; [done| |done].
      by constructor.
Qed.

(** The keys of a counter stand in the order of their first occurrence. *)
Lemma counter_keys_snoc words w :
  (counter_update [] (words ++ [w])).*1
  = if decide (w ∈ (counter_update [] words).*1)
    then (counter_update [] words).*1
    else (counter_update [] words).*1 ++ [w].
Proof. by rewrite counter_update_snoc, counter_incr_keys. Qed.

Lemma elem_of_counter_keys words w :
  w ∈ (counter_update [] words).*1 ↔ w ∈ words.
Proof.
  rewrite list_elem_of_fmap. split.
  - intros ([w' v] & -> & Hin). by apply elem_of_counter_update in Hin as [_ ?].
  - intros Hw. exists (w, length (filter (λ x, x = w) words)).
    split; [done|]. by apply elem_of_counter_update.
Qed.

Lemma counter_keys_first words ks1 w ks2 :
  (counter_update [] words).*1 = ks1 ++ w :: ks2 →
  ∃ pre post, words = pre ++ w :: post ∧ (w ∉ pre)
    ∧ ∀ k, k ∈ pre → k ∈ ks1.
Proof.
  revert ks1 w ks2.
  induction words as [|x words IH] using rev_ind; intros ks1 w ks2 Hks.
  - by destruct ks1.
  - rewrite counter_keys_snoc in Hks.
    destruct (decide (x ∈ (counter_update [] words).*1)) as [Hx|Hx].
    + destruct (IH _ _ _ Hks) as (pre & post & -> & Hpre & Hsub).
      exists pre, (post ++ [x]). split_and!; [|done..].
      by rewrite <- app_assoc.
    + destruct ks2 as [|k ks2 _] using rev_ind.
      * apply app_inj_tail in Hks as [Hks ->].
        exists words, []. split_and!; [done| |].
        -- by rewrite <- elem_of_counter_keys.
        -- intros k Hk. rewrite <- Hks. by apply elem_of_counter_keys.
      * rewrite app_comm_cons, app_assoc in Hks.
        apply app_inj_tail in Hks as [Hks ->].
        destruct (IH _ _ _ Hks) as (pre & post & -> & Hpre & Hsub).
        exists pre, (post ++ [k]). split_and!; [|done..].
        by rewrite <- app_assoc.
Qed.

(** The first entry of [most_common] is, among the keys of the greatest
    count, the one that occurs first in the list of words. *)
Lemma most_common_first k words w v rest :
  most_common (S k) (counter_update [] words) = (w, v) :: rest →
  ∃ pre post, words = pre ++ w :: post ∧ (w ∉ pre)
    ∧ v = length (filter (λ x, x = w) words)
    ∧ (∀ w', w' ∈ pre → (length (filter (λ x, x = w') words) < v)%nat)
    ∧ (∀ w', (length (filter (λ x, x = w') words) ≤ v)%nat).
Proof.
  unfold most_common. intros Hmc.
  destruct (sort_by _ (counter_update [] words)) as [|e t] eqn:E; [done|].
  simpl in Hmc. injection Hmc as -> _.
  destruct (sort_by_head _ _ _ _ E) as (c1 & c2 & Hc & Hlt & Hle).
  assert ((counter_update [] words).*1 = c1.*1 ++ w :: c2.*1) as Hks.
  { by rewrite Hc, fmap_app. }
  destruct (counter_keys_first _ _ _ _ Hks) as (pre & post & Hw & Hpre & Hsub).
  assert ((w, v) ∈ counter_update [] words) as Hwv.
  { rewrite Hc. apply elem_of_app. right. left. }
  apply elem_of_counter_update in Hwv as [Hv _].
  exists pre, post. split_and!; [done..| |].
  - intros w' Hw'. apply Hsub, list_elem_of_fmap in Hw' as ([w'' v'] & -> & Hin).
    assert ((w'', v') ∈ counter_update [] words) as Hin'.
    { rewrite Hc. apply elem_of_app. by left. }
    apply elem_of_counter_update in Hin' as [Hv' _]. simpl. rewrite <- Hv'.
    rewrite Forall_forall in Hlt. apply Hlt in Hin. simpl in Hin. lia.
  - intros w'. destruct (decide (w' ∈ words)) as [Hw'|Hw'].
    + assert ((w', length (filter (λ x, x = w') words))
              ∈ counter_update [] words) as Hin
        by (by apply elem_of_counter_update).
      rewrite Hc in Hin. apply elem_of_app in Hin as [Hin|Hin].
      * rewrite Forall_forall in Hlt. apply Hlt in Hin. simpl in Hin. lia.
      * apply elem_of_cons in Hin as [[= _ <-]|Hin]; [lia|].
        rewrite Forall_forall in Hle. apply Hle in Hin. simpl in Hin. lia.
    + assert (filter (λ x, x = w') words = []) as ->; [|simpl; lia].
      clear -Hw'. induction words as [|x l IH]; [done|].
      apply not_elem_of_cons in Hw' as [Hx Hl].
      rewrite filter_cons_False by done. by apply IH.
Qed.

(** X12. Ties between the most frequent words go to the word that occurs first
    in the sample: every word met before the first occurrence of the chosen
    word is strictly less frequent. *)
Theorem get_text_cluster_label_first
    (read_text : string → option string) (items : list item) :
  let words :=
    mjoin (text_words <$> omap (item_text read_text) (take 10 items)) in
  let count := λ w, length (filter (λ x, x = w) words) in
  let label := get_text_cluster_label read_text items in
  (words = [] ∧ label = "misc")
  ∨ ∃ pre w post,
      words = pre ++ w :: post ∧ (w ∉ pre) ∧ label = py_title w
      ∧ (∀ w', w' ∈ pre → (count w' < count w)%nat)
      ∧ (∀ w', (count w' ≤ count w)%nat).
Proof.
  intros words count label.
  destruct (text_label_cases read_text items) as [[Hnil Hl]|(w0 & Hw0 & _)];
    [by left|right].
  fold words in Hw0.
  unfold label, get_text_cluster_label. rewrite text_counts_words.
  fold words.
  destruct (most_common 3 (counter_update [] words)) as [|[w v] rest] eqn:E.
  - exfalso. pose proof (most_common_head 2 (counter_update [] words)) as H.
    rewrite E in H.
    assert ((w0, length (filter (λ x, x = w0) words))
            ∈ counter_update [] words) as Hin
      by (by apply elem_of_counter_update).
    rewrite H in Hin. by apply not_elem_of_nil in Hin.
  - destruct (most_common_first 2 words w v rest E)
      as (pre & post & Hw & Hpre & -> & Hlt & Hle).
    exists pre, w, post. by split_and!.
Qed.

(** X13. The label is determined by the previews of the first ten items when
    all of them have one: neither the files nor the other items matter. *)
Theorem get_text_cluster_label_previews
    (read_text read_text' : string → option string)
    (items items' : list item) :
  item_preview <$> take 10 items = item_preview <$> take 10 items' →
  Forall (λ it, item_preview it ≠ EmptyString) (take 10 items) →
  get_text_cluster_label read_text items
  = get_text_cluster_label read_text' items'.
Proof.
  intros Heq Hne.
  assert (∀ rt l, Forall (λ it, item_preview it ≠ EmptyString) l →
            omap (item_text rt) l = item_preview <$> l) as Htext.
  { intros rt l. induction 1 as [|it l Hit _ IH]; [done|]. csimpl.
    unfold item_text at 1. destruct (item_preview it); [done|].
    csimpl. by rewrite IH. }
  assert (Forall (λ it, item_preview it ≠ EmptyString) (take 10 items'))
    as Hne'.
  { apply Forall_forall. intros it Hit.
    assert (item_preview it ∈ item_preview <$> take 10 items') as Hin.
    { apply list_elem_of_fmap. eauto. }
    rewrite <- Heq in Hin.
    apply list_elem_of_fmap in Hin as (it0 & -> & Hit0).
    rewrite Forall_forall in Hne. by apply Hne. }
  unfold get_text_cluster_label. rewrite !text_counts_words.
  by rewrite !Htext, Heq.
Qed.

Lemma get_text_cluster_label_previews_witness :
  let it := λ name, {| item_id := name; item_content := name;
                       item_preview := "garden notes"; item_timestamp := 0;
                       item_cluster := 0 |} in
  get_text_cluster_label (λ _, None) [it "a"; it "d"]
  = get_text_cluster_label (λ _, Some "other") [it "b"; it "c"].
Proof.
  intros it. apply get_text_cluster_label_previews.
  - reflexivity.
  - repeat constructor; done.
Defined.

(** X14. An item without a preview whose file cannot be read adds no word, yet
    it takes one of the ten places of the sample. *)
Theorem get_text_cluster_label_unreadable
    (read_text : string → option string) (it : item) (items : list item) :
  item_preview it = EmptyString →
  read_text (item_content it) = None →
  get_text_cluster_label read_text (it :: items)
  = get_text_cluster_label read_text (take 9 items).
Proof.
  intros Hp Hr. unfold get_text_cluster_label.
  rewrite take_take. simpl.
  unfold text_count_step at 2, item_text. by rewrite Hp, Hr.
Qed.

Lemma get_text_cluster_label_unreadable_witness :
  let it := λ name preview,
    {| item_id := name; item_content := name; item_preview := preview;
       item_timestamp := 0; item_cluster := 0 |} in
  get_text_cluster_label (λ _, None) [it "a" EmptyString; it "b" "garden"]
  = get_text_cluster_label (λ _, None) (take 9 [it "b" "garden"]).
Proof.
  intros it.
  apply (get_text_cluster_label_unreadable (λ _, None)); reflexivity.
Defined.

(** X15. The filename fallback counts, over the first forty paths, the runs of
    the letters a to z of the lower-cased path that have four letters or
    more and are no stop words. It returns "Images" when there is none, and
    otherwise the title-cased form of the most frequent one, the first of
    them in the order of the paths among equally frequent ones. *)
Theorem fallback_image_label_spec (image_paths : list string) :
  let tokens := mjoin (path_tokens <$> take 40 image_paths) in
  let count := λ t, length (filter (λ x, x = t) tokens) in
  let label := _fallback_image_label image_paths in
  (∀ t, t ∈ tokens ↔
     ∃ p, p ∈ take 40 image_paths
       ∧ t ∈ runs is_lower_az (py_lower p)
       ∧ (4 ≤ py_len t)%nat ∧ (t ∉ image_stop))
  ∧ (∀ t, t ∈ tokens → Forall (λ c, is_lower_az c = true) (chars t))
  ∧ ((tokens = [] ∧ label = "Images")
     ∨ ∃ pre t post,
         tokens = pre ++ t :: post ∧ (t ∉ pre) ∧ label = py_title t
         ∧ (∀ t', t' ∈ pre → (count t' < count t)%nat)
         ∧ (∀ t', (count t' ≤ count t)%nat)).
Proof.
  intros tokens count label.
  assert (∀ t, t ∈ tokens ↔
     ∃ p, p ∈ take 40 image_paths
       ∧ t ∈ runs is_lower_az (py_lower p)
       ∧ (4 ≤ py_len t)%nat ∧ (t ∉ image_stop)) as Htok.
  { intros t. unfold tokens. rewrite list_elem_of_join. split.
    - intros (ts & Ht & (p & -> & Hp)%list_elem_of_fmap).
      unfold path_tokens in Ht.
      apply list_elem_of_filter in Ht as [[Hlen Hstop] Hrun].
      exists p. split_and!; [done..|lia|done].
    - intros (p & Hp & Hrun & Hlen & Hstop).
      exists (path_tokens p). split.
      + unfold path_tokens. apply list_elem_of_filter.
        split; [|done]. split; [lia|done].
      + apply list_elem_of_fmap. eauto. }
  split_and!.
  - done.
  - intros t (p & _ & Hrun & _)%Htok. by eapply runs_keep.
  - unfold label, _fallback_image_label. rewrite fallback_counts.
    fold tokens.
    destruct (most_common 1 (counter_update [] tokens)) as [|[t v] rest] eqn:E.
    + left. split; [|done].
      pose proof (most_common_head 0 (counter_update [] tokens)) as H.
      rewrite E in H. destruct tokens as [|t0 ts] eqn:Et; [done|]. exfalso.
      assert ((t0, length (filter (λ x, x = t0) (t0 :: ts)))
              ∈ counter_update [] (t0 :: ts)) as Hin.
      { apply elem_of_counter_update. split; [done|left]. }
      rewrite H in Hin. by apply not_elem_of_nil in Hin.
    + right.
      destruct (most_common_first 0 tokens t v rest E)
        as (pre & post & Hw & Hpre & -> & Hlt & Hle).
      exists pre, t, post. by split_and!.
Qed.

(** ** The files passed from step to step *)

Lemma clustered_name_ne (m : string) :
  "embeddings_clustered_" +:+ m +:+ ".json" ≠ "embeddings_clustered.json".
Proof. simpl. intros [=]. Qed.

Lemma raw_name_ne (m : string) :
  "embeddings_raw_" +:+ m +:+ ".json" ≠ "embeddings_raw.json".
Proof. simpl. intros [=]. Qed.

(** X16. What [load_clustered_data] reads after [main] of cluster.py has written
    its output, both called with the same [mode]. In text mode it is the
    document just written. In another given mode it is the document just
    written only if no file of the name [embeddings_clustered_<mode>.json]
    exists; such a file, which [main] never writes, is read instead. Without
    a mode it is the document just written unless the mode stored with the
    embeddings is "text", when the unsuffixed file, which was not written,
    is read. *)
Theorem load_clustered_data_after_write {document : Type}
    (data_dir : gmap string document) (mode stored : option string)
    (d : document) :
  let written := <[cluster_output_name mode stored := d]> data_dir in
  (mode = Some "text" → load_clustered_data written mode = Some d)
  ∧ (∀ c s, mode = Some (String c s) → String c s ≠ "text" →
       load_clustered_data written mode
       = match data_dir !! ("embeddings_clustered_" +:+ String c s
                            +:+ ".json") with
         | Some stale => Some stale
         | None => Some d
         end)
  ∧ (mode = None ∨ mode = Some EmptyString →
       load_clustered_data written mode
       = if decide (data_mode stored = "text")
         then data_dir !! "embeddings_clustered.json"
         else Some d).
Proof.
  intros written. split_and!.
  - intros ->. unfold written, cluster_output_name, load_clustered_data.
    simpl. by rewrite lookup_insert_eq.
  - intros c s -> Hne.
    unfold written, cluster_output_name, load_clustered_data.
    cbn [py_or]. rewrite decide_False by done.
    change ("embeddings_clustered" +:+ EmptyString +:+ ".json")
      with "embeddings_clustered.json".
    rewrite lookup_insert_ne by (symmetry; apply clustered_name_ne).
    destruct (data_dir !! _); [done|]. by rewrite lookup_insert_eq.
  - intros Hmode.
    assert (py_or mode (data_mode stored) = data_mode stored
            ∧ load_clustered_data written mode
              = written !! "embeddings_clustered.json") as [Hor ->].
    { by destruct Hmode as [-> | ->]. }
    unfold written, cluster_output_name. rewrite Hor.
    destruct (decide (data_mode stored = "text")) as [Ht|Ht].
    + change ("embeddings_clustered" +:+ "_text" +:+ ".json")
        with ("embeddings_clustered_" +:+ "text" +:+ ".json").
      by rewrite lookup_insert_ne by apply clustered_name_ne.
    + by rewrite lookup_insert_eq.
Qed.

(** X17. What [load_embeddings] reads after [main] of embed.py has written its
    output: called with the same non-empty mode it reads the document just
    written; called without a mode, as [main] of cluster.py is by default,
    it reads the file [embeddings_raw.json], which embed.py never writes. *)
Theorem load_embeddings_after_write {document : Type}
    (data_dir : gmap string document) (mode : string) (d : document) :
  let written := <[embed_output_name mode := d]> data_dir in
  (mode ≠ EmptyString → load_embeddings written (Some mode) = Some d)
  ∧ load_embeddings written None = data_dir !! "embeddings_raw.json"
  ∧ (mode = EmptyString →
       load_embeddings written (Some mode) = data_dir !! "embeddings_raw.json").
Proof.
  intros written. unfold written, embed_output_name. split_and!.
  - intros Hne. destruct mode as [|c s]; [done|].
    unfold load_embeddings. by rewrite lookup_insert_eq.
  - unfold load_embeddings.
    by rewrite lookup_insert_ne by apply raw_name_ne.
  - intros ->. unfold load_embeddings.
    by rewrite lookup_insert_ne by apply (raw_name_ne EmptyString).
Qed.

(** ** The similarity matrix *)

Lemma foldl_Qplus a l : (foldl Qplus a l == a + foldl Qplus 0 l)%Q.
Proof.
  revert a. induction l as [|x l IH]; intros a; simpl; [lra|].
  rewrite (IH (a + x)%Q), (IH (0 + x)%Q). lra.
Qed.

Lemma dot_cons x u y v : (dot (x :: u) (y :: v) == x * y + dot u v)%Q.
Proof. unfold dot. simpl. rewrite foldl_Qplus. lra. Qed.

Lemma dot_nil_l v : dot [] v = 0%Q.
Proof. done. Qed.

Lemma dot_nil_r u : dot u [] = 0%Q.
Proof. unfold dot. by rewrite zip_with_nil_r. Qed.

Lemma dot_comm u v : (dot u v == dot v u)%Q.
Proof.
  revert v. induction u as [|x u IH]; intros [|y v];
    rewrite ?dot_nil_l, ?dot_nil_r; try reflexivity.
  rewrite !dot_cons, IH. lra.
Qed.

Lemma dot_self_nonneg u : (0 <= dot u u)%Q.
Proof.
  induction u as [|x u IH]; [by rewrite dot_nil_l|].
  rewrite dot_cons.
  assert (0 <= x * x)%Q as Hsq.
  { destruct (Qlt_le_dec x 0) as [Hn|Hp].
    - assert (x * x == (- x) * (- x))%Q as -> by ring.
      apply Qmult_le_0_compat; lra.
    - by apply Qmult_le_0_compat. }
  lra.
Qed.

Lemma compute_similarity_matrix_entry embeddings i j u v :
  embeddings !! i = Some u → embeddings !! j = Some v →
  mat_get (compute_similarity_matrix embeddings) i j = Some (dot u v).
Proof.
  intros Hu Hv. unfold mat_get, compute_similarity_matrix.
  rewrite list_lookup_fmap, Hu. simpl.
  by rewrite list_lookup_fmap, Hv.
Qed.

(** X18. The similarity matrix is square over the rows of the array and
    symmetric, each entry being the product of the two rows, and no entry of
    its diagonal is negative. *)
Theorem compute_similarity_matrix_symmetric (embeddings : matrix Q) :
  let similarity := compute_similarity_matrix embeddings in
  let n := length embeddings in
  length similarity = n
  ∧ Forall (λ row, length row = n) similarity
  ∧ (∀ i j u v, embeddings !! i = Some u → embeddings !! j = Some v →
       ∃ x y, mat_get similarity i j = Some x
         ∧ mat_get similarity j i = Some y
         ∧ (x == y)%Q ∧ (x == dot u v)%Q)
  ∧ (∀ i, (i < n)%nat →
       ∃ x, mat_get similarity i i = Some x ∧ (0 <= x)%Q).
Proof.
  intros similarity n. split_and!.
  - unfold similarity, compute_similarity_matrix. by rewrite length_fmap.
  - unfold similarity, compute_similarity_matrix.
    apply Forall_forall. intros row (u & -> & _)%list_elem_of_fmap.
    by rewrite length_fmap.
  - intros i j u v Hu Hv. exists (dot u v), (dot v u).
    unfold similarity.
    rewrite (compute_similarity_matrix_entry _ _ _ _ _ Hu Hv).
    rewrite (compute_similarity_matrix_entry _ _ _ _ _ Hv Hu).
    split_and!; [done..|apply dot_comm|reflexivity].
  - intros i Hi.
    destruct (lookup_lt_is_Some_2 embeddings i Hi) as [u Hu].
    exists (dot u u). split; [|apply dot_self_nonneg].
    by apply compute_similarity_matrix_entry.
Qed.

(** X20. A label that [get_image_semantic_label] returns is the filename
    fallback or the title-cased form of one of the 36 candidate labels,
    whatever the scores are; with the default [top_k] of 1 and every part of
    CLIP at hand it is the candidate at the index that [topk] lists first,
    and an index beyond the candidates raises [IndexError]. *)
Theorem get_image_semantic_label_vocabulary
    (image clip_model clip_processor : Type)
    (open_image : string → option image) (torch_available : bool)
    (zero_shot_topk :
       clip_model → clip_processor → list image → nat → result (list nat))
    (model : option clip_model) (processor : option clip_processor)
    (image_paths : list string) (top_k : nat) :
  let result :=
    get_image_semantic_label image clip_model clip_processor open_image
      torch_available zero_shot_topk model processor image_paths top_k in
  (∀ label, result = Ok label →
     label = _fallback_image_label image_paths
     ∨ label ∈ py_title <$> IMAGE_LABELS)
  ∧ (∀ mdl proc img imgs i,
       model = Some mdl → processor = Some proc → torch_available = true →
       omap open_image (take 5 image_paths) = img :: imgs →
       zero_shot_topk mdl proc (img :: imgs) top_k = Ok [i] →
       result = match IMAGE_LABELS !! i with
                | Some l => Ok (py_title l)
                | None => Raise IndexError
                end).
Proof.
  intros result. split.
  - intros label Hlabel. apply image_label_cases in Hlabel as [->|(l & Hl & ->)].
    + by left.
    + right. apply list_elem_of_fmap. eauto.
  - intros mdl proc img imgs i -> -> -> Himgs Htop.
    unfold result, get_image_semantic_label. rewrite Himgs. simpl.
    rewrite Htop. simpl. by destruct (IMAGE_LABELS !! i).
Qed.
